(** * RmlUi layout dispatcher (Source/Core/LayoutEngine.cpp)

    A shallow embedding of [LayoutEngine]: the root-level [FormatElement]
    overload, the per-element [FormatElement] dispatcher and the block,
    inline, inline-block, table and special formatters.

    The formatting contexts ([LayoutBlockBox], [LayoutInlineBox]), the box
    metrics ([LayoutDetails]), the table formatter ([LayoutTable]) and the
    element callbacks are collaborators of the dispatcher.  They are kept
    abstract in the record [Collaborators]: every operation is a transition
    on an opaque collaborator state.  Each call with an effect is also
    appended to a trace of events, which is what the theorems observe.

    The sibling loop of the dispatcher restarts from the first child whenever
    a child reports failure ([i = -1]); nothing in the dispatcher bounds it,
    so the embedding is driven by fuel and distinguishes running out of
    fuel from returning. *)

From Stdlib Require Import List String Bool Arith NArith Lia.
Import ListNotations.
#[local] Set Warnings "-register-all".
Local Open Scope string_scope.
Local Open Scope list_scope.

(** ** The style values the dispatcher branches on *)

Module Style.

(** [Style::Display]: the values named by the switch of [FormatElement]. *)
Inductive Display : Type :=
| DisplayNone
| Block
| Inline
| InlineBlock
| Table
| TableRow
| TableRowGroup
| TableColumn
| TableColumnGroup
| TableCell.

(** [Style::Position]: only [Absolute] and [Fixed] are tested. *)
Inductive Position : Type :=
| Static
| Relative
| Absolute
| Fixed.

(** [Style::Float]: only [None] is tested. *)
Inductive Float : Type :=
| FloatNone
| Left
| Right.

Record ComputedValues : Type := mkComputed {
  display : Display;
  position : Position;
  float_ : Float
}.

End Style.

Import Style.

(** ** Elements *)

(** What the dispatcher reads of an [Element]: its tag name, its address
    (for diagnostics), the declared [display] property rendered as a string
    when present, the computed values and the ordered children. *)
Inductive Element : Type := mkElement {
  GetTagName : string;
  GetAddress : string;
  GetDisplayProperty : option string;
  GetComputedValues : ComputedValues;
  children : list Element
}.

(** The loops of the dispatcher run [GetChild(i)] over
    [0 <= i < GetNumChildren()]: they visit [children] in order. *)
Definition GetNumChildren (e : Element) : nat := List.length (children e).

Fixpoint height (e : Element) : nat :=
  match e with
  | mkElement _ _ _ _ cs => S (fold_right (fun c m => Nat.max (height c) m) 0 cs)
  end.

(** ** Formatting-context handles and results *)

(** [LayoutBlockBox*] and [LayoutInlineBox*] are handles into the
    collaborator state. *)
Definition BlockBox : Type := nat.
Definition InlineBox : Type := nat.

(** [LayoutBlockBox::CloseResult] *)
Inductive CloseResult : Type :=
| OK
| LAYOUT_SELF
| LAYOUT_PARENT.

Definition is_OK (r : CloseResult) : bool :=
  match r with OK => true | _ => false end.

(** ** Observable events, in call order *)

Inductive Event : Type :=
| EvNewBlockBox (box : BlockBox)
| EvAddBlockElement (parent : BlockBox) (e : Element) (result : option BlockBox)
| EvClose (box : BlockBox) (result : CloseResult)
| EvCloseAbsoluteElements (box : BlockBox)
| EvAddAbsoluteElement (box : BlockBox) (e : Element)
| EvAddFloatElement (box : BlockBox) (e : Element) (result : bool)
| EvAddInlineElement (box : BlockBox) (e : Element) (result : InlineBox)
| EvInlineClose (inline_box : InlineBox)
| EvAddBreak (box : BlockBox)
| EvFormatTable (box : BlockBox) (e : Element) (result : CloseResult)
| EvOnLayout (e : Element)
| EvLogWarning (message : string).

(** ** The collaborators of the dispatcher *)

Record Collaborators : Type := mkCollaborators {
  State : Type;
  Box : Type;
  Vector2f : Type;
  Heights : Type;
  (* LayoutBlockBox(nullptr, nullptr, Box(containing_block), 0.0f, FLT_MAX) *)
  NewBlockBox : Vector2f -> State -> BlockBox * State;
  AddBlockElement : BlockBox -> Element -> Box -> Heights -> State -> option BlockBox * State;
  Close : BlockBox -> State -> CloseResult * State;
  CloseAbsoluteElements : BlockBox -> State -> State;
  GetVisibleOverflowSize : BlockBox -> State -> Vector2f;
  AddAbsoluteElement : BlockBox -> Element -> State -> State;
  AddFloatElement : BlockBox -> Element -> State -> bool * State;
  AddInlineElement : BlockBox -> Element -> Box -> State -> InlineBox * State;
  InlineClose : InlineBox -> State -> State;
  AddBreak : BlockBox -> State -> State;
  (* LayoutTable::FormatTable *)
  FormatTable : BlockBox -> Element -> State -> CloseResult * State;
  (* Element::OnLayout and Element::GetBox *)
  OnLayout : Element -> State -> State;
  GetBox : Element -> State -> Box;
  (* LayoutDetails *)
  GetContainingBlock : BlockBox -> State -> Vector2f;
  BuildBox : Vector2f -> Element -> bool -> Box;
  BuildBoxIn : BlockBox -> Element -> bool -> State -> Box * Heights;
  GetMinMaxHeight : ComputedValues -> Box -> Vector2f -> Heights
}.

Section Dispatcher.

Variable K : Collaborators.

Record World : Type := mkWorld {
  st : State K;
  trace : list Event
}.

(** ** Outcomes and the dispatcher monad *)

Inductive Outcome (A : Type) : Type :=
| Done (a : A) (w : World)
| OutOfFuel
| NullDeref.

Arguments Done {A} a w.
Arguments OutOfFuel {A}.
Arguments NullDeref {A}.

Definition M (A : Type) : Type := World -> Outcome A.

Definition ret {A : Type} (a : A) : M A := fun w => Done a w.

Definition bind {A B : Type} (m : M A) (f : A -> M B) : M B :=
  fun w =>
    match m w with
    | Done a w' => f a w'
    | OutOfFuel => OutOfFuel
    | NullDeref => NullDeref
    end.

Definition out_of_fuel {A : Type} : M A := fun _ => OutOfFuel.
Definition null_deref {A : Type} : M A := fun _ => NullDeref.

(** A collaborator call that returns a value: the state moves and the
    event, which carries the returned value, is appended to the trace. *)
Definition call {A : Type} (ev : A -> Event) (op : State K -> A * State K) : M A :=
  fun w =>
    let (a, s) := op (st w) in
    Done a (mkWorld s (trace w ++ [ev a])).

(** A collaborator call without a result. *)
Definition call_ (ev : Event) (op : State K -> State K) : M unit :=
  fun w => Done tt (mkWorld (op (st w)) (trace w ++ [ev])).

(** A read of the collaborator state. *)
Definition read {A : Type} (f : State K -> A) : M A :=
  fun w => Done (f (st w)) w.

Definition emit (ev : Event) : M unit :=
  fun w => Done tt (mkWorld (st w) (trace w ++ [ev])).

Notation "x <- c1 ;; c2" := (bind c1 (fun x => c2))
  (at level 100, c1 at next level, right associativity).
Notation "c1 ;;; c2" := (bind c1 (fun _ => c2))
  (at level 100, right associativity).

(** ** The loops of the dispatcher *)

(** [for (i = 0; i < n; i++) if (!FormatElement(box, GetChild(i))) i = -1;]
    [rest] is the suffix of the children still to visit; a failing child
    restarts the loop on [all].  Every restart consumes one unit of [k]. *)
Fixpoint format_children (k : nat) (F : Element -> M bool) (all : list Element)
  {struct k} : list Element -> M unit :=
  fix visit (rest : list Element) : M unit :=
    match rest with
    | [] => ret tt
    | c :: rest' =>
        ok <- F c ;;
        if ok then visit rest'
        else match k with
             | 0 => out_of_fuel
             | S k' => format_children k' F all all
             end
    end.

(** [for (i = 0; i < n; i++) FormatElement(box, GetChild(i));]
    the result of every child is dropped. *)
Fixpoint format_children_once (F : Element -> M bool) (cs : list Element) : M unit :=
  match cs with
  | [] => ret tt
  | c :: cs' => F c ;;; format_children_once F cs'
  end.

(** [for (i = 0; i < n; i++) if (!FormatElement(box, GetChild(i))) return false;]
    followed by [tail]. *)
Fixpoint format_children_strict (F : Element -> M bool) (cs : list Element)
  (tail : M bool) : M bool :=
  match cs with
  | [] => tail
  | c :: cs' =>
      ok <- F c ;;
      if ok then format_children_strict F cs' tail else ret false
  end.

(** [for (layout_iteration = 0; layout_iteration < iterations; ...)]
    of the root overload: a pass over the children, then [Close]; the loop
    is left on [OK]. *)
Fixpoint layout_iterations (iterations : nat) (pass : M unit) (close : M CloseResult)
  : M unit :=
  match iterations with
  | 0 => ret tt
  | S i =>
      pass ;;;
      r <- close ;;
      if is_OK r then ret tt else layout_iterations i pass close
  end.

(** [for (i = 0; i < attempts; i++)] of [FormatElementTable]. *)
Fixpoint table_attempts (attempts : nat) (format_table : M CloseResult) : M bool :=
  match attempts with
  | 0 => ret true
  | S i =>
      result <- format_table ;;
      match result with
      | LAYOUT_SELF => table_attempts i format_table
      | LAYOUT_PARENT => ret false
      | OK => ret true
      end
  end.

(** ** The formatters, open in the recursive call [F] *)

(** [void LayoutEngine::FormatElement(Element* element, Vector2f containing_block,
    const Box* override_initial_box, Vector2f* out_visible_overflow_size)].
    [want_overflow] says whether [out_visible_overflow_size] is non-null;
    the value written through it is the result.  [GetMinMaxHeight] is handed
    the containing block, of which it reads the height.  The pointer that
    [AddBlockElement] returns is used unchecked by every statement that
    follows: a null result is [NullDeref]. *)
Definition FormatElement_root_body (k : nat) (F : BlockBox -> Element -> M bool)
  (element : Element) (containing_block : Vector2f K)
  (override_initial_box : option (Box K)) (want_overflow : bool)
  : M (option (Vector2f K)) :=
  containing_block_box <- call EvNewBlockBox (NewBlockBox K containing_block) ;;
  let box :=
    match override_initial_box with
    | Some b => b
    | None => BuildBox K containing_block element false
    end in
  let min_max := GetMinMaxHeight K (GetComputedValues element) box containing_block in
  opened <- call (EvAddBlockElement containing_block_box element)
                 (AddBlockElement K containing_block_box element box min_max) ;;
  match opened with
  | None => null_deref
  | Some block_context_box =>
      layout_iterations 2
        (format_children k (F block_context_box) (children element) (children element))
        (call (EvClose block_context_box) (Close K block_context_box)) ;;;
      call_ (EvCloseAbsoluteElements block_context_box)
            (CloseAbsoluteElements K block_context_box) ;;;
      overflow <- (if want_overflow
                   then v <- read (GetVisibleOverflowSize K block_context_box) ;; ret (Some v)
                   else ret None) ;;
      call_ (EvOnLayout element) (OnLayout K element) ;;;
      ret overflow
  end.

(** [bool LayoutEngine::FormatElementSpecial(LayoutBlockBox* block_context_box, Element* element)] *)
Definition FormatElementSpecial (block_context_box : BlockBox) (element : Element)
  : M bool :=
  if String.eqb (GetTagName element) "br" then
    call_ (EvAddBreak block_context_box) (AddBreak K block_context_box) ;;;
    call_ (EvOnLayout element) (OnLayout K element) ;;;
    ret true
  else ret false.

(** [bool LayoutEngine::FormatElementBlock(LayoutBlockBox* block_context_box, Element* element)] *)
Definition FormatElementBlock_body (k : nat) (F : BlockBox -> Element -> M bool)
  (block_context_box : BlockBox) (element : Element) : M bool :=
  bm <- read (BuildBoxIn K block_context_box element false) ;;
  opened <- call (EvAddBlockElement block_context_box element)
                 (AddBlockElement K block_context_box element (fst bm) (snd bm)) ;;
  match opened with
  | None => ret false
  | Some new_block_context_box =>
      format_children k (F new_block_context_box) (children element) (children element) ;;;
      r <- call (EvClose new_block_context_box) (Close K new_block_context_box) ;;
      match r with
      | LAYOUT_SELF =>
          format_children_once (F new_block_context_box) (children element) ;;;
          r2 <- call (EvClose new_block_context_box) (Close K new_block_context_box) ;;
          if is_OK r2 then
            call_ (EvOnLayout element) (OnLayout K element) ;;;
            ret true
          else ret false
      | LAYOUT_PARENT => ret false
      | OK =>
          call_ (EvOnLayout element) (OnLayout K element) ;;;
          ret true
      end
  end.

(** [bool LayoutEngine::FormatElementInline(LayoutBlockBox* block_context_box, Element* element)] *)
Definition FormatElementInline_body (F : BlockBox -> Element -> M bool)
  (block_context_box : BlockBox) (element : Element) : M bool :=
  containing_block <- read (GetContainingBlock K block_context_box) ;;
  let box := BuildBox K containing_block element true in
  inline_box <- call (EvAddInlineElement block_context_box element)
                     (AddInlineElement K block_context_box element box) ;;
  format_children_strict (F block_context_box) (children element)
    (call_ (EvInlineClose inline_box) (InlineClose K inline_box) ;;;
     ret true).

(** [bool LayoutEngine::FormatElementInlineBlock(LayoutBlockBox* block_context_box, Element* element)] *)
Definition FormatElementInlineBlock_body (k : nat) (F : BlockBox -> Element -> M bool)
  (block_context_box : BlockBox) (element : Element) : M bool :=
  containing_block_size <- read (GetContainingBlock K block_context_box) ;;
  FormatElement_root_body k F element containing_block_size None false ;;;
  box <- read (GetBox K element) ;;
  inline_box <- call (EvAddInlineElement block_context_box element)
                     (AddInlineElement K block_context_box element box) ;;
  call_ (EvInlineClose inline_box) (InlineClose K inline_box) ;;;
  ret true.

(** [bool LayoutEngine::FormatElementTable(LayoutBlockBox* block_context_box, Element* element)] *)
Definition FormatElementTable (block_context_box : BlockBox) (element_table : Element)
  : M bool :=
  bm <- read (BuildBoxIn K block_context_box element_table false) ;;
  opened <- call (EvAddBlockElement block_context_box element_table)
                 (AddBlockElement K block_context_box element_table (fst bm) (snd bm)) ;;
  match opened with
  | None => ret false
  | Some table_block_context_box =>
      table_attempts 2
        (call (EvFormatTable table_block_context_box element_table)
              (FormatTable K table_block_context_box element_table))
  end.

(** The warning of the table-substructure case. *)
Definition table_warning (element : Element) : string :=
  "Element has a display type '"
    ++ match GetDisplayProperty element with
       | Some s => s
       | None => "*unknown*"
       end
    ++ "', but is not located in a table. It will not be formatted. In element "
    ++ GetAddress element.

Definition is_absolute_or_fixed (p : Position) : bool :=
  match p with
  | Absolute | Fixed => true
  | _ => false
  end.

Definition is_floating (f : Float) : bool :=
  match f with
  | FloatNone => false
  | _ => true
  end.

(** [bool LayoutEngine::FormatElement(LayoutBlockBox* block_context_box, Element* element)] *)
Definition FormatElement_body (k : nat) (F : BlockBox -> Element -> M bool)
  (block_context_box : BlockBox) (element : Element) : M bool :=
  let computed := GetComputedValues element in
  special <- FormatElementSpecial block_context_box element ;;
  if special then ret true
  else
    match display computed with
    | DisplayNone => ret true
    | _ =>
        if is_absolute_or_fixed (position computed) then
          call_ (EvAddAbsoluteElement block_context_box element)
                (AddAbsoluteElement K block_context_box element) ;;;
          ret true
        else if is_floating (float_ computed) then
          containing_block <- read (GetContainingBlock K block_context_box) ;;
          FormatElement_root_body k F element containing_block None false ;;;
          call (EvAddFloatElement block_context_box element)
               (AddFloatElement K block_context_box element)
        else
          match display computed with
          | Block => FormatElementBlock_body k F block_context_box element
          | Inline => FormatElementInline_body F block_context_box element
          | InlineBlock => FormatElementInlineBlock_body k F block_context_box element
          | Table => FormatElementTable block_context_box element
          | TableRow | TableRowGroup | TableColumn | TableColumnGroup | TableCell =>
              emit (EvLogWarning (table_warning element)) ;;;
              ret true
          | DisplayNone => ret true
          end
    end.

(** ** Tying the knot: fuel bounds the nesting depth and the restarts *)

Fixpoint FormatElement (fuel : nat) (block_context_box : BlockBox) (element : Element)
  {struct fuel} : M bool :=
  match fuel with
  | 0 => out_of_fuel
  | S n => FormatElement_body n (FormatElement n) block_context_box element
  end.

Definition FormatElement_root (fuel : nat) :=
  FormatElement_root_body fuel (FormatElement fuel).

Definition FormatElementBlock (fuel : nat) :=
  FormatElementBlock_body fuel (FormatElement fuel).

Definition FormatElementInline (fuel : nat) :=
  FormatElementInline_body (FormatElement fuel).

Definition FormatElementInlineBlock (fuel : nat) :=
  FormatElementInlineBlock_body fuel (FormatElement fuel).

End Dispatcher.

Arguments Done {K A} a w.
Arguments OutOfFuel {K A}.
Arguments NullDeref {K A}.
Arguments mkWorld {K} st trace.
Arguments st {K} w.
Arguments trace {K} w.
Arguments ret {K A} a w.
Arguments bind {K A B} m f w.
Arguments call {K A} ev op w.
Arguments call_ {K} ev op w.
Arguments read {K A} f w.
Arguments emit {K} ev w.

(** ** Scripted collaborators

    A collaborator whose answers are read from scripts held in its state:
    every [AddBlockElement], [Close], [AddFloatElement] and [FormatTable]
    consumes the next scripted answer.  Once a script is exhausted the
    operation succeeds, except [AddFloatElement], which then answers [fits]
    (a float that never fits is [fits = false]).  Handles are allocated
    from a counter; boxes and sizes carry no information. *)

Module Scripted.

Record Script : Type := mkScript {
  next_handle : nat;
  opens : list bool;
  closes : list CloseResult;
  floats : list bool;
  tables : list CloseResult
}.

Definition fresh (s : Script) : nat * Script :=
  (next_handle s,
   mkScript (S (next_handle s)) (opens s) (closes s) (floats s) (tables s)).

Definition add_block_element (s : Script) : option BlockBox * Script :=
  match opens s with
  | false :: rest =>
      (None, mkScript (next_handle s) rest (closes s) (floats s) (tables s))
  | true :: rest =>
      (Some (next_handle s),
       mkScript (S (next_handle s)) rest (closes s) (floats s) (tables s))
  | [] =>
      (Some (next_handle s),
       mkScript (S (next_handle s)) [] (closes s) (floats s) (tables s))
  end.

Definition close (s : Script) : CloseResult * Script :=
  match closes s with
  | r :: rest => (r, mkScript (next_handle s) (opens s) rest (floats s) (tables s))
  | [] => (OK, s)
  end.

Definition add_float_element (fits : bool) (s : Script) : bool * Script :=
  match floats s with
  | b :: rest => (b, mkScript (next_handle s) (opens s) (closes s) rest (tables s))
  | [] => (fits, s)
  end.

Definition format_table (s : Script) : CloseResult * Script :=
  match tables s with
  | r :: rest => (r, mkScript (next_handle s) (opens s) (closes s) (floats s) rest)
  | [] => (OK, s)
  end.

Definition collaborators (fits : bool) : Collaborators :=
  {| State := Script;
     Box := unit;
     Vector2f := unit;
     Heights := unit;
     NewBlockBox := fun _ s => fresh s;
     AddBlockElement := fun _ _ _ _ s => add_block_element s;
     Close := fun _ s => close s;
     CloseAbsoluteElements := fun _ s => s;
     GetVisibleOverflowSize := fun _ _ => tt;
     AddAbsoluteElement := fun _ _ s => s;
     AddFloatElement := fun _ _ s => add_float_element fits s;
     AddInlineElement := fun _ _ _ s => fresh s;
     InlineClose := fun _ s => s;
     AddBreak := fun _ s => s;
     FormatTable := fun _ _ s => format_table s;
     OnLayout := fun _ s => s;
     GetBox := fun _ _ => tt;
     GetContainingBlock := fun _ _ => tt;
     BuildBox := fun _ _ _ => tt;
     BuildBoxIn := fun _ _ _ _ => (tt, tt);
     GetMinMaxHeight := fun _ _ _ => tt |}.

(** The number of scripted answers still to be consumed. *)
Definition remaining (s : Script) : nat :=
  List.length (opens s) + List.length (closes s)
  + List.length (floats s) + List.length (tables s).

Definition idle : Script := mkScript 0 [] [] [] [].

Definition world (fits : bool) (s : Script) (tr : list Event)
  : World (collaborators fits) :=
  mkWorld (s : State (collaborators fits)) tr.

Definition start (fits : bool) (s : Script) : World (collaborators fits) :=
  world fits s [].

End Scripted.

(** ** Sample elements *)

(** The keyword of a display value, as a style sheet declares it. *)
Definition display_keyword (d : Display) : string :=
  match d with
  | DisplayNone => "none"
  | Block => "block"
  | Inline => "inline"
  | InlineBlock => "inline-block"
  | Table => "table"
  | TableRow => "table-row"
  | TableRowGroup => "table-row-group"
  | TableColumn => "table-column"
  | TableColumnGroup => "table-column-group"
  | TableCell => "table-cell"
  end.

Definition styled (tag : string) (d : Display) (p : Position) (f : Float)
  (cs : list Element) : Element :=
  mkElement tag tag (Some (display_keyword d)) (mkComputed d p f) cs.

(** A line break hidden by the style sheet. *)
Definition br_hidden : Element := styled "br" DisplayNone Static FloatNone [].

(** A hidden element that is also absolutely positioned. *)
Definition hidden_absolute : Element := styled "div" DisplayNone Absolute FloatNone [].

(** An absolutely positioned element that also floats. *)
Definition absolute_float : Element := styled "div" Block Absolute Left [].

(** A floated element without children, and a document holding only it. *)
Definition float_left : Element := styled "span" Inline Static Left [].
Definition doc_one_float : Element := styled "body" Block Static FloatNone [float_left].

(** A floated table cell outside any table. *)
Definition floated_cell : Element := styled "td" TableCell Static Left [].

(** A table cell outside any table, in normal flow. *)
Definition stray_cell : Element := styled "td" TableCell Static FloatNone [].

Definition paragraph : Element := styled "p" Block Static FloatNone [].
Definition doc_two_blocks : Element :=
  styled "body" Block Static FloatNone [paragraph; paragraph].

(** A hidden block with content. *)
Definition hidden_div : Element := styled "div" DisplayNone Static FloatNone [paragraph].

(** An absolutely positioned block with content, and a document holding it. *)
Definition absolute_div : Element := styled "div" Block Absolute FloatNone [paragraph].
Definition doc_with_absolute : Element :=
  styled "body" Block Static FloatNone [paragraph; absolute_div].

(** A block with one block child. *)
Definition section_one_block : Element := styled "section" Block Static FloatNone [paragraph].

(** An inline element with three children. *)
Definition span_three : Element :=
  styled "span" Inline Static FloatNone [stray_cell; paragraph; paragraph].

Definition table_element : Element := styled "table" Table Static FloatNone [].

Definition inline_block : Element := styled "button" InlineBlock Static FloatNone [paragraph].

(** ** Properties of the dispatcher *)

Section Properties.

Variable K : Collaborators.

#[local] Abbreviation World := (World K).
#[local] Abbreviation M := (M K).

(** *** Unfolding the loops *)

Lemma format_children_nil (k : nat) (F : Element -> M bool) (all : list Element) :
  format_children K k F all [] = ret tt.
Proof. destruct k; reflexivity. Qed.

Lemma format_children_cons (k : nat) (F : Element -> M bool) (all : list Element)
  (c : Element) (rest : list Element) :
  format_children K k F all (c :: rest) =
  bind (F c) (fun ok =>
    if ok then format_children K k F all rest
    else match k with
         | 0 => out_of_fuel K
         | S k' => format_children K k' F all all
         end).
Proof. destruct k; reflexivity. Qed.

Lemma tag_is_not_br (e : Element) (b : BlockBox) (w : World) :
  GetTagName e <> "br" -> FormatElementSpecial K b e w = Done false w.
Proof.
  intros Htag. unfold FormatElementSpecial.
  destruct (String.eqb_spec (GetTagName e) "br") as [Heq | _]; [contradiction | reflexivity].
Qed.

Lemma FormatElement_unfold (n : nat) (b : BlockBox) (e : Element) :
  FormatElement K (S n) b e = FormatElement_body K n (FormatElement K n) b e.
Proof. reflexivity. Qed.

(** What the dispatcher does once the special elements are out of the way. *)
Lemma FormatElement_not_special (n : nat) (b : BlockBox) (e : Element) (w : World) :
  GetTagName e <> "br" ->
  FormatElement K (S n) b e w =
  match display (GetComputedValues e) with
  | DisplayNone => Done true w
  | _ =>
      if is_absolute_or_fixed (position (GetComputedValues e)) then
        Done true (mkWorld (AddAbsoluteElement K b e (st w))
                           (trace w ++ [EvAddAbsoluteElement b e]))
      else if is_floating (float_ (GetComputedValues e)) then
        bind (FormatElement_root K n e (GetContainingBlock K b (st w)) None false)
             (fun _ => call (EvAddFloatElement b e) (AddFloatElement K b e)) w
      else
        match display (GetComputedValues e) with
        | Block => FormatElementBlock K n b e w
        | Inline => FormatElementInline K n b e w
        | InlineBlock => FormatElementInlineBlock K n b e w
        | Table => FormatElementTable K b e w
        | DisplayNone => Done true w
        | _ => Done true (mkWorld (st w) (trace w ++ [EvLogWarning (table_warning e)]))
        end
  end.
Proof.
  intros Htag. rewrite FormatElement_unfold. unfold FormatElement_body.
  unfold bind at 1. rewrite (tag_is_not_br e b w Htag).
  destruct (display (GetComputedValues e)); try reflexivity;
    destruct (is_absolute_or_fixed (position (GetComputedValues e))); try reflexivity;
    destruct (is_floating (float_ (GetComputedValues e))); reflexivity.
Qed.

(** *** The monad *)

Lemma call_eq {A : Type} (ev : A -> Event) (op : State K -> A * State K) (w : World) :
  call ev op w =
  Done (fst (op (st w))) (mkWorld (snd (op (st w))) (trace w ++ [ev (fst (op (st w)))])).
Proof. unfold call. destruct (op (st w)); reflexivity. Qed.

Lemma bind_Done {A B : Type} (m : M A) (f : A -> M B) (w : World) (b : B) (w' : World) :
  bind m f w = Done b w' ->
  exists a w1, m w = Done a w1 /\ f a w1 = Done b w'.
Proof.
  unfold bind. destruct (m w) as [a w1 | |]; try discriminate.
  intros H. exists a, w1. split; [reflexivity | exact H].
Qed.

Lemma bind_of_Done {A B : Type} (m : M A) (f : A -> M B) (w : World) (a : A) (w1 : World) :
  m w = Done a w1 -> bind m f w = f a w1.
Proof. intros H. unfold bind. rewrite H. reflexivity. Qed.

(** [safe m w Q]: from [w] the computation [m] does not run out of fuel,
    and when it returns, [Q] holds of the result and the final world. *)
Definition safe {A : Type} (m : M A) (w : World) (Q : A -> World -> Prop) : Prop :=
  match m w with
  | Done a w' => Q a w'
  | OutOfFuel => False
  | NullDeref => True
  end.

Lemma safe_ret {A : Type} (a : A) (w : World) (Q : A -> World -> Prop) :
  Q a w -> safe (ret a) w Q.
Proof. intros H; exact H. Qed.

Lemma safe_bind {A B : Type} (m : M A) (f : A -> M B) (w : World)
  (Q : B -> World -> Prop) :
  safe m w (fun a w1 => safe (f a) w1 Q) -> safe (bind m f) w Q.
Proof. unfold safe, bind. destruct (m w); auto. Qed.

Lemma safe_mono {A : Type} (m : M A) (w : World) (Q Q' : A -> World -> Prop) :
  safe m w Q -> (forall a w', Q a w' -> Q' a w') -> safe m w Q'.
Proof. unfold safe. destruct (m w); auto. Qed.

Lemma safe_call {A : Type} (ev : A -> Event) (op : State K -> A * State K)
  (w : World) (Q : A -> World -> Prop) :
  Q (fst (op (st w))) (mkWorld (snd (op (st w))) (trace w ++ [ev (fst (op (st w)))])) ->
  safe (call ev op) w Q.
Proof. intros H. unfold safe. rewrite call_eq. exact H. Qed.

Lemma safe_not_out_of_fuel {A : Type} (m : M A) (w : World) (Q : A -> World -> Prop) :
  safe m w Q -> m w <> OutOfFuel.
Proof. unfold safe. destruct (m w); congruence. Qed.

Lemma safe_Done {A : Type} (m : M A) (w : World) (Q : A -> World -> Prop)
  (a : A) (w' : World) :
  safe m w Q -> m w = Done a w' -> Q a w'.
Proof. unfold safe. intros H E. rewrite E in H. exact H. Qed.

Lemma height_child (e c : Element) : In c (children e) -> height c < height e.
Proof.
  destruct e as [t a d cv cs]; simpl. intros Hin.
  induction cs as [| c' cs IH]; simpl in *; [contradiction |].
  destruct Hin as [-> | Hin]; [lia | specialize (IH Hin); lia].
Qed.

Lemma height_pos (e : Element) : 1 <= height e.
Proof. destruct e; simpl; lia. Qed.

(** *** Termination under a failure budget

    [FailureBudget budget]: no operation of the collaborators raises
    [budget], and every answer that makes the dispatcher report failure (a
    null [AddBlockElement], a false [AddFloatElement], a [Close] other than
    [OK], a [FormatTable] answering [LAYOUT_PARENT]) lowers it. *)

Record FailureBudget (budget : State K -> nat) : Prop := {
  fb_new : forall cb s, budget (snd (NewBlockBox K cb s)) <= budget s;
  fb_open : forall b e bx h s, budget (snd (AddBlockElement K b e bx h s)) <= budget s;
  fb_open_null : forall b e bx h s,
    fst (AddBlockElement K b e bx h s) = None ->
    budget (snd (AddBlockElement K b e bx h s)) < budget s;
  fb_close : forall b s, budget (snd (Close K b s)) <= budget s;
  fb_close_retry : forall b s,
    fst (Close K b s) <> OK -> budget (snd (Close K b s)) < budget s;
  fb_close_absolute : forall b s, budget (CloseAbsoluteElements K b s) <= budget s;
  fb_absolute : forall b e s, budget (AddAbsoluteElement K b e s) <= budget s;
  fb_float : forall b e s, budget (snd (AddFloatElement K b e s)) <= budget s;
  fb_float_fail : forall b e s,
    fst (AddFloatElement K b e s) = false ->
    budget (snd (AddFloatElement K b e s)) < budget s;
  fb_inline : forall b e bx s, budget (snd (AddInlineElement K b e bx s)) <= budget s;
  fb_inline_close : forall i s, budget (InlineClose K i s) <= budget s;
  fb_break : forall b s, budget (AddBreak K b s) <= budget s;
  fb_table : forall b e s, budget (snd (FormatTable K b e s)) <= budget s;
  fb_table_parent : forall b e s,
    fst (FormatTable K b e s) = LAYOUT_PARENT ->
    budget (snd (FormatTable K b e s)) < budget s;
  fb_on_layout : forall e s, budget (OnLayout K e s) <= budget s
}.

Section Termination.

Variable budget : State K -> nat.
Hypothesis HB : FailureBudget budget.

(** The budget does not grow. *)
Definition keeps {A : Type} (w : World) : A -> World -> Prop :=
  fun _ w' => budget (st w') <= budget (st w).

(** The budget does not grow, and a failure is paid for. *)
Definition pays (w : World) : bool -> World -> Prop :=
  fun ok w' =>
    budget (st w') <= budget (st w) /\
    (ok = false -> budget (st w') < budget (st w)).

(** [F] terminates on the elements of [cs] from every world within
    budget [B], and pays for its failures. *)
Definition frugal (F : Element -> M bool) (cs : list Element) (B : nat) : Prop :=
  forall c, In c cs -> forall w, budget (st w) <= B -> safe (F c) w (pays w).

Lemma format_children_safe (F : Element -> M bool) (all : list Element) (B : nat) :
  frugal F all B ->
  forall k w rest,
    incl rest all -> budget (st w) <= k -> budget (st w) <= B ->
    safe (format_children K k F all rest) w (keeps w).
Proof.
  intros HF. induction k as [| k IHk]; intros w rest;
    revert w; induction rest as [| c rest IHrest]; intros w Hincl Hk HBw.
  - rewrite format_children_nil. apply safe_ret. unfold keeps. lia.
  - rewrite format_children_cons. apply safe_bind.
    eapply safe_mono; [apply (HF c); [apply Hincl; left; reflexivity | exact HBw] |].
    intros ok w1 [Hle Hlt]. destruct ok.
    + eapply safe_mono; [apply IHrest; [intros x Hx; apply Hincl; right; exact Hx | lia | lia] |].
      unfold keeps. intros _ w2 H2. lia.
    + specialize (Hlt eq_refl). lia.
  - rewrite format_children_nil. apply safe_ret. unfold keeps. lia.
  - rewrite format_children_cons. apply safe_bind.
    eapply safe_mono; [apply (HF c); [apply Hincl; left; reflexivity | exact HBw] |].
    intros ok w1 [Hle Hlt]. destruct ok.
    + eapply safe_mono; [apply IHrest; [intros x Hx; apply Hincl; right; exact Hx | lia | lia] |].
      unfold keeps. intros _ w2 H2. lia.
    + specialize (Hlt eq_refl).
      eapply safe_mono; [apply (IHk w1 all); [apply incl_refl | lia | lia] |].
      unfold keeps. intros _ w2 H2. lia.
Qed.

Lemma format_children_once_safe (F : Element -> M bool) (all : list Element) (B : nat) :
  frugal F all B ->
  forall cs w,
    incl cs all -> budget (st w) <= B ->
    safe (format_children_once K F cs) w (keeps w).
Proof.
  intros HF. induction cs as [| c cs IH]; intros w Hincl HBw; simpl.
  - apply safe_ret. unfold keeps. lia.
  - apply safe_bind.
    eapply safe_mono; [apply (HF c); [apply Hincl; left; reflexivity | exact HBw] |].
    intros ok w1 [Hle _].
    eapply safe_mono; [apply IH; [intros x Hx; apply Hincl; right; exact Hx | lia] |].
    unfold keeps. intros _ w2 H2. lia.
Qed.

Lemma format_children_strict_safe (F : Element -> M bool) (all : list Element) (B : nat)
  (tail : M bool) :
  frugal F all B ->
  (forall w, budget (st w) <= B -> safe tail w (pays w)) ->
  forall cs w,
    incl cs all -> budget (st w) <= B ->
    safe (format_children_strict K F cs tail) w (pays w).
Proof.
  intros HF Htail. induction cs as [| c cs IH]; intros w Hincl HBw; simpl.
  - apply Htail. exact HBw.
  - apply safe_bind.
    eapply safe_mono; [apply (HF c); [apply Hincl; left; reflexivity | exact HBw] |].
    intros ok w1 [Hle Hlt]. destruct ok.
    + eapply safe_mono; [apply IH; [intros x Hx; apply Hincl; right; exact Hx | lia] |].
      unfold pays. intros ok2 w2 [H2 H2']. split; [lia |].
      intros E. specialize (H2' E). lia.
    + apply safe_ret. split; [lia | intros _; auto].
Qed.

Lemma layout_iterations_safe (pass : M unit) (close : M CloseResult) (B : nat) :
  (forall w, budget (st w) <= B -> safe pass w (keeps w)) ->
  (forall w, budget (st w) <= B -> safe close w (keeps w)) ->
  forall i w, budget (st w) <= B ->
    safe (layout_iterations K i pass close) w (keeps w).
Proof.
  intros Hpass Hclose. induction i as [| i IH]; intros w HBw; simpl.
  - apply safe_ret. unfold keeps. lia.
  - apply safe_bind.
    eapply safe_mono; [apply Hpass; exact HBw |]. unfold keeps at 1. intros _ w1 H1.
    apply safe_bind.
    eapply safe_mono; [apply Hclose; lia |]. unfold keeps at 1. intros r w2 H2.
    destruct (is_OK r).
    + apply safe_ret. unfold keeps. lia.
    + eapply safe_mono; [apply IH; lia |]. unfold keeps. intros _ w3 H3. lia.
Qed.

Lemma table_attempts_safe (format_table : M CloseResult) :
  (forall w, safe format_table w
     (fun r w' => budget (st w') <= budget (st w) /\
                  (r = LAYOUT_PARENT -> budget (st w') < budget (st w)))) ->
  forall i w, safe (table_attempts K i format_table) w (pays w).
Proof.
  intros Hfmt. induction i as [| i IH]; intros w; simpl.
  - apply safe_ret. split; [lia | discriminate].
  - apply safe_bind. eapply safe_mono; [apply Hfmt |].
    intros r w1 [Hle Hlt]. destruct r.
    + apply safe_ret. split; [lia | discriminate].
    + eapply safe_mono; [apply IH |].
      unfold pays. intros ok w2 [H2 H2']. split; [lia |].
      intros E. specialize (H2' E). lia.
    + apply safe_ret. split; [lia |]. intros _. apply Hlt. reflexivity.
Qed.

Lemma safe_call_ (ev : Event) (op : State K -> State K) (w : World)
  (Q : unit -> World -> Prop) :
  Q tt (mkWorld (op (st w)) (trace w ++ [ev])) -> safe (call_ ev op) w Q.
Proof. intros H; exact H. Qed.

Lemma safe_read {A : Type} (f : State K -> A) (w : World) (Q : A -> World -> Prop) :
  Q (f (st w)) w -> safe (read f) w Q.
Proof. intros H; exact H. Qed.

Lemma safe_emit (ev : Event) (w : World) (Q : unit -> World -> Prop) :
  Q tt (mkWorld (st w) (trace w ++ [ev])) -> safe (emit ev) w Q.
Proof. intros H; exact H. Qed.

(** One more step of a [safe] derivation: run [m], whose guarantee is
    given by the tactic [t], and continue with the named result. *)
Ltac after_step t a w' H :=
  apply safe_bind; eapply safe_mono; [t | intros a w' H].

Lemma FormatElement_root_body_safe (k : nat) (F : BlockBox -> Element -> M bool)
  (e : Element) (cb : Vector2f K) (ob : option (Box K)) (wo : bool) (w : World) :
  (forall b, frugal (F b) (children e) (budget (st w))) ->
  budget (st w) <= k ->
  safe (FormatElement_root_body K k F e cb ob wo) w (keeps w).
Proof.
  intros HF Hk. unfold FormatElement_root_body.
  apply safe_bind, safe_call.
  pose proof (fb_new _ HB cb (st w)) as H0.
  apply safe_bind, safe_call. cbn [st trace].
  match goal with
  | |- context [AddBlockElement K ?b ?e' ?bx ?h ?s] =>
      pose proof (fb_open _ HB b e' bx h s) as H1;
      destruct (AddBlockElement K b e' bx h s) as [[nb |] s1]
  end; cbn [fst snd] in *; [| exact I].
  after_step
    ltac:(apply layout_iterations_safe with (B := budget (st w)); cbn [st];
          [ intros w' Hw'; apply format_children_safe with (B := budget (st w));
            [apply HF | apply incl_refl | lia | lia]
          | intros w' Hw'; apply safe_call; unfold keeps; cbn [st]; apply (fb_close _ HB)
          | lia ]) u w2 H2.
  unfold keeps in H2; cbn [st] in H2.
  apply safe_bind, safe_call_.
  pose proof (fb_close_absolute _ HB nb (st w2)) as H3.
  pose proof (fb_on_layout _ HB e (CloseAbsoluteElements K nb (st w2))) as H4.
  destruct wo; apply safe_bind.
  - apply safe_bind, safe_read, safe_ret, safe_bind, safe_call_, safe_ret.
    unfold keeps; cbn [st]. lia.
  - apply safe_ret, safe_bind, safe_call_, safe_ret.
    unfold keeps; cbn [st]. lia.
Qed.

Lemma FormatElementSpecial_safe (b : BlockBox) (e : Element) (w : World) :
  safe (FormatElementSpecial K b e) w (keeps w).
Proof.
  unfold FormatElementSpecial. destruct (String.eqb (GetTagName e) "br").
  - apply safe_bind, safe_call_, safe_bind, safe_call_, safe_ret.
    unfold keeps; cbn [st].
    pose proof (fb_break _ HB b (st w)).
    pose proof (fb_on_layout _ HB e (AddBreak K b (st w))). lia.
  - apply safe_ret. unfold keeps. lia.
Qed.

Lemma FormatElementBlock_body_safe (k : nat) (F : BlockBox -> Element -> M bool)
  (b : BlockBox) (e : Element) (w : World) :
  (forall b', frugal (F b') (children e) (budget (st w))) ->
  budget (st w) <= k ->
  safe (FormatElementBlock_body K k F b e) w (pays w).
Proof.
  intros HF Hk. unfold FormatElementBlock_body.
  apply safe_bind, safe_read, safe_bind, safe_call. cbn [st trace].
  match goal with
  | |- context [AddBlockElement K ?b0 ?e' ?bx ?h ?s] =>
      pose proof (fb_open _ HB b0 e' bx h s) as H1;
      pose proof (fb_open_null _ HB b0 e' bx h s) as H1';
      destruct (AddBlockElement K b0 e' bx h s) as [[nb |] s1]
  end; cbn [fst snd] in *.
  2: { apply safe_ret. split; cbn [st]; [lia | intros _; apply H1'; reflexivity]. }
  clear H1'.
  after_step
    ltac:(apply format_children_safe with (B := budget (st w));
          [apply HF | apply incl_refl | cbn [st]; lia | cbn [st]; lia]) u w2 H2.
  unfold keeps in H2; cbn [st] in H2.
  apply safe_bind, safe_call. cbn [st trace].
  pose proof (fb_close _ HB nb (st w2)) as H3.
  pose proof (fb_close_retry _ HB nb (st w2)) as H3'.
  destruct (Close K nb (st w2)) as [r s3]; cbn [fst snd] in *.
  pose proof (fb_on_layout _ HB e s3) as H4.
  destruct r.
  - apply safe_bind, safe_call_, safe_ret. split; cbn [st]; [lia | discriminate].
  - assert (Hs3 : budget s3 < budget (st w2)) by (apply H3'; discriminate).
    after_step
      ltac:(apply format_children_once_safe with (all := children e) (B := budget (st w));
            [apply HF | apply incl_refl | cbn [st]; lia]) u' w4 H5.
    unfold keeps in H5; cbn [st] in H5.
    apply safe_bind, safe_call. cbn [st trace].
    pose proof (fb_close _ HB nb (st w4)) as H6.
    destruct (Close K nb (st w4)) as [r2 s5]; cbn [fst snd] in *.
    pose proof (fb_on_layout _ HB e s5) as H7.
    destruct (is_OK r2).
    + apply safe_bind, safe_call_, safe_ret. split; cbn [st]; [lia | discriminate].
    + apply safe_ret. split; cbn [st]; [lia | intros _; lia].
  - assert (Hs3 : budget s3 < budget (st w2)) by (apply H3'; discriminate).
    apply safe_ret. split; cbn [st]; [lia | intros _; lia].
Qed.

Lemma FormatElementInline_body_safe (F : BlockBox -> Element -> M bool)
  (b : BlockBox) (e : Element) (w : World) :
  (forall b', frugal (F b') (children e) (budget (st w))) ->
  safe (FormatElementInline_body K F b e) w (pays w).
Proof.
  intros HF. unfold FormatElementInline_body.
  apply safe_bind, safe_read, safe_bind, safe_call. cbn [st trace].
  match goal with
  | |- context [AddInlineElement K ?b0 ?e' ?bx ?s] =>
      pose proof (fb_inline _ HB b0 e' bx s) as H1;
      destruct (AddInlineElement K b0 e' bx s) as [ib s1]
  end; cbn [fst snd] in *.
  eapply safe_mono.
  - apply format_children_strict_safe with (all := children e) (B := budget (st w));
      [apply HF | | apply incl_refl | cbn [st]; lia].
    intros w' Hw'. apply safe_bind, safe_call_, safe_ret.
    pose proof (fb_inline_close _ HB ib (st w')).
    split; cbn [st]; [lia | discriminate].
  - unfold pays; cbn [st]. intros ok w2 [H2 H2']. split; [lia |].
    intros E. specialize (H2' E). lia.
Qed.

Lemma FormatElementInlineBlock_body_safe (k : nat) (F : BlockBox -> Element -> M bool)
  (b : BlockBox) (e : Element) (w : World) :
  (forall b', frugal (F b') (children e) (budget (st w))) ->
  budget (st w) <= k ->
  safe (FormatElementInlineBlock_body K k F b e) w (pays w).
Proof.
  intros HF Hk. unfold FormatElementInlineBlock_body.
  apply safe_bind, safe_read.
  after_step ltac:(apply FormatElement_root_body_safe; [exact HF | exact Hk]) u w1 H1.
  unfold keeps in H1.
  apply safe_bind, safe_read, safe_bind, safe_call. cbn [st trace].
  match goal with
  | |- context [AddInlineElement K ?b0 ?e' ?bx ?s] =>
      pose proof (fb_inline _ HB b0 e' bx s) as H2;
      destruct (AddInlineElement K b0 e' bx s) as [ib s2]
  end; cbn [fst snd] in *.
  apply safe_bind, safe_call_, safe_ret.
  pose proof (fb_inline_close _ HB ib s2).
  split; cbn [st]; [lia | discriminate].
Qed.

Lemma FormatElementTable_safe (b : BlockBox) (e : Element) (w : World) :
  safe (FormatElementTable K b e) w (pays w).
Proof.
  unfold FormatElementTable.
  apply safe_bind, safe_read, safe_bind, safe_call. cbn [st trace].
  match goal with
  | |- context [AddBlockElement K ?b0 ?e' ?bx ?h ?s] =>
      pose proof (fb_open _ HB b0 e' bx h s) as H1;
      pose proof (fb_open_null _ HB b0 e' bx h s) as H1';
      destruct (AddBlockElement K b0 e' bx h s) as [[tb |] s1]
  end; cbn [fst snd] in *.
  2: { apply safe_ret. split; cbn [st]; [lia | intros _; apply H1'; reflexivity]. }
  eapply safe_mono.
  - apply table_attempts_safe. intros w'. apply safe_call. cbn [st].
    split; [apply (fb_table _ HB) | apply (fb_table_parent _ HB)].
  - unfold pays; cbn [st]. intros ok w2 [H2 H2']. split; [lia |].
    intros E. specialize (H2' E). lia.
Qed.

Lemma FormatElement_body_safe (k : nat) (F : BlockBox -> Element -> M bool)
  (b : BlockBox) (e : Element) (w : World) :
  (forall b', frugal (F b') (children e) (budget (st w))) ->
  budget (st w) <= k ->
  safe (FormatElement_body K k F b e) w (pays w).
Proof.
  intros HF Hk. unfold FormatElement_body.
  after_step ltac:(apply FormatElementSpecial_safe) special w1 H1.
  unfold keeps in H1.
  assert (HF1 : forall b', frugal (F b') (children e) (budget (st w1))).
  { intros b' c Hc w' Hw'. apply (HF b' c Hc). lia. }
  assert (Hgrow : forall ok w', pays w1 ok w' -> pays w ok w').
  { unfold pays. intros ok w' [H2 H2']. split; [lia |].
    intros E. specialize (H2' E). lia. }
  destruct special; [apply safe_ret; split; [lia | discriminate] |].
  assert (Hskip : safe (ret (K := K) true) w1 (pays w))
    by (apply safe_ret; split; [lia | discriminate]).
  assert (Hrest :
    safe (if is_absolute_or_fixed (position (GetComputedValues e)) then
            bind (call_ (EvAddAbsoluteElement b e) (AddAbsoluteElement K b e))
                 (fun _ => ret true)
          else if is_floating (float_ (GetComputedValues e)) then
            bind (read (GetContainingBlock K b)) (fun containing_block =>
            bind (FormatElement_root_body K k F e containing_block None false) (fun _ =>
            call (EvAddFloatElement b e) (AddFloatElement K b e)))
          else
            match display (GetComputedValues e) with
            | Block => FormatElementBlock_body K k F b e
            | Inline => FormatElementInline_body K F b e
            | InlineBlock => FormatElementInlineBlock_body K k F b e
            | Table => FormatElementTable K b e
            | DisplayNone => ret true
            | _ => bind (emit (EvLogWarning (table_warning e))) (fun _ => ret true)
            end) w1 (pays w)).
  { destruct (is_absolute_or_fixed (position (GetComputedValues e))).
    - apply safe_bind, safe_call_, safe_ret.
      pose proof (fb_absolute _ HB b e (st w1)).
      split; cbn [st]; [lia | discriminate].
    - destruct (is_floating (float_ (GetComputedValues e))).
      + apply safe_bind, safe_read.
        after_step ltac:(apply FormatElement_root_body_safe; [exact HF1 | lia]) u w2 H2.
        unfold keeps in H2. apply safe_call.
        pose proof (fb_float _ HB b e (st w2)).
        pose proof (fb_float_fail _ HB b e (st w2)) as Hfail.
        split; cbn [st]; [lia |]. intros E. specialize (Hfail E). lia.
      + assert (Hwarn : safe (bind (emit (EvLogWarning (table_warning e)))
                                   (fun _ => ret (K := K) true)) w1 (pays w)).
        { apply safe_bind, safe_emit, safe_ret. split; cbn [st]; [lia | discriminate]. }
        destruct (display (GetComputedValues e)); try exact Hskip; try exact Hwarn.
        * eapply safe_mono; [apply FormatElementBlock_body_safe; [exact HF1 | lia] | exact Hgrow].
        * eapply safe_mono; [apply FormatElementInline_body_safe; exact HF1 | exact Hgrow].
        * eapply safe_mono; [apply FormatElementInlineBlock_body_safe; [exact HF1 | lia] | exact Hgrow].
        * eapply safe_mono; [apply FormatElementTable_safe | exact Hgrow]. }
  destruct (display (GetComputedValues e)); try exact Hskip; exact Hrest.
Qed.

(** Fuel [height e + budget] is enough for the dispatcher. *)
Lemma FormatElement_safe (n : nat) :
  forall (b : BlockBox) (e : Element) (w : World),
    height e + budget (st w) <= n ->
    safe (FormatElement K n b e) w (pays w).
Proof.
  induction n as [| n IH]; intros b e w Hn.
  - pose proof (height_pos e). lia.
  - rewrite FormatElement_unfold. pose proof (height_pos e).
    apply FormatElement_body_safe; [| lia].
    intros b' c Hc w' Hw'. apply IH.
    pose proof (height_child e c Hc). lia.
Qed.

Lemma FormatElement_root_safe (n : nat) (e : Element) (cb : Vector2f K)
  (ob : option (Box K)) (wo : bool) (w : World) :
  height e + budget (st w) <= n ->
  safe (FormatElement_root K n e cb ob wo) w (keeps w).
Proof.
  intros Hn. pose proof (height_pos e).
  apply FormatElement_root_body_safe; [| lia].
  intros b' c Hc w' Hw'. apply FormatElement_safe.
  pose proof (height_child e c Hc). lia.
Qed.

End Termination.

(** *** The trace only grows *)

Definition extends {A : Type} (m : M A) : Prop :=
  forall w a w', m w = Done a w' -> exists t, trace w' = trace w ++ t.

Lemma extends_ret {A : Type} (a : A) : extends (ret (K := K) a).
Proof.
  intros w a' w' H. inversion H; subst. exists []. symmetry; apply app_nil_r.
Qed.

Lemma extends_bind {A B : Type} (m : M A) (f : A -> M B) :
  extends m -> (forall a, extends (f a)) -> extends (bind m f).
Proof.
  intros Hm Hf w b w' H.
  apply bind_Done in H. destruct H as (a & w1 & H1 & H2).
  destruct (Hm _ _ _ H1) as [t1 E1]. destruct (Hf a _ _ _ H2) as [t2 E2].
  exists (t1 ++ t2). rewrite E2, E1. symmetry; apply app_assoc.
Qed.

Lemma extends_call {A : Type} (ev : A -> Event) (op : State K -> A * State K) :
  extends (call ev op).
Proof.
  intros w a w' H. rewrite call_eq in H. inversion H; subst.
  eexists. reflexivity.
Qed.

Lemma extends_call_ (ev : Event) (op : State K -> State K) : extends (call_ ev op).
Proof. intros w a w' H. inversion H; subst. eexists. reflexivity. Qed.

Lemma extends_emit (ev : Event) : extends (emit (K := K) ev).
Proof. intros w a w' H. inversion H; subst. eexists. reflexivity. Qed.

Lemma extends_read {A : Type} (f : State K -> A) : extends (read f).
Proof.
  intros w a w' H. inversion H; subst. exists []. symmetry; apply app_nil_r.
Qed.

Lemma extends_out_of_fuel {A : Type} : extends (out_of_fuel K (A := A)).
Proof. intros w a w' H. discriminate. Qed.

Lemma extends_null_deref {A : Type} : extends (null_deref K (A := A)).
Proof. intros w a w' H. discriminate. Qed.

Lemma extends_format_children (F : Element -> M bool) (all : list Element) :
  (forall c, extends (F c)) ->
  forall k rest, extends (format_children K k F all rest).
Proof.
  intros HF. induction k as [| k IHk]; induction rest as [| c rest IHrest].
  - rewrite format_children_nil. apply extends_ret.
  - rewrite format_children_cons. apply extends_bind; [apply HF |].
    intros [|]; [exact IHrest | apply extends_out_of_fuel].
  - rewrite format_children_nil. apply extends_ret.
  - rewrite format_children_cons. apply extends_bind; [apply HF |].
    intros [|]; [exact IHrest | apply IHk].
Qed.

Lemma extends_format_children_once (F : Element -> M bool) :
  (forall c, extends (F c)) -> forall cs, extends (format_children_once K F cs).
Proof.
  intros HF. induction cs as [| c cs IH]; simpl.
  - apply extends_ret.
  - apply extends_bind; [apply HF | intros _; exact IH].
Qed.

Lemma extends_format_children_strict (F : Element -> M bool) (tail : M bool) :
  (forall c, extends (F c)) -> extends tail ->
  forall cs, extends (format_children_strict K F cs tail).
Proof.
  intros HF Ht. induction cs as [| c cs IH]; simpl.
  - exact Ht.
  - apply extends_bind; [apply HF |]. intros [|]; [exact IH | apply extends_ret].
Qed.

Lemma extends_layout_iterations (pass : M unit) (close : M CloseResult) :
  extends pass -> extends close ->
  forall i, extends (layout_iterations K i pass close).
Proof.
  intros Hp Hc. induction i as [| i IH]; simpl.
  - apply extends_ret.
  - apply extends_bind; [exact Hp | intros _].
    apply extends_bind; [exact Hc | intros r].
    destruct (is_OK r); [apply extends_ret | exact IH].
Qed.

Lemma extends_table_attempts (format_table : M CloseResult) :
  extends format_table -> forall i, extends (table_attempts K i format_table).
Proof.
  intros Hf. induction i as [| i IH]; simpl.
  - apply extends_ret.
  - apply extends_bind; [exact Hf |]. intros [| |]; [apply extends_ret | exact IH | apply extends_ret].
Qed.

Create HintDb extends discriminated.
#[local] Hint Resolve extends_ret extends_call extends_call_ extends_emit extends_read
  extends_out_of_fuel extends_null_deref extends_format_children
  extends_format_children_once extends_format_children_strict
  extends_layout_iterations extends_table_attempts : extends.

Ltac extends_step :=
  first
    [ apply extends_bind; [| intro]
    | apply extends_format_children_strict; [solve [auto with extends] |]
    | match goal with
      | |- extends (match ?x with _ => _ end) => destruct x
      | |- extends (let _ := _ in _) => cbv zeta
      end
    | solve [auto with extends] ].

Lemma extends_FormatElement_root_body (k : nat) (F : BlockBox -> Element -> M bool)
  (e : Element) (cb : Vector2f K) (ob : option (Box K)) (wo : bool) :
  (forall b c, extends (F b c)) ->
  extends (FormatElement_root_body K k F e cb ob wo).
Proof. intros HF. unfold FormatElement_root_body. repeat extends_step. Qed.

Lemma extends_FormatElement_body (k : nat) (F : BlockBox -> Element -> M bool)
  (b : BlockBox) (e : Element) :
  (forall b' c, extends (F b' c)) ->
  extends (FormatElement_body K k F b e).
Proof.
  intros HF.
  pose proof (extends_FormatElement_root_body k F e) as Hroot.
  unfold FormatElement_body, FormatElementSpecial, FormatElementBlock_body,
    FormatElementInline_body, FormatElementInlineBlock_body, FormatElementTable.
  repeat extends_step.
Qed.

Lemma extends_FormatElement (n : nat) :
  forall b e, extends (FormatElement K n b e).
Proof.
  induction n as [| n IH]; intros b e.
  - apply extends_out_of_fuel.
  - rewrite FormatElement_unfold. apply extends_FormatElement_body. exact IH.
Qed.

(** *** More fuel never changes an answer

    [approx m m']: wherever [m] does not run out of fuel, [m'] does the
    same as [m]. *)

Definition approx {A : Type} (m m' : M A) : Prop :=
  forall w, m w = OutOfFuel \/ m w = m' w.

Lemma approx_refl {A : Type} (m : M A) : approx m m.
Proof. intros w. right. reflexivity. Qed.

Lemma approx_out_of_fuel {A : Type} (m : M A) : approx (out_of_fuel K) m.
Proof. intros w. left. reflexivity. Qed.

Lemma approx_bind {A B : Type} (m m' : M A) (f f' : A -> M B) :
  approx m m' -> (forall a, approx (f a) (f' a)) -> approx (bind m f) (bind m' f').
Proof.
  intros Hm Hf w. unfold bind.
  destruct (Hm w) as [E | E]; rewrite E; [left; reflexivity |].
  destruct (m' w) as [a w1 | |]; [apply Hf | right; reflexivity | right; reflexivity].
Qed.

Lemma approx_format_children (F F' : Element -> M bool) (all : list Element) :
  (forall c, approx (F c) (F' c)) ->
  forall k k' rest, k <= k' ->
    approx (format_children K k F all rest) (format_children K k' F' all rest).
Proof.
  intros HF. induction k as [| k IHk]; intros k' rest Hk;
    induction rest as [| c rest IHrest];
    rewrite ?format_children_nil, ?format_children_cons; try apply approx_refl.
  - apply approx_bind; [apply HF |].
    intros [|]; [exact IHrest | apply approx_out_of_fuel].
  - apply approx_bind; [apply HF |].
    intros [|]; [exact IHrest |].
    destruct k' as [| k']; [lia |]. apply IHk. lia.
Qed.

Lemma approx_format_children_once (F F' : Element -> M bool) :
  (forall c, approx (F c) (F' c)) ->
  forall cs, approx (format_children_once K F cs) (format_children_once K F' cs).
Proof.
  intros HF. induction cs as [| c cs IH]; simpl.
  - apply approx_refl.
  - apply approx_bind; [apply HF | intros _; exact IH].
Qed.

Lemma approx_format_children_strict (F F' : Element -> M bool) (tail : M bool) :
  (forall c, approx (F c) (F' c)) ->
  forall cs, approx (format_children_strict K F cs tail)
                    (format_children_strict K F' cs tail).
Proof.
  intros HF. induction cs as [| c cs IH]; simpl.
  - apply approx_refl.
  - apply approx_bind; [apply HF |]. intros [|]; [exact IH | apply approx_refl].
Qed.

Lemma approx_layout_iterations (pass pass' : M unit) (close : M CloseResult) :
  approx pass pass' ->
  forall i, approx (layout_iterations K i pass close) (layout_iterations K i pass' close).
Proof.
  intros Hp. induction i as [| i IH]; simpl.
  - apply approx_refl.
  - apply approx_bind; [exact Hp | intros _].
    apply approx_bind; [apply approx_refl | intros r].
    destruct (is_OK r); [apply approx_refl | exact IH].
Qed.

Ltac approx_step :=
  first
    [ apply approx_refl
    | apply approx_bind; [| intro]
    | apply approx_layout_iterations
    | apply approx_format_children; [solve [auto] | assumption]
    | apply approx_format_children_once; solve [auto]
    | apply approx_format_children_strict; solve [auto]
    | match goal with
      | |- approx (match ?x with _ => _ end) (match ?x with _ => _ end) => destruct x
      | |- approx (let _ := _ in _) _ => cbv zeta
      end ].

Lemma approx_FormatElement_root_body (k k' : nat) (F F' : BlockBox -> Element -> M bool)
  (e : Element) (cb : Vector2f K) (ob : option (Box K)) (wo : bool) :
  k <= k' ->
  (forall b c, approx (F b c) (F' b c)) ->
  approx (FormatElement_root_body K k F e cb ob wo)
         (FormatElement_root_body K k' F' e cb ob wo).
Proof. intros Hk HF. unfold FormatElement_root_body. repeat approx_step. Qed.

Lemma approx_FormatElement_body (k k' : nat) (F F' : BlockBox -> Element -> M bool)
  (b : BlockBox) (e : Element) :
  k <= k' ->
  (forall b' c, approx (F b' c) (F' b' c)) ->
  approx (FormatElement_body K k F b e) (FormatElement_body K k' F' b e).
Proof.
  intros Hk HF.
  pose proof (approx_FormatElement_root_body k k' F F' e) as Hroot.
  unfold FormatElement_body, FormatElementBlock_body, FormatElementInline_body,
    FormatElementInlineBlock_body.
  repeat first [approx_step | apply Hroot; assumption].
Qed.

Lemma approx_FormatElement (n : nat) :
  forall m b e, n <= m -> approx (FormatElement K n b e) (FormatElement K m b e).
Proof.
  induction n as [| n IH]; intros m b e Hnm.
  - apply approx_out_of_fuel.
  - destruct m as [| m]; [lia |]. rewrite !FormatElement_unfold.
    apply approx_FormatElement_body; [lia |].
    intros b' c. apply IH. lia.
Qed.

(** An answer obtained with some fuel is the answer with any larger fuel. *)
Lemma FormatElement_more_fuel (n m : nat) (b : BlockBox) (e : Element) (w : World) :
  n <= m ->
  FormatElement K n b e w <> OutOfFuel ->
  FormatElement K m b e w = FormatElement K n b e w.
Proof.
  intros Hnm Hn. destruct (approx_FormatElement n m b e Hnm w) as [E | E];
    [contradiction | symmetry; exact E].
Qed.

Lemma FormatElement_root_more_fuel (n m : nat) (e : Element) (cb : Vector2f K)
  (ob : option (Box K)) (wo : bool) (w : World) :
  n <= m ->
  FormatElement_root K n e cb ob wo w <> OutOfFuel ->
  FormatElement_root K m e cb ob wo w = FormatElement_root K n e cb ob wo w.
Proof.
  intros Hnm Hn.
  assert (H : approx (FormatElement_root K n e cb ob wo) (FormatElement_root K m e cb ob wo)).
  { apply approx_FormatElement_root_body; [exact Hnm |].
    intros b c. apply approx_FormatElement. exact Hnm. }
  destruct (H w) as [E | E]; [contradiction | symmetry; exact E].
Qed.

(** *** Runs of the loops, as relations *)

(** [retry_passes pass close p w r w']: from [w], [p] passes were run, each
    followed by [close]; every [close] but the last asked for another
    pass, the last one answered [r] and left [w']. *)
Inductive retry_passes (pass : M unit) (close : M CloseResult)
  : nat -> World -> CloseResult -> World -> Prop :=
| retry_first (w w1 : World) (r : CloseResult) (w2 : World) :
    pass w = Done tt w1 ->
    close w1 = Done r w2 ->
    retry_passes pass close 1 w r w2
| retry_again (p : nat) (w : World) (r : CloseResult) (w2 w3 : World)
    (r' : CloseResult) (w4 : World) :
    retry_passes pass close p w r w2 ->
    r <> OK ->
    pass w2 = Done tt w3 ->
    close w3 = Done r' w4 ->
    retry_passes pass close (S p) w r' w4.

(** [each_once F cs w w']: [F] was run on every element of [cs], once and
    in order, whatever it answered. *)
Inductive each_once (F : Element -> M bool) : list Element -> World -> World -> Prop :=
| each_once_nil (w : World) : each_once F [] w w
| each_once_cons (c : Element) (cs : list Element) (w : World) (ok : bool)
    (w1 w2 : World) :
    F c w = Done ok w1 ->
    each_once F cs w1 w2 ->
    each_once F (c :: cs) w w2.

(** [until_failure F cs w ok w']: [F] was run on the elements of [cs] in
    order, up to and including the first one that answered [false];
    [ok] tells whether all of them succeeded, [w'] is the world left by
    the last element visited. *)
Inductive until_failure (F : Element -> M bool)
  : list Element -> World -> bool -> World -> Prop :=
| until_failure_nil (w : World) : until_failure F [] w true w
| until_failure_ok (c : Element) (cs : list Element) (w w1 : World) (ok : bool)
    (w2 : World) :
    F c w = Done true w1 ->
    until_failure F cs w1 ok w2 ->
    until_failure F (c :: cs) w ok w2
| until_failure_stop (c : Element) (cs : list Element) (w w1 : World) :
    F c w = Done false w1 ->
    until_failure F (c :: cs) w false w1.

Lemma each_once_run (F : Element -> M bool) (cs : list Element) (w w' : World) :
  each_once F cs w w' -> format_children_once K F cs w = Done tt w'.
Proof.
  induction 1 as [w | c cs w ok w1 w2 Hc _ IH]; simpl.
  - reflexivity.
  - rewrite (bind_of_Done _ _ _ _ _ Hc). exact IH.
Qed.

Lemma until_failure_run (F : Element -> M bool) (tail : M bool) (cs : list Element)
  (w : World) (ok : bool) (w' : World) :
  until_failure F cs w ok w' ->
  format_children_strict K F cs tail w = if ok then tail w' else Done false w'.
Proof.
  induction 1 as [w | c cs w w1 ok w2 Hc _ IH | c cs w w1 Hc]; simpl.
  - reflexivity.
  - rewrite (bind_of_Done _ _ _ _ _ Hc). exact IH.
  - rewrite (bind_of_Done _ _ _ _ _ Hc). reflexivity.
Qed.

Lemma layout_iterations_two (pass : M unit) (close : M CloseResult) (w wl : World)
  (u : unit) :
  layout_iterations K 2 pass close w = Done u wl ->
  exists p r, retry_passes pass close p w r wl /\ 1 <= p <= 2.
Proof.
  simpl. intros H.
  apply bind_Done in H. destruct H as ([] & w1 & Hp1 & H).
  apply bind_Done in H. destruct H as (r1 & w2 & Hc1 & H).
  destruct r1; simpl in H.
  1: { inversion H; subst. exists 1, OK. split; [econstructor; eassumption | lia]. }
  all: apply bind_Done in H; destruct H as ([] & w3 & Hp2 & H);
    apply bind_Done in H; destruct H as (r2 & w4 & Hc2 & H);
    assert (E : wl = w4) by (destruct (is_OK r2); inversion H; reflexivity);
    subst wl; exists 2, r2; split; [| lia];
    (eapply retry_again; [eapply retry_first; eassumption | discriminate | eassumption | eassumption]).
Qed.

Lemma retry_passes_trace (pass : M unit) (b : BlockBox) (p : nat) (w : World)
  (r : CloseResult) (wl : World) :
  extends pass ->
  retry_passes pass (call (EvClose b) (Close K b)) p w r wl ->
  exists pre, trace wl = trace w ++ pre ++ [EvClose b r].
Proof.
  intros Hext. induction 1 as [w w1 r w2 Hp Hc | p w r w2 w3 r' w4 _ IH _ Hp Hc].
  - destruct (Hext _ _ _ Hp) as [t Et].
    rewrite call_eq in Hc. inversion Hc; subst. cbn [trace].
    exists t. rewrite Et. symmetry; apply app_assoc.
  - destruct IH as [pre Epre]. destruct (Hext _ _ _ Hp) as [t Et].
    rewrite call_eq in Hc. inversion Hc; subst. cbn [trace].
    exists ((pre ++ [EvClose b r]) ++ t). rewrite Et, Epre.
    rewrite <- !app_assoc. reflexivity.
Qed.

(** A pass that returns has, at some point after its start, formatted every
    child with success. *)
Lemma format_children_visits (F : Element -> M bool) (all : list Element) :
  (forall c, extends (F c)) ->
  forall k rest w w',
    incl rest all ->
    format_children K k F all rest w = Done tt w' ->
    forall c, In c rest ->
      exists wa wb t1 t2,
        F c wa = Done true wb /\
        trace wa = trace w ++ t1 /\
        trace w' = trace wb ++ t2.
Proof.
  intros HF.
  assert (Hshift : forall (w w1 w' : World) (c : Element) (t0 : list Event),
    trace w1 = trace w ++ t0 ->
    (exists wa wb t1 t2,
       F c wa = Done true wb /\ trace wa = trace w1 ++ t1 /\ trace w' = trace wb ++ t2) ->
    exists wa wb t1 t2,
      F c wa = Done true wb /\ trace wa = trace w ++ t1 /\ trace w' = trace wb ++ t2).
  { intros w w1 w' c t0 E0 (wa & wb & t1 & t2 & Hc & Ea & Eb).
    exists wa, wb, (t0 ++ t1), t2. split; [exact Hc | split; [| exact Eb]].
    rewrite Ea, E0. symmetry; apply app_assoc. }
  induction k as [| k IHk]; intros rest;
    induction rest as [| c rest IHrest]; intros w w' Hincl Hrun x Hx;
    try contradiction;
    rewrite format_children_cons in Hrun;
    apply bind_Done in Hrun; destruct Hrun as (ok & w1 & Hc & Hrun);
    destruct (HF c _ _ _ Hc) as [t0 E0];
    (destruct ok; [| try discriminate]).
  - destruct Hx as [<- | Hx].
    + destruct (extends_format_children F all HF 0 rest _ _ _ Hrun) as [t2 E2].
      exists w, w1, [], t2. split; [exact Hc | split; [symmetry; apply app_nil_r | exact E2]].
    + apply (Hshift w w1 w' x t0 E0).
      apply (IHrest w1 w'); [intros y Hy; apply Hincl; right; exact Hy | exact Hrun | exact Hx].
  - destruct Hx as [<- | Hx].
    + destruct (extends_format_children F all HF (S k) rest _ _ _ Hrun) as [t2 E2].
      exists w, w1, [], t2. split; [exact Hc | split; [symmetry; apply app_nil_r | exact E2]].
    + apply (Hshift w w1 w' x t0 E0).
      apply (IHrest w1 w'); [intros y Hy; apply Hincl; right; exact Hy | exact Hrun | exact Hx].
  - apply (Hshift w w1 w' x t0 E0).
    apply (IHk all w1 w'); [apply incl_refl | exact Hrun | apply Hincl; exact Hx].
Qed.

(** The last pass of a retry loop, and the [Close] that ended it. *)
Lemma retry_passes_last (pass : M unit) (b : BlockBox) (p : nat) (w : World)
  (r : CloseResult) (wl : World) :
  extends pass ->
  retry_passes pass (call (EvClose b) (Close K b)) p w r wl ->
  exists w2 w3 t,
    pass w2 = Done tt w3 /\
    trace w2 = trace w ++ t /\
    trace wl = trace w3 ++ [EvClose b r].
Proof.
  intros Hext. induction 1 as [w w1 r w2 Hp Hc | p w r w2 w3 r' w4 Hprev _ _ Hp Hc].
  - exists w, w1, []. rewrite call_eq in Hc. injection Hc as <- <-.
    split; [exact Hp | split; [symmetry; apply app_nil_r | reflexivity]].
  - destruct (retry_passes_trace _ _ _ _ _ _ Hext Hprev) as [pre Epre].
    exists w2, w3, (pre ++ [EvClose b r]). rewrite call_eq in Hc. injection Hc as <- <-.
    split; [exact Hp | split; [exact Epre | reflexivity]].
Qed.

(** What a returning run of the root overload looks like. *)
Lemma FormatElement_root_body_Done (k : nat) (F : BlockBox -> Element -> M bool)
  (e : Element) (cb : Vector2f K) (ob : option (Box K)) (wo : bool)
  (w : World) (res : option (Vector2f K)) (w' : World) :
  FormatElement_root_body K k F e cb ob wo w = Done res w' ->
  exists rb bcb w0 p r wl,
    trace w0 = trace w ++ [EvNewBlockBox rb; EvAddBlockElement rb e (Some bcb)] /\
    retry_passes (format_children K k (F bcb) (children e) (children e))
                 (call (EvClose bcb) (Close K bcb)) p w0 r wl /\
    1 <= p <= 2 /\
    w' = mkWorld (OnLayout K e (CloseAbsoluteElements K bcb (st wl)))
                 (trace wl ++ [EvCloseAbsoluteElements bcb; EvOnLayout e]).
Proof.
  unfold FormatElement_root_body. intros H.
  apply bind_Done in H. destruct H as (rb & wa & Hnew & H).
  apply bind_Done in H. destruct H as (opened & w0 & Hopen & H).
  destruct opened as [bcb |]; [| discriminate].
  apply bind_Done in H. destruct H as (u & wl & Hloop & H).
  apply layout_iterations_two in Hloop. destruct Hloop as (p & r & Hpasses & Hp).
  exists rb, bcb, w0, p, r, wl.
  rewrite call_eq in Hnew. injection Hnew as Hrb Hwa.
  rewrite call_eq in Hopen. injection Hopen as Hsome Hw0.
  split; [| split; [exact Hpasses | split; [exact Hp |]]].
  - rewrite <- Hw0. cbn [trace]. rewrite Hsome. rewrite <- Hwa. cbn [trace].
    rewrite Hrb. rewrite <- app_assoc. reflexivity.
  - destruct wo; cbv [bind call_ read ret] in H; injection H as _ Hw';
      rewrite <- Hw'; cbn [st trace]; rewrite <- app_assoc; reflexivity.
Qed.

Lemma bind_read {A B : Type} (f : State K -> A) (g : A -> M B) (w : World) :
  bind (read f) g w = g (f (st w)) w.
Proof. reflexivity. Qed.

Lemma not_absolute_or_fixed (p : Position) :
  p <> Absolute -> p <> Fixed -> is_absolute_or_fixed p = false.
Proof. destruct p; simpl; congruence. Qed.

Lemma absolute_or_fixed (p : Position) :
  p = Absolute \/ p = Fixed -> is_absolute_or_fixed p = true.
Proof. intros [-> | ->]; reflexivity. Qed.

Lemma floating (f : Float) : f <> FloatNone -> is_floating f = true.
Proof. destruct f; simpl; congruence. Qed.

(** *** The claims *)

(** [ran_in_two_passes n e w w']: a run of the root overload on [e] from
    [w] to [w'] opened the root context, went through one or two passes
    over the children, each followed by one [Close] of the root context,
    then closed the absolute elements and notified [e]. *)
Definition ran_in_two_passes (n : nat) (e : Element) (w w' : World) : Prop :=
  exists rb bcb w0 p r wl,
    trace w0 = trace w ++ [EvNewBlockBox rb; EvAddBlockElement rb e (Some bcb)] /\
    retry_passes
      (format_children K n (FormatElement K n bcb) (children e) (children e))
      (call (EvClose bcb) (Close K bcb)) p w0 r wl /\
    1 <= p <= 2 /\
    trace w' = trace wl ++ [EvCloseAbsoluteElements bcb; EvOnLayout e].

(** C2 (amended).  An element whose computed display is none and whose tag
    is not [br] is skipped: [FormatElement] returns true at once and leaves
    the world as it was, so no box is assigned, [OnLayout] is not delivered
    and nothing of its subtree is visited. *)
Theorem display_none_is_skipped (n : nat) (b : BlockBox) (e : Element) (w : World)
  (Htag : GetTagName e <> "br")
  (Hnone : display (GetComputedValues e) = DisplayNone) :
  FormatElement K (S n) b e w = Done true w.
Proof.
  rewrite (FormatElement_not_special n b e w Htag). rewrite Hnone. reflexivity.
Qed.

(** C4.  In [FormatElementBlock], when the first [Close] of the new context
    answers [LAYOUT_SELF], every child is formatted once more, in order and
    whatever it answers, and the context is closed again; if that second
    [Close] answers [OK], [OnLayout] is delivered and the call returns
    true, otherwise it returns false. *)
Theorem block_layout_self_retries_once
  (n : nat) (b : BlockBox) (e : Element) (w : World)
  (nb : BlockBox) (w0 w1 w2 w3 : World) (r2 : CloseResult) (w4 : World)
  (Hopen : call (EvAddBlockElement b e)
             (AddBlockElement K b e (fst (BuildBoxIn K b e false (st w)))
                                    (snd (BuildBoxIn K b e false (st w)))) w
           = Done (Some nb) w0)
  (Hpass : format_children K n (FormatElement K n nb) (children e) (children e) w0
           = Done tt w1)
  (Hself : call (EvClose nb) (Close K nb) w1 = Done LAYOUT_SELF w2)
  (Hretry : each_once (FormatElement K n nb) (children e) w2 w3)
  (Hclose : call (EvClose nb) (Close K nb) w3 = Done r2 w4) :
  FormatElementBlock K n b e w =
    match r2 with
    | OK => Done true (mkWorld (OnLayout K e (st w4)) (trace w4 ++ [EvOnLayout e]))
    | _ => Done false w4
    end.
Proof.
  unfold FormatElementBlock, FormatElementBlock_body.
  rewrite bind_read.
  rewrite (bind_of_Done _ _ _ _ _ Hopen).
  rewrite (bind_of_Done _ _ _ _ _ Hpass).
  rewrite (bind_of_Done _ _ _ _ _ Hself).
  rewrite (bind_of_Done _ _ _ _ _ (each_once_run _ _ _ _ Hretry)).
  rewrite (bind_of_Done _ _ _ _ _ Hclose).
  destruct r2; reflexivity.
Qed.

(** C5.  In [FormatElementInline] the children are formatted in order
    against the parent context; the first child that returns false makes
    the call return false in the world that child left (the inline box is
    not closed and no later child is visited); when every child returns
    true the inline box is closed and the call returns true. *)
Theorem inline_stops_at_first_failure
  (n : nat) (b : BlockBox) (e : Element) (w : World)
  (ib : InlineBox) (w0 : World) (ok : bool) (w1 : World)
  (Hadd : call (EvAddInlineElement b e)
            (AddInlineElement K b e
               (BuildBox K (GetContainingBlock K b (st w)) e true)) w
          = Done ib w0)
  (Hrun : until_failure (FormatElement K n b) (children e) w0 ok w1) :
  FormatElementInline K n b e w =
    if ok
    then Done true (mkWorld (InlineClose K ib (st w1)) (trace w1 ++ [EvInlineClose ib]))
    else Done false w1.
Proof.
  unfold FormatElementInline, FormatElementInline_body.
  rewrite bind_read.
  rewrite (bind_of_Done _ _ _ _ _ Hadd).
  rewrite (until_failure_run _ _ _ _ _ _ Hrun).
  destruct ok; reflexivity.
Qed.

(** C6 (amended).  An element with a float other than none, that is not a
    [br], whose display is not none and whose position is neither
    absolute nor fixed, is first formatted by the root overload against
    the containing block of the current context, with no override box;
    when that run has returned, the element is registered with
    [AddFloatElement], whose answer is the result.  The call returns
    exactly when the root run returns. *)
Theorem float_is_formatted_then_registered
  (n : nat) (b : BlockBox) (e : Element) (w : World)
  (Htag : GetTagName e <> "br")
  (Hshown : display (GetComputedValues e) <> DisplayNone)
  (Hnot_absolute : position (GetComputedValues e) <> Absolute)
  (Hnot_fixed : position (GetComputedValues e) <> Fixed)
  (Hfloat : float_ (GetComputedValues e) <> FloatNone) :
  FormatElement K (S n) b e w =
    match FormatElement_root K n e (GetContainingBlock K b (st w)) None false w with
    | Done _ w1 =>
        Done (fst (AddFloatElement K b e (st w1)))
             (mkWorld (snd (AddFloatElement K b e (st w1)))
                      (trace w1 ++
                       [EvAddFloatElement b e (fst (AddFloatElement K b e (st w1)))]))
    | OutOfFuel => OutOfFuel
    | NullDeref => NullDeref
    end.
Proof.
  rewrite (FormatElement_not_special n b e w Htag).
  rewrite (not_absolute_or_fixed _ Hnot_absolute Hnot_fixed).
  rewrite (floating _ Hfloat).
  assert (E : forall o : Outcome K bool,
    match display (GetComputedValues e) with
    | DisplayNone => Done true w
    | _ => o
    end = o).
  { intros o. destruct (display (GetComputedValues e)); try reflexivity. congruence. }
  rewrite E. unfold bind.
  destruct (FormatElement_root K n e (GetContainingBlock K b (st w)) None false w);
    try reflexivity.
  apply call_eq.
Qed.

(** C7 (amended).  An element whose display is a table-substructure value,
    that is not a [br], is neither absolutely positioned nor fixed and
    does not float, makes [FormatElement] log one warning, built from the
    declared display value and the address of the element, and return
    true; the collaborator state is untouched, so no box is assigned. *)
Theorem stray_table_part_is_logged
  (n : nat) (b : BlockBox) (e : Element) (w : World)
  (Htag : GetTagName e <> "br")
  (Hnot_absolute : position (GetComputedValues e) <> Absolute)
  (Hnot_fixed : position (GetComputedValues e) <> Fixed)
  (Hfloat : float_ (GetComputedValues e) = FloatNone)
  (Hpart : In (display (GetComputedValues e))
              [TableRow; TableRowGroup; TableColumn; TableColumnGroup; TableCell]) :
  FormatElement K (S n) b e w =
    Done true (mkWorld (st w) (trace w ++ [EvLogWarning (table_warning e)])) /\
  table_warning e =
    ("Element has a display type '"
      ++ match GetDisplayProperty e with Some s => s | None => "*unknown*" end
      ++ "', but is not located in a table. It will not be formatted. In element "
      ++ GetAddress e)%string.
Proof.
  split; [| reflexivity].
  rewrite (FormatElement_not_special n b e w Htag).
  rewrite (not_absolute_or_fixed _ Hnot_absolute Hnot_fixed).
  rewrite Hfloat. cbn [is_floating].
  cbn [In] in Hpart.
  destruct Hpart as [H | [H | [H | [H | [H | []]]]]]; rewrite <- H; reflexivity.
Qed.

(** C8.  In [FormatElementBlock], when [AddBlockElement] returns null the
    call returns false right after it: no child is formatted, whatever the
    fuel and whatever the recursive formatter would do. *)
Theorem block_open_failure_returns_false
  (n : nat) (b : BlockBox) (e : Element) (w : World)
  (Hnull : fst (AddBlockElement K b e (fst (BuildBoxIn K b e false (st w)))
                                      (snd (BuildBoxIn K b e false (st w))) (st w))
           = None) :
  let w0 :=
    mkWorld (snd (AddBlockElement K b e (fst (BuildBoxIn K b e false (st w)))
                                        (snd (BuildBoxIn K b e false (st w))) (st w)))
            (trace w ++ [EvAddBlockElement b e None]) in
  FormatElementBlock K n b e w = Done false w0 /\
  forall k F, FormatElementBlock_body K k F b e w = Done false w0.
Proof.
  intros w0.
  assert (H : forall k F, FormatElementBlock_body K k F b e w = Done false w0).
  { intros k F. unfold FormatElementBlock_body. rewrite bind_read.
    unfold bind. rewrite call_eq. rewrite Hnull. reflexivity. }
  split; [apply H | exact H].
Qed.

(** C9.  [FormatElementTable] delegates to [FormatTable] at most twice:
    [OK] on the first attempt returns true, [LAYOUT_PARENT] returns false,
    [LAYOUT_SELF] delegates once more; the second attempt returns false on
    [LAYOUT_PARENT] and true otherwise, and is never followed by a
    third. *)
Theorem table_is_delegated_at_most_twice
  (b : BlockBox) (e : Element) (w : World)
  (tb : BlockBox) (w0 : World) (r1 : CloseResult) (w1 : World)
  (r2 : CloseResult) (w2 : World)
  (Hopen : call (EvAddBlockElement b e)
             (AddBlockElement K b e (fst (BuildBoxIn K b e false (st w)))
                                    (snd (BuildBoxIn K b e false (st w)))) w
           = Done (Some tb) w0)
  (Hfirst : call (EvFormatTable tb e) (FormatTable K tb e) w0 = Done r1 w1)
  (Hsecond : call (EvFormatTable tb e) (FormatTable K tb e) w1 = Done r2 w2) :
  FormatElementTable K b e w =
    match r1 with
    | OK => Done true w1
    | LAYOUT_PARENT => Done false w1
    | LAYOUT_SELF =>
        Done (match r2 with LAYOUT_PARENT => false | _ => true end) w2
    end /\
  trace w1 = trace w0 ++ [EvFormatTable tb e r1] /\
  trace w2 = trace w0 ++ [EvFormatTable tb e r1; EvFormatTable tb e r2].
Proof.
  split; [| split].
  - unfold FormatElementTable. rewrite bind_read.
    rewrite (bind_of_Done _ _ _ _ _ Hopen). cbn [table_attempts].
    rewrite (bind_of_Done _ _ _ _ _ Hfirst).
    destruct r1; try reflexivity.
    rewrite (bind_of_Done _ _ _ _ _ Hsecond).
    destruct r2; reflexivity.
  - rewrite call_eq in Hfirst. injection Hfirst as <- <-. reflexivity.
  - rewrite call_eq in Hfirst. injection Hfirst as <- <-.
    rewrite call_eq in Hsecond. injection Hsecond as <- <-.
    cbn [trace st]. rewrite <- app_assoc. reflexivity.
Qed.

(** The world after [element] was added to [box] as a closed inline box. *)
Definition inline_box_inserted (box : BlockBox) (element : Element) (w : World) : World :=
  let added := AddInlineElement K box element (GetBox K element (st w)) (st w) in
  mkWorld (InlineClose K (fst added) (snd added))
          (trace w ++ [EvAddInlineElement box element (fst added);
                       EvInlineClose (fst added)]).

(** C10.  [FormatElementInlineBlock] never returns false: it formats the
    element with the root overload, whose run yields no result to inspect,
    and whenever that run returns, however its passes ended, the box of the
    element is added to the parent context as an inline box that is closed
    at once, and the call returns true. *)
Theorem inline_block_always_returns_true
  (n : nat) (b : BlockBox) (e : Element) (w : World) :
  FormatElementInlineBlock K n b e w =
    match FormatElement_root K n e (GetContainingBlock K b (st w)) None false w with
    | Done _ w1 => Done true (inline_box_inserted b e w1)
    | OutOfFuel => OutOfFuel
    | NullDeref => NullDeref
    end /\
  forall w', FormatElementInlineBlock K n b e w <> Done false w'.
Proof.
  assert (E : FormatElementInlineBlock K n b e w =
    match FormatElement_root K n e (GetContainingBlock K b (st w)) None false w with
    | Done _ w1 => Done true (inline_box_inserted b e w1)
    | OutOfFuel => OutOfFuel
    | NullDeref => NullDeref
    end).
  { unfold FormatElementInlineBlock, FormatElementInlineBlock_body.
    rewrite bind_read. unfold bind at 1. fold (FormatElement_root K n).
    destruct (FormatElement_root K n e (GetContainingBlock K b (st w)) None false w)
      as [res w1 | |]; try reflexivity.
    rewrite bind_read. unfold bind at 1. rewrite call_eq.
    unfold inline_box_inserted. cbv [bind call_ ret]. cbn [st trace].
    rewrite <- app_assoc. reflexivity. }
  split; [exact E |].
  intros w'. rewrite E.
  destruct (FormatElement_root K n e (GetContainingBlock K b (st w)) None false w);
    discriminate.
Qed.

End Properties.

Arguments safe {K A} m w Q.
Arguments extends {K A} m.
Arguments retry_passes {K} pass close _ _ _ _.
Arguments each_once {K} F _ _ _.
Arguments until_failure {K} F _ _ _ _.
Arguments inline_box_inserted {K} box element w.
Arguments ran_in_two_passes {K} n e w w'.

(** ** The scripted collaborators at work *)

Section ScriptedRuns.

Import Scripted.

(** With floats that fit once their script is exhausted, the scripted
    answers still to come are a failure budget. *)
Lemma scripted_failure_budget : FailureBudget (collaborators true) remaining.
Proof.
  split; cbn [collaborators NewBlockBox AddBlockElement Close CloseAbsoluteElements
              AddAbsoluteElement AddFloatElement AddInlineElement InlineClose
              AddBreak FormatTable OnLayout]; intros;
    try lia;
    repeat match goal with
           | s : State _ |- _ => destruct s as [next [| [] os] [| c cl] [| [] fl] [| t tl]]
           | H : fst _ = _ |- _ => cbn in H
           | H : fst _ <> _ |- _ => cbn in H
           end;
    cbn; try lia; try congruence.
Qed.

(** With a float that never fits, every restart of the sibling loop meets
    the same failure again. *)
Lemma never_fitting_float_fails (n : nat) (b : BlockBox) (tr : list Event) (next : nat) :
  FormatElement (collaborators false) n b float_left (world false (mkScript next [] [] [] []) tr)
    = OutOfFuel \/
  exists next' tr',
    FormatElement (collaborators false) n b float_left (world false (mkScript next [] [] [] []) tr)
      = Done false (world false (mkScript next' [] [] [] []) tr').
Proof.
  destruct n as [| [| n]].
  - left. reflexivity.
  - right. eexists. eexists. reflexivity.
  - right. eexists. eexists. reflexivity.
Qed.

Lemma never_fitting_float_restarts_forever (k n : nat) (b : BlockBox) :
  forall (tr : list Event) (next : nat),
    format_children (collaborators false) k (FormatElement (collaborators false) n b)
      [float_left] [float_left] (world false (mkScript next [] [] [] []) tr)
    = OutOfFuel.
Proof.
  induction k as [| k IH]; intros tr next; rewrite format_children_cons;
    destruct (never_fitting_float_fails n b tr next) as [E | (next' & tr' & E)];
    unfold bind; rewrite E; try reflexivity.
  apply IH.
Qed.

(** The dispatcher has no bound of its own on the restarts.  With a
    collaborator that keeps rejecting a float, as no formatting context of
    the library is known to do, the sibling loop of a document whose only
    child is that float restarts from the first child for ever: the root
    operation is still running when the fuel is spent, whatever the fuel. *)
Lemma root_format_never_returns_on_rejected_float :
  children doc_one_float = [float_left] /\
  (forall fuel,
     FormatElement_root (collaborators false) fuel doc_one_float tt None false
       (start false idle) = OutOfFuel).
Proof.
  split; [reflexivity |].
  intros fuel.
  pose proof (never_fitting_float_restarts_forever fuel fuel 1
                [EvNewBlockBox 0; EvAddBlockElement 0 doc_one_float (Some 1)] 2) as Hloop.
  unfold world in Hloop.
  unfold FormatElement_root, FormatElement_root_body, start, world, idle.
  cbn -[format_children FormatElement]. unfold bind. rewrite Hloop. reflexivity.
Qed.

(** A hidden block is skipped together with its paragraph. *)
Lemma display_none_is_skipped_witness :
  GetTagName hidden_div <> "br" /\
  display (GetComputedValues hidden_div) = DisplayNone /\
  FormatElement (collaborators true) 1 0 hidden_div (start true idle)
    = Done true (start true idle).
Proof.
  split; [discriminate |]. split; [reflexivity |].
  apply (display_none_is_skipped (collaborators true) 0 0 hidden_div (start true idle)).
  - discriminate.
  - reflexivity.
Defined.

(** C2, counterexample.  A line break whose computed display is none is
    caught by [FormatElementSpecial] before the display is looked at: a
    break is added to the context and [OnLayout] is delivered. *)
Lemma hidden_br_is_laid_out :
  display (GetComputedValues br_hidden) = DisplayNone /\
  FormatElement (collaborators true) 1 0 br_hidden (start true idle)
    = Done true (world true idle [EvAddBreak 0; EvOnLayout br_hidden]).
Proof. split; reflexivity. Qed.


(** A section whose first [Close] asks for a local reformat; in the retry
    its paragraph asks for a parent reformat, which is ignored, and the
    second [Close] of the section commits. *)
Lemma block_layout_self_retries_once_witness :
  exists w',
    FormatElementBlock (collaborators true) 2 0 section_one_block
      (start true (mkScript 0 [] [OK; LAYOUT_SELF; LAYOUT_PARENT; OK] [] []))
    = Done true w' /\
    trace w' =
      [EvAddBlockElement 0 section_one_block (Some 0);
       EvAddBlockElement 0 paragraph (Some 1); EvClose 1 OK; EvOnLayout paragraph;
       EvClose 0 LAYOUT_SELF;
       EvAddBlockElement 0 paragraph (Some 2); EvClose 2 LAYOUT_PARENT;
       EvClose 0 OK; EvOnLayout section_one_block].
Proof.
  eexists. split.
  - etransitivity.
    + eapply (block_layout_self_retries_once
                (collaborators true) 2 0 section_one_block
                (start true (mkScript 0 [] [OK; LAYOUT_SELF; LAYOUT_PARENT; OK] [] []))).
      * vm_compute; reflexivity.
      * vm_compute; reflexivity.
      * vm_compute; reflexivity.
      * eapply each_once_cons; [vm_compute; reflexivity | apply each_once_nil].
      * vm_compute; reflexivity.
    + reflexivity.
  - reflexivity.
Defined.

(** An inline element whose second child fails: the third child is not
    visited and the inline box is left open. *)
Lemma inline_stops_at_first_failure_witness :
  exists w',
    FormatElementInline (collaborators true) 2 0 span_three
      (start true (mkScript 0 [] [LAYOUT_PARENT] [] []))
    = Done false w' /\
    trace w' =
      [EvAddInlineElement 0 span_three 0;
       EvLogWarning (table_warning stray_cell);
       EvAddBlockElement 0 paragraph (Some 1); EvClose 1 LAYOUT_PARENT].
Proof.
  eexists. split.
  - etransitivity.
    + eapply (inline_stops_at_first_failure
                (collaborators true) 2 0 span_three
                (start true (mkScript 0 [] [LAYOUT_PARENT] [] []))).
      * vm_compute; reflexivity.
      * eapply until_failure_ok; [vm_compute; reflexivity |].
        eapply until_failure_stop. vm_compute; reflexivity.
    + reflexivity.
  - reflexivity.
Defined.

(** A float that its context rejects: it is formatted as a root first. *)
Lemma float_is_formatted_then_registered_witness :
  FormatElement (collaborators false) 2 0 float_left (start false idle)
    = Done false
        (world false (mkScript 2 [] [] [] [])
           [EvNewBlockBox 0; EvAddBlockElement 0 float_left (Some 1);
            EvClose 1 OK; EvCloseAbsoluteElements 1; EvOnLayout float_left;
            EvAddFloatElement 0 float_left false]).
Proof.
  etransitivity.
  - apply (float_is_formatted_then_registered
             (collaborators false) 1 0 float_left (start false idle));
      discriminate.
  - vm_compute; reflexivity.
Defined.

(** C6, counterexample.  A floated element that is also absolutely
    positioned is registered as an absolute element: it is not formatted
    as a root and [AddFloatElement] is not called. *)
Lemma absolute_float_is_not_floated :
  float_ (GetComputedValues absolute_float) = Left /\
  FormatElement (collaborators false) 2 0 absolute_float (start false idle)
    = Done true (world false idle [EvAddAbsoluteElement 0 absolute_float]).
Proof. split; reflexivity. Qed.

(** A table cell in normal flow, outside any table. *)
Lemma stray_table_part_is_logged_witness :
  FormatElement (collaborators true) 1 0 stray_cell (start true idle)
    = Done true
        (world true idle
           [EvLogWarning
              ("Element has a display type 'table-cell', but is not located in a table. "
               ++ "It will not be formatted. In element td")%string]).
Proof.
  refine (eq_trans
    (proj1 (stray_table_part_is_logged
              (collaborators true) 0 0 stray_cell (start true idle) _ _ _ _ _)) _).
  - discriminate.
  - discriminate.
  - discriminate.
  - reflexivity.
  - cbn. tauto.
  - reflexivity.
Defined.

(** C7, counterexample.  A floated table cell outside any table takes the
    float branch: no warning is logged, the cell is formatted as a root
    and handed to [AddFloatElement], whose refusal is returned. *)
Lemma floated_cell_is_formatted :
  display (GetComputedValues floated_cell) = TableCell /\
  FormatElement (collaborators false) 2 0 floated_cell (start false idle)
    = Done false
        (world false (mkScript 2 [] [] [] [])
           [EvNewBlockBox 0; EvAddBlockElement 0 floated_cell (Some 1);
            EvClose 1 OK; EvCloseAbsoluteElements 1; EvOnLayout floated_cell;
            EvAddFloatElement 0 floated_cell false]).
Proof. split; reflexivity. Qed.

(** A block that its parent has no room for. *)
Lemma block_open_failure_returns_false_witness :
  fst (AddBlockElement (collaborators true) 0 section_one_block tt tt
         (mkScript 0 [false] [] [] [])) = None /\
  FormatElementBlock (collaborators true) 0 0 section_one_block
    (start true (mkScript 0 [false] [] [] []))
    = Done false (world true idle [EvAddBlockElement 0 section_one_block None]).
Proof.
  split; [reflexivity |].
  refine (proj1 (block_open_failure_returns_false
                   (collaborators true) 0 0 section_one_block
                   (start true (mkScript 0 [false] [] [] [])) _)).
  reflexivity.
Defined.

(** A table that asks for a local reformat three times: the third request
    is never made. *)
Lemma table_is_delegated_at_most_twice_witness :
  FormatElementTable (collaborators true) 0 table_element
    (start true (mkScript 0 [] [] [] [LAYOUT_SELF; LAYOUT_SELF; LAYOUT_SELF]))
  = Done true
      (world true (mkScript 1 [] [] [] [LAYOUT_SELF])
         [EvAddBlockElement 0 table_element (Some 0);
          EvFormatTable 0 table_element LAYOUT_SELF;
          EvFormatTable 0 table_element LAYOUT_SELF]).
Proof.
  exact (proj1 (table_is_delegated_at_most_twice
                  (collaborators true) 0 table_element
                  (start true (mkScript 0 [] [] [] [LAYOUT_SELF; LAYOUT_SELF; LAYOUT_SELF]))
                  0
                  (world true (mkScript 1 [] [] [] [LAYOUT_SELF; LAYOUT_SELF; LAYOUT_SELF])
                     [EvAddBlockElement 0 table_element (Some 0)])
                  LAYOUT_SELF
                  (world true (mkScript 1 [] [] [] [LAYOUT_SELF; LAYOUT_SELF])
                     [EvAddBlockElement 0 table_element (Some 0);
                      EvFormatTable 0 table_element LAYOUT_SELF])
                  LAYOUT_SELF
                  (world true (mkScript 1 [] [] [] [LAYOUT_SELF])
                     [EvAddBlockElement 0 table_element (Some 0);
                      EvFormatTable 0 table_element LAYOUT_SELF;
                      EvFormatTable 0 table_element LAYOUT_SELF])
                  eq_refl eq_refl eq_refl)).
Defined.

(** An inline-block whose own root pass never commits: both attempts end
    on a [Close] other than [OK], and the call still returns true. *)
Example inline_block_uncommitted_still_true :
  FormatElementInlineBlock (collaborators true) 2 0 inline_block
    (start true (mkScript 0 [] [OK; LAYOUT_SELF; OK; LAYOUT_PARENT] [] []))
  = Done true
      (world true (mkScript 5 [] [] [] [])
         [EvNewBlockBox 0; EvAddBlockElement 0 inline_block (Some 1);
          EvAddBlockElement 1 paragraph (Some 2); EvClose 2 OK; EvOnLayout paragraph;
          EvClose 1 LAYOUT_SELF;
          EvAddBlockElement 1 paragraph (Some 3); EvClose 3 OK; EvOnLayout paragraph;
          EvClose 1 LAYOUT_PARENT;
          EvCloseAbsoluteElements 1; EvOnLayout inline_block;
          EvAddInlineElement 0 inline_block 4; EvInlineClose 4]).
Proof. reflexivity. Qed.

End ScriptedRuns.


(** ** The layout chunk (LayoutEngine.cpp, lines 43-51 and 96-102)

    [LayoutChunk::size] is the nested [MAX] of the sizes of the five layout
    node types, stored in an [unsigned int]; [AllocateLayoutChunk] asserts
    that the size asked for fits.  The five [sizeof] values are those of
    types declared elsewhere: they are the fields of [NodeSizes]. *)

Module LayoutChunk.

Local Open Scope N_scope.

(** [#define MAX(a, b) (a > b ? a : b)] *)
Definition MAX (a b : N) : N := if b <? a then a else b.

Record NodeSizes : Type := mkNodeSizes {
  sizeof_LayoutBlockBox : N;
  sizeof_LayoutInlineBox : N;
  sizeof_LayoutInlineBoxText : N;
  sizeof_LayoutLineBox : N;
  sizeof_LayoutBlockBoxSpace : N
}.

(** The conversion of a [size_t] to [unsigned int]. *)
Definition to_unsigned_int (n : N) : N := n mod 2 ^ 32.

(** [static const unsigned int size = MAX(sizeof(LayoutBlockBox), MAX(...))] *)
Definition size (s : NodeSizes) : N :=
  to_unsigned_int
    (MAX (sizeof_LayoutBlockBox s)
       (MAX (sizeof_LayoutInlineBox s)
          (MAX (sizeof_LayoutInlineBoxText s)
             (MAX (sizeof_LayoutLineBox s) (sizeof_LayoutBlockBoxSpace s))))).

(** [RMLUI_ASSERT(size <= LayoutChunk::size)] of [AllocateLayoutChunk]. *)
Definition AllocateLayoutChunk_assertion (s : NodeSizes) (requested : N) : bool :=
  requested <=? size s.

Definition node_sizes (s : NodeSizes) : list N :=
  [sizeof_LayoutBlockBox s; sizeof_LayoutInlineBox s; sizeof_LayoutInlineBoxText s;
   sizeof_LayoutLineBox s; sizeof_LayoutBlockBoxSpace s].

(** X1.  When the five node types are smaller than [2 ^ 32] bytes, the
    chunk size is the size of one of them and is at least the size of each:
    the assertion of [AllocateLayoutChunk] holds for every node type. *)
Theorem chunk_fits_every_node (s : NodeSizes) (requested : N)
  (Hsmall : forall n, In n (node_sizes s) -> n < 2 ^ 32)
  (Hnode : In requested (node_sizes s)) :
  AllocateLayoutChunk_assertion s requested = true /\ In (size s) (node_sizes s).
Proof.
  unfold AllocateLayoutChunk_assertion, size, to_unsigned_int.
  destruct s as [a b c d e]; unfold node_sizes in *;
    cbn [sizeof_LayoutBlockBox sizeof_LayoutInlineBox
         sizeof_LayoutInlineBoxText sizeof_LayoutLineBox sizeof_LayoutBlockBoxSpace] in *.
  assert (Ha := Hsmall a (or_introl eq_refl)).
  assert (Hb := Hsmall b (or_intror (or_introl eq_refl))).
  assert (Hc := Hsmall c (or_intror (or_intror (or_introl eq_refl)))).
  assert (Hd := Hsmall d (or_intror (or_intror (or_intror (or_introl eq_refl))))).
  assert (He := Hsmall e (or_intror (or_intror (or_intror (or_intror (or_introl eq_refl)))))).
  clear Hsmall. cbn [In] in *.
  set (m := MAX a (MAX b (MAX c (MAX d e)))).
  assert (Hm : (m = a \/ m = b \/ m = c \/ m = d \/ m = e) /\
               a <= m /\ b <= m /\ c <= m /\ d <= m /\ e <= m).
  { subst m. unfold MAX.
    repeat match goal with
           | |- context [?x <? ?y] =>
               lazymatch x with
               | context [if _ then _ else _] => fail
               | _ => destruct (N.ltb_spec x y)
               end
           end; lia. }
  destruct Hm as (Hin & Hge).
  rewrite N.mod_small by (destruct Hin as [-> | [-> | [-> | [-> | ->]]]]; assumption).
  split.
  - apply N.leb_le. lia.
  - cbn [In]. lia.
Qed.

(** Sizes of the order found on a 64-bit build. *)
Definition sample_sizes : NodeSizes := mkNodeSizes 360 176 192 96 72.

Lemma chunk_fits_every_node_witness :
  (forall n, In n (node_sizes sample_sizes) -> n < 2 ^ 32) /\
  In 192 (node_sizes sample_sizes) /\
  AllocateLayoutChunk_assertion sample_sizes 192 = true /\
  In (size sample_sizes) (node_sizes sample_sizes).
Proof.
  assert (Hsmall : forall n, In n (node_sizes sample_sizes) -> n < 2 ^ 32).
  { intros n Hn. cbn in Hn.
    repeat (destruct Hn as [<- | Hn]; [reflexivity |]). contradiction. }
  assert (Hnode : In 192 (node_sizes sample_sizes)) by (cbn; tauto).
  split; [exact Hsmall |]. split; [exact Hnode |].
  exact (chunk_fits_every_node sample_sizes 192 Hsmall Hnode).
Defined.

End LayoutChunk.

(** ** Further properties of the dispatcher *)

Section Further.

Variable K : Collaborators.

#[local] Abbreviation World := (World K).
#[local] Abbreviation M := (M K).

(** X2.  A [br] element is handled by [FormatElementSpecial] whatever its
    display, position and float: a break is added to the context, [OnLayout]
    is delivered, the call returns true and no child is visited. *)
Theorem br_is_a_break_whatever_its_style
  (n : nat) (b : BlockBox) (e : Element) (w : World)
  (Htag : GetTagName e = "br") :
  FormatElement K (S n) b e w =
    Done true (mkWorld (OnLayout K e (AddBreak K b (st w)))
                       (trace w ++ [EvAddBreak b; EvOnLayout e])).
Proof.
  rewrite FormatElement_unfold. unfold FormatElement_body, FormatElementSpecial.
  rewrite Htag. cbn [String.eqb Ascii.eqb Bool.eqb].
  cbv [bind call_ ret]. cbn [st trace]. rewrite <- app_assoc. reflexivity.
Qed.

(** Every returning run of [format_children_strict] stops at the first
    child that fails or runs [tail] after the last child. *)
Lemma format_children_strict_Done (F : Element -> M bool) (tail : M bool)
  (cs : list Element) (w : World) (ok : bool) (w' : World) :
  format_children_strict K F cs tail w = Done ok w' ->
  (exists w1, until_failure F cs w true w1 /\ tail w1 = Done ok w') \/
  (ok = false /\ until_failure F cs w false w').
Proof.
  revert w. induction cs as [| c cs IH]; intros w H; simpl in H.
  - left. exists w. split; [constructor | exact H].
  - apply bind_Done in H. destruct H as ([|] & w1 & Hc & H).
    + destruct (IH w1 H) as [(w2 & Hrun & Htail) | (Hok & Hrun)].
      * left. exists w2. split; [econstructor; eassumption | exact Htail].
      * right. split; [exact Hok | econstructor; eassumption].
    + injection H as <- <-. right. split; [reflexivity | constructor; exact Hc].
Qed.

(** X3.  Every returning run of [FormatElementInline] is of one of two
    kinds: all children returned true, the inline box was closed and the
    result is true; or the children were formatted up to the first one that
    returned false, and the result is false in the world that child left. *)
Theorem inline_result_tells_children
  (n : nat) (b : BlockBox) (e : Element) (w : World) (ok : bool) (w' : World)
  (Hrun : FormatElementInline K n b e w = Done ok w') :
  exists ib w0 w1,
    call (EvAddInlineElement b e)
         (AddInlineElement K b e (BuildBox K (GetContainingBlock K b (st w)) e true)) w
      = Done ib w0 /\
    until_failure (FormatElement K n b) (children e) w0 ok w1 /\
    w' = if ok
         then mkWorld (InlineClose K ib (st w1)) (trace w1 ++ [EvInlineClose ib])
         else w1.
Proof.
  unfold FormatElementInline, FormatElementInline_body in Hrun.
  rewrite bind_read in Hrun.
  apply bind_Done in Hrun. destruct Hrun as (ib & w0 & Hadd & Hrun).
  exists ib, w0.
  apply format_children_strict_Done in Hrun.
  destruct Hrun as [(w1 & Hall & Htail) | (-> & Hstop)].
  - cbv [bind call_ ret] in Htail. injection Htail as <- <-.
    exists w1. split; [exact Hadd | split; [exact Hall | reflexivity]].
  - exists w'. split; [exact Hadd | split; [exact Hstop | reflexivity]].
Qed.

(** X4.  The sibling loop of the root overload and of [FormatElementBlock]
    returns only through a clean sweep: from some world reached after the
    start of the loop, every child, in order, was formatted once and
    returned true, and the loop ended in the world the last child left. *)
Theorem sibling_loop_ends_with_clean_sweep
  (n k : nat) (b : BlockBox) (cs : list Element) (w w' : World)
  (Hrun : format_children K k (FormatElement K n b) cs cs w = Done tt w') :
  exists ws t,
    trace ws = trace w ++ t /\
    until_failure (FormatElement K n b) cs ws true w'.
Proof.
  assert (Hany : forall k' rest w0,
    format_children K k' (FormatElement K n b) cs rest w0 = Done tt w' ->
    exists ws t, trace ws = trace w0 ++ t /\
      (until_failure (FormatElement K n b) rest ws true w' /\ ws = w0 \/
       until_failure (FormatElement K n b) cs ws true w')).
  { induction k' as [| k' IHk]; intros rest;
      induction rest as [| c rest IHrest]; intros w0 H0;
      rewrite ?format_children_nil, ?format_children_cons in H0.
    - injection H0 as <-. exists w0, []. split; [symmetry; apply app_nil_r |].
      left. split; [constructor | reflexivity].
    - apply bind_Done in H0. destruct H0 as ([|] & w1 & Hc & H0); [| discriminate].
      destruct (extends_FormatElement K n b c _ _ _ Hc) as [t1 E1].
      destruct (IHrest w1 H0) as (ws & t & Et & [[Hrest ->] | Hall]).
      + exists w0, []. split; [symmetry; apply app_nil_r |].
        left. split; [econstructor; eassumption | reflexivity].
      + exists ws, (t1 ++ t). split; [rewrite Et, E1; symmetry; apply app_assoc |].
        right. exact Hall.
    - injection H0 as <-. exists w0, []. split; [symmetry; apply app_nil_r |].
      left. split; [constructor | reflexivity].
    - apply bind_Done in H0. destruct H0 as ([|] & w1 & Hc & H0);
        destruct (extends_FormatElement K n b c _ _ _ Hc) as [t1 E1].
      + destruct (IHrest w1 H0) as (ws & t & Et & [[Hrest ->] | Hall]).
        * exists w0, []. split; [symmetry; apply app_nil_r |].
          left. split; [econstructor; eassumption | reflexivity].
        * exists ws, (t1 ++ t). split; [rewrite Et, E1; symmetry; apply app_assoc |].
          right. exact Hall.
      + destruct (IHk cs w1 H0) as (ws & t & Et & [[Hrest _] | Hall]);
          exists ws, (t1 ++ t);
          (split; [rewrite Et, E1; symmetry; apply app_assoc | right; assumption]). }
  destruct (Hany k cs w Hrun) as (ws & t & Et & [[H _] | H]);
    exists ws, t; split; assumption.
Qed.

(** X6.  When the root overload returns, the visible overflow size is
    written exactly when it was asked for, and it is read from the context
    after [CloseAbsoluteElements], which follows the last [Close], and
    before [OnLayout] is delivered to the element; this holds whatever the
    last [Close] answered. *)
Theorem root_reports_overflow_after_absolutes
  (n : nat) (e : Element) (cb : Vector2f K) (ob : option (Box K)) (wo : bool)
  (w : World) (res : option (Vector2f K)) (w' : World)
  (Hrun : FormatElement_root K n e cb ob wo w = Done res w') :
  exists bcb r wl t,
    trace wl = t ++ [EvClose bcb r] /\
    trace w' = trace wl ++ [EvCloseAbsoluteElements bcb; EvOnLayout e] /\
    st w' = OnLayout K e (CloseAbsoluteElements K bcb (st wl)) /\
    res = if wo
          then Some (GetVisibleOverflowSize K bcb (CloseAbsoluteElements K bcb (st wl)))
          else None.
Proof.
  unfold FormatElement_root, FormatElement_root_body in Hrun.
  apply bind_Done in Hrun. destruct Hrun as (rb & wa & _ & Hrun).
  apply bind_Done in Hrun. destruct Hrun as (opened & w0 & _ & Hrun).
  destruct opened as [bcb |]; [| discriminate].
  apply bind_Done in Hrun. destruct Hrun as (u & wl & Hloop & Hrun).
  apply layout_iterations_two in Hloop. destruct Hloop as (p & r & Hpasses & _).
  assert (Hlast : exists t, trace wl = t ++ [EvClose bcb r]).
  { inversion Hpasses as [w1 w2 r1 w3 _ Hc | p' w1 r1 w2 w3 r2 w4 _ _ _ Hc]; subst;
      rewrite call_eq in Hc; injection Hc as <- <-; eexists; reflexivity. }
  destruct Hlast as [t Et].
  exists bcb, r, wl, t. split; [exact Et |].
  destruct wo; cbv [bind call_ read ret] in Hrun; injection Hrun as <- <-;
    cbn [st trace]; rewrite <- app_assoc; auto.
Qed.

(** X7.  With a failure budget, the sibling loop restarts at most as many
    times as the budget allows: restart fuel equal to the budget is never
    used up, provided the recursive formatter has fuel for the highest
    child plus the budget; and the loop leaves a budget that is no
    larger. *)
Theorem sibling_restarts_within_budget
  (budget : State K -> nat) (n k : nat) (b : BlockBox) (cs : list Element) (w : World)
  (HB : FailureBudget K budget)
  (Hrestarts : budget (st w) <= k)
  (Hfuel : forall c, In c cs -> height c + budget (st w) <= n) :
  safe (format_children K k (FormatElement K n b) cs cs) w
       (fun _ w' => budget (st w') <= budget (st w)).
Proof.
  apply (format_children_safe K budget (FormatElement K n b) cs (budget (st w)));
    [| apply incl_refl | exact Hrestarts | apply le_n].
  intros c Hc w1 Hw1. apply (FormatElement_safe K budget HB).
  specialize (Hfuel c Hc). lia.
Qed.

(** *** Where a failure comes from *)

(** The answers of the collaborators that report a failure. *)
Definition is_failure (ev : Event) : bool :=
  match ev with
  | EvAddBlockElement _ _ None => true
  | EvAddFloatElement _ _ false => true
  | EvClose _ r => negb (is_OK r)
  | EvFormatTable _ _ LAYOUT_PARENT => true
  | _ => false
  end.

Definition failures (tr : list Event) : nat := List.length (filter is_failure tr).

Lemma failures_snoc (tr : list Event) (ev : Event) :
  failures (tr ++ [ev]) = failures tr + (if is_failure ev then 1 else 0).
Proof.
  unfold failures. rewrite filter_app, length_app. cbn [filter].
  destruct (is_failure ev); reflexivity.
Qed.

Lemma failures_app (t1 t2 : list Event) :
  failures (t1 ++ t2) = failures t1 + failures t2.
Proof. unfold failures. rewrite filter_app, length_app. reflexivity. Qed.

Lemma failures_positive (t : list Event) :
  0 < failures t -> existsb is_failure t = true.
Proof.
  unfold failures. induction t as [| ev t IH]; cbn [filter existsb List.length]; [lia |].
  destruct (is_failure ev); [reflexivity | exact IH].
Qed.

(** [post m w Q]: when [m] returns from [w], [Q] holds of the result and
    the final world. *)
Definition post {A : Type} (m : M A) (w : World) (Q : A -> World -> Prop) : Prop :=
  match m w with
  | Done a w' => Q a w'
  | _ => True
  end.

Lemma post_ret {A : Type} (a : A) (w : World) (Q : A -> World -> Prop) :
  Q a w -> post (ret a) w Q.
Proof. intros H; exact H. Qed.

Lemma post_bind {A B : Type} (m : M A) (f : A -> M B) (w : World)
  (Q : B -> World -> Prop) :
  post m w (fun a w1 => post (f a) w1 Q) -> post (bind m f) w Q.
Proof. unfold post, bind. destruct (m w); auto. Qed.

Lemma post_mono {A : Type} (m : M A) (w : World) (Q Q' : A -> World -> Prop) :
  post m w Q -> (forall a w', Q a w' -> Q' a w') -> post m w Q'.
Proof. unfold post. destruct (m w); auto. Qed.

Lemma post_call {A : Type} (ev : A -> Event) (op : State K -> A * State K)
  (w : World) (Q : A -> World -> Prop) :
  Q (fst (op (st w))) (mkWorld (snd (op (st w))) (trace w ++ [ev (fst (op (st w)))])) ->
  post (call ev op) w Q.
Proof. intros H. unfold post. rewrite call_eq. exact H. Qed.

Lemma post_call_ (ev : Event) (op : State K -> State K) (w : World)
  (Q : unit -> World -> Prop) :
  Q tt (mkWorld (op (st w)) (trace w ++ [ev])) -> post (call_ ev op) w Q.
Proof. intros H; exact H. Qed.

Lemma post_read {A : Type} (f : State K -> A) (w : World) (Q : A -> World -> Prop) :
  Q (f (st w)) w -> post (read f) w Q.
Proof. intros H; exact H. Qed.

Lemma post_emit (ev : Event) (w : World) (Q : unit -> World -> Prop) :
  Q tt (mkWorld (st w) (trace w ++ [ev])) -> post (emit ev) w Q.
Proof. intros H; exact H. Qed.

(** The trace has at least as many failures as that of [w]. *)
Definition grows {A : Type} (w : World) : A -> World -> Prop :=
  fun _ w' => failures (trace w) <= failures (trace w').

(** As [grows], and a false result comes with one failure more. *)
Definition blames (w : World) : bool -> World -> Prop :=
  fun ok w' =>
    failures (trace w) <= failures (trace w') /\
    (ok = false -> failures (trace w) < failures (trace w')).

Ltac then_post t a w' H :=
  apply post_bind; eapply post_mono; [t | intros a w' H].

Lemma format_children_post (F : Element -> M bool) (all : list Element) :
  (forall c w, post (F c) w (blames w)) ->
  forall k rest w, post (format_children K k F all rest) w (grows w).
Proof.
  intros HF. induction k as [| k IHk]; intros rest;
    induction rest as [| c rest IHrest]; intros w;
    rewrite ?format_children_nil, ?format_children_cons;
    try (apply post_ret; unfold grows; lia).
  - then_post ltac:(apply HF) ok w1 H1. destruct H1 as [H1 _]. destruct ok; [| exact I].
    eapply post_mono; [apply IHrest |]. unfold grows. intros _ w2 H2. lia.
  - then_post ltac:(apply HF) ok w1 H1. destruct H1 as [H1 _]. destruct ok.
    + eapply post_mono; [apply IHrest |]. unfold grows. intros _ w2 H2. lia.
    + eapply post_mono; [apply IHk |]. unfold grows. intros _ w2 H2. lia.
Qed.

Lemma format_children_once_post (F : Element -> M bool) :
  (forall c w, post (F c) w (blames w)) ->
  forall cs w, post (format_children_once K F cs) w (grows w).
Proof.
  intros HF. induction cs as [| c cs IH]; intros w; simpl.
  - apply post_ret. unfold grows. lia.
  - then_post ltac:(apply HF) ok w1 H1. destruct H1 as [H1 _].
    eapply post_mono; [apply IH |]. unfold grows. intros _ w2 H2. lia.
Qed.

Lemma format_children_strict_post (F : Element -> M bool) (tail : M bool) :
  (forall c w, post (F c) w (blames w)) ->
  (forall w, post tail w (blames w)) ->
  forall cs w, post (format_children_strict K F cs tail) w (blames w).
Proof.
  intros HF Htail. induction cs as [| c cs IH]; intros w; simpl.
  - apply Htail.
  - then_post ltac:(apply HF) ok w1 H1. destruct H1 as [H1 H1']. destruct ok.
    + eapply post_mono; [apply IH |]. unfold blames. intros ok2 w2 [H2 H2'].
      split; [lia |]. intros E. specialize (H2' E). lia.
    + apply post_ret. split; [lia | intros _; auto].
Qed.

Lemma layout_iterations_post (pass : M unit) (close : M CloseResult) :
  (forall w, post pass w (grows w)) ->
  (forall w, post close w (grows w)) ->
  forall i w, post (layout_iterations K i pass close) w (grows w).
Proof.
  intros Hp Hc. induction i as [| i IH]; intros w; simpl.
  - apply post_ret. unfold grows. lia.
  - then_post ltac:(apply Hp) u w1 H1. unfold grows in H1.
    then_post ltac:(apply Hc) r w2 H2. unfold grows in H2.
    destruct (is_OK r).
    + apply post_ret. unfold grows. lia.
    + eapply post_mono; [apply IH |]. unfold grows. intros _ w3 H3. lia.
Qed.

Lemma table_attempts_post (tb : BlockBox) (e : Element) :
  forall i w,
    post (table_attempts K i (call (EvFormatTable tb e) (FormatTable K tb e))) w (blames w).
Proof.
  induction i as [| i IH]; intros w; simpl.
  - apply post_ret. split; [lia | discriminate].
  - apply post_bind, post_call.
    destruct (fst (FormatTable K tb e (st w))) eqn:Er.
    + apply post_ret. unfold blames; cbn [trace]. rewrite failures_snoc.
      split; [lia | discriminate].
    + eapply post_mono; [apply IH |]. unfold blames; cbn [trace].
      rewrite failures_snoc. intros ok w2 [H2 H2']. split; [lia |].
      intros E. specialize (H2' E). lia.
    + apply post_ret. unfold blames; cbn [trace]. rewrite failures_snoc.
      cbn [is_failure]. split; [lia | intros _; lia].
Qed.

Ltac count_failures :=
  unfold blames, grows in *; cbn [trace st] in *;
  repeat rewrite failures_snoc in *; cbn [is_failure is_OK negb] in *.

Lemma FormatElement_root_body_post (k : nat) (F : BlockBox -> Element -> M bool)
  (e : Element) (cb : Vector2f K) (ob : option (Box K)) (wo : bool) (w : World) :
  (forall b c w', post (F b c) w' (blames w')) ->
  post (FormatElement_root_body K k F e cb ob wo) w (grows w).
Proof.
  intros HF. unfold FormatElement_root_body.
  apply post_bind, post_call. apply post_bind, post_call. cbn [st trace].
  match goal with
  | |- context [AddBlockElement K ?b ?e' ?bx ?h ?s] =>
      destruct (AddBlockElement K b e' bx h s) as [[nb |] s1]
  end; cbn [fst snd]; [| exact I].
  then_post
    ltac:(apply layout_iterations_post;
          [ intros w'; apply format_children_post; intros c w''; apply HF
          | intros w'; apply post_call; count_failures; lia ]) u w2 H2.
  apply post_bind, post_call_.
  destruct wo; apply post_bind.
  - apply post_bind, post_read, post_ret, post_bind, post_call_, post_ret.
    count_failures. lia.
  - apply post_ret, post_bind, post_call_, post_ret. count_failures. lia.
Qed.

Lemma FormatElementBlock_body_post (k : nat) (F : BlockBox -> Element -> M bool)
  (b : BlockBox) (e : Element) (w : World) :
  (forall b' c w', post (F b' c) w' (blames w')) ->
  post (FormatElementBlock_body K k F b e) w (blames w).
Proof.
  intros HF. unfold FormatElementBlock_body.
  apply post_bind, post_read, post_bind, post_call. cbn [st trace].
  match goal with
  | |- context [AddBlockElement K ?b0 ?e' ?bx ?h ?s] =>
      destruct (AddBlockElement K b0 e' bx h s) as [[nb |] s1]
  end; cbn [fst snd].
  2: { apply post_ret. count_failures. split; [lia | intros _; lia]. }
  then_post ltac:(apply format_children_post; intros c w''; apply HF) u w2 H2.
  apply post_bind, post_call. cbn [st trace].
  destruct (Close K nb (st w2)) as [r s3]; cbn [fst snd].
  destruct r.
  - apply post_bind, post_call_, post_ret. count_failures. split; [lia | discriminate].
  - then_post ltac:(apply format_children_once_post; intros c w''; apply HF) u' w4 H4.
    apply post_bind, post_call. cbn [st trace].
    destruct (Close K nb (st w4)) as [r2 s5]; cbn [fst snd].
    destruct r2; cbn [is_OK].
    + apply post_bind, post_call_, post_ret. count_failures. split; [lia | discriminate].
    + apply post_ret. count_failures. split; [lia | intros _; lia].
    + apply post_ret. count_failures. split; [lia | intros _; lia].
  - apply post_ret. count_failures. split; [lia | intros _; lia].
Qed.

Lemma FormatElementInline_body_post (F : BlockBox -> Element -> M bool)
  (b : BlockBox) (e : Element) (w : World) :
  (forall b' c w', post (F b' c) w' (blames w')) ->
  post (FormatElementInline_body K F b e) w (blames w).
Proof.
  intros HF. unfold FormatElementInline_body.
  apply post_bind, post_read, post_bind, post_call. cbn [st trace].
  eapply post_mono.
  - apply format_children_strict_post; [intros c w'; apply HF |].
    intros w'. apply post_bind, post_call_, post_ret.
    count_failures. split; [lia | discriminate].
  - intros ok w2 H2. count_failures. destruct H2 as [H2 H2'].
    split; [lia |]. intros E. specialize (H2' E). lia.
Qed.

Lemma FormatElementInlineBlock_body_post (k : nat) (F : BlockBox -> Element -> M bool)
  (b : BlockBox) (e : Element) (w : World) :
  (forall b' c w', post (F b' c) w' (blames w')) ->
  post (FormatElementInlineBlock_body K k F b e) w (blames w).
Proof.
  intros HF. unfold FormatElementInlineBlock_body.
  apply post_bind, post_read.
  then_post ltac:(apply FormatElement_root_body_post; exact HF) u w1 H1.
  apply post_bind, post_read, post_bind, post_call, post_bind, post_call_, post_ret.
  count_failures. split; [lia | discriminate].
Qed.

Lemma FormatElementTable_post (b : BlockBox) (e : Element) (w : World) :
  post (FormatElementTable K b e) w (blames w).
Proof.
  unfold FormatElementTable.
  apply post_bind, post_read, post_bind, post_call. cbn [st trace].
  match goal with
  | |- context [AddBlockElement K ?b0 ?e' ?bx ?h ?s] =>
      destruct (AddBlockElement K b0 e' bx h s) as [[tb |] s1]
  end; cbn [fst snd].
  2: { apply post_ret. count_failures. split; [lia | intros _; lia]. }
  eapply post_mono; [apply table_attempts_post |].
  intros ok w2 H2. count_failures. destruct H2 as [H2 H2'].
  split; [lia |]. intros E. specialize (H2' E). lia.
Qed.

Lemma FormatElement_body_post (k : nat) (F : BlockBox -> Element -> M bool)
  (b : BlockBox) (e : Element) (w : World) :
  (forall b' c w', post (F b' c) w' (blames w')) ->
  post (FormatElement_body K k F b e) w (blames w).
Proof.
  intros HF. unfold FormatElement_body, FormatElementSpecial.
  apply post_bind.
  destruct (String.eqb (GetTagName e) "br").
  { apply post_bind, post_call_, post_bind, post_call_, post_ret, post_ret.
    count_failures. split; [lia | discriminate]. }
  apply post_ret.
  assert (Hskip : post (ret (K := K) true) w (blames w))
    by (apply post_ret; split; [lia | discriminate]).
  assert (Hwarn : post (bind (emit (EvLogWarning (table_warning e)))
                             (fun _ => ret (K := K) true)) w (blames w)).
  { apply post_bind, post_emit, post_ret. count_failures. split; [lia | discriminate]. }
  destruct (display (GetComputedValues e)); try exact Hskip;
    (destruct (is_absolute_or_fixed (position (GetComputedValues e)));
     [ apply post_bind, post_call_, post_ret; count_failures; split; [lia | discriminate]
     | destruct (is_floating (float_ (GetComputedValues e)));
       [ apply post_bind, post_read;
         then_post ltac:(apply FormatElement_root_body_post; exact HF) u w2 H2;
         apply post_call;
         destruct (AddFloatElement K b e (st w2)) as [[|] s3]; cbn [fst snd];
         count_failures; (split; [lia | first [discriminate | intros _; lia]])
       | ] ]);
    try exact Hwarn.
  - apply FormatElementBlock_body_post. exact HF.
  - apply FormatElementInline_body_post. exact HF.
  - apply FormatElementInlineBlock_body_post. exact HF.
  - apply FormatElementTable_post.
Qed.

Lemma FormatElement_post (n : nat) :
  forall b e w, post (FormatElement K n b e) w (blames w).
Proof.
  induction n as [| n IH]; intros b e w.
  - exact I.
  - rewrite FormatElement_unfold. apply FormatElement_body_post. exact IH.
Qed.

(** X8.  [FormatElement] never invents a failure: when it returns false,
    the collaborators answered with a failure during the call (a null
    [AddBlockElement], a false [AddFloatElement], a [Close] other than [OK]
    or a [FormatTable] answering [LAYOUT_PARENT]). *)
Theorem false_comes_from_a_collaborator
  (n : nat) (b : BlockBox) (e : Element) (w w' : World)
  (Hrun : FormatElement K n b e w = Done false w') :
  exists t, trace w' = trace w ++ t /\ existsb is_failure t = true.
Proof.
  destruct (extends_FormatElement K n b e _ _ _ Hrun) as [t Et].
  exists t. split; [exact Et |].
  pose proof (FormatElement_post n b e w) as Hpost.
  unfold post in Hpost. rewrite Hrun in Hpost. destruct Hpost as [_ Hlt].
  specialize (Hlt eq_refl). rewrite Et, failures_app in Hlt.
  apply failures_positive. lia.
Qed.

(** *** Runs in which no collaborator fails

    [Calm calm]: from a state that satisfies [calm] every operation of the
    collaborators leads to such a state again, and there [AddBlockElement]
    is not null, [Close] answers [OK], [AddFloatElement] answers true and
    [FormatTable] does not answer [LAYOUT_PARENT]. *)

Record Calm (calm : State K -> Prop) : Prop := {
  calm_new : forall cb s, calm s -> calm (snd (NewBlockBox K cb s));
  calm_open : forall b e bx h s, calm s ->
    fst (AddBlockElement K b e bx h s) <> None /\
    calm (snd (AddBlockElement K b e bx h s));
  calm_close : forall b s, calm s ->
    fst (Close K b s) = OK /\ calm (snd (Close K b s));
  calm_close_absolute : forall b s, calm s -> calm (CloseAbsoluteElements K b s);
  calm_absolute : forall b e s, calm s -> calm (AddAbsoluteElement K b e s);
  calm_float : forall b e s, calm s ->
    fst (AddFloatElement K b e s) = true /\ calm (snd (AddFloatElement K b e s));
  calm_inline : forall b e bx s, calm s -> calm (snd (AddInlineElement K b e bx s));
  calm_inline_close : forall i s, calm s -> calm (InlineClose K i s);
  calm_break : forall b s, calm s -> calm (AddBreak K b s);
  calm_table : forall b e s, calm s ->
    fst (FormatTable K b e s) <> LAYOUT_PARENT /\ calm (snd (FormatTable K b e s));
  calm_on_layout : forall e s, calm s -> calm (OnLayout K e s)
}.

(** [returns m w Q]: from [w] the computation [m] returns, and [Q] holds of
    the result and the final world. *)
Definition returns {A : Type} (m : M A) (w : World) (Q : A -> World -> Prop) : Prop :=
  match m w with
  | Done a w' => Q a w'
  | _ => False
  end.

Lemma returns_ret {A : Type} (a : A) (w : World) (Q : A -> World -> Prop) :
  Q a w -> returns (ret a) w Q.
Proof. intros H; exact H. Qed.

Lemma returns_bind {A B : Type} (m : M A) (f : A -> M B) (w : World)
  (Q : B -> World -> Prop) :
  returns m w (fun a w1 => returns (f a) w1 Q) -> returns (bind m f) w Q.
Proof. unfold returns, bind. destruct (m w); auto. Qed.

Lemma returns_mono {A : Type} (m : M A) (w : World) (Q Q' : A -> World -> Prop) :
  returns m w Q -> (forall a w', Q a w' -> Q' a w') -> returns m w Q'.
Proof. unfold returns. destruct (m w); auto. Qed.

Lemma returns_call {A : Type} (ev : A -> Event) (op : State K -> A * State K)
  (w : World) (Q : A -> World -> Prop) :
  Q (fst (op (st w))) (mkWorld (snd (op (st w))) (trace w ++ [ev (fst (op (st w)))])) ->
  returns (call ev op) w Q.
Proof. intros H. unfold returns. rewrite call_eq. exact H. Qed.

Lemma returns_call_ (ev : Event) (op : State K -> State K) (w : World)
  (Q : unit -> World -> Prop) :
  Q tt (mkWorld (op (st w)) (trace w ++ [ev])) -> returns (call_ ev op) w Q.
Proof. intros H; exact H. Qed.

Lemma returns_read {A : Type} (f : State K -> A) (w : World) (Q : A -> World -> Prop) :
  Q (f (st w)) w -> returns (read f) w Q.
Proof. intros H; exact H. Qed.

Lemma returns_emit (ev : Event) (w : World) (Q : unit -> World -> Prop) :
  Q tt (mkWorld (st w) (trace w ++ [ev])) -> returns (emit ev) w Q.
Proof. intros H; exact H. Qed.

Lemma returns_Done {A : Type} (m : M A) (w : World) (Q : A -> World -> Prop) :
  returns m w Q -> exists a w', m w = Done a w' /\ Q a w'.
Proof.
  unfold returns. destruct (m w) as [a w' | |]; try contradiction.
  intros H. exists a, w'. split; [reflexivity | exact H].
Qed.

Section CalmRuns.

Variable calm : State K -> Prop.
Hypothesis HC : Calm calm.

(** The result is true and the state is calm. *)
Definition fine : bool -> World -> Prop := fun ok w' => ok = true /\ calm (st w').

(** [F] returns true on the elements of [cs], from every calm world. *)
Definition smooth (F : Element -> M bool) (cs : list Element) : Prop :=
  forall c, In c cs -> forall w, calm (st w) -> returns (F c) w fine.

Ltac then_returns t a w' H :=
  apply returns_bind; eapply returns_mono; [t | intros a w' H].

(** Without a failure the sibling loop is one sweep, without a restart. *)
Lemma format_children_returns (F : Element -> M bool) (all : list Element) (k : nat) :
  forall rest w,
    smooth F rest -> calm (st w) ->
    returns (format_children K k F all rest) w
      (fun _ w' => until_failure F rest w true w' /\ calm (st w')).
Proof.
  induction rest as [| c rest IH]; intros w HF Hw.
  - rewrite format_children_nil. apply returns_ret. split; [constructor | exact Hw].
  - rewrite format_children_cons.
    destruct (returns_Done _ _ _ (HF c (or_introl eq_refl) w Hw))
      as (ok & w1 & Ec & -> & Hw1).
    unfold returns. rewrite (bind_of_Done K _ _ _ _ _ Ec).
    assert (HF' : smooth F rest) by (intros x Hx; apply HF; right; exact Hx).
    destruct (returns_Done _ _ _ (IH w1 HF' Hw1)) as ([] & w2 & E2 & Hrun & Hw2).
    rewrite E2. split; [econstructor; eassumption | exact Hw2].
Qed.

Lemma format_children_strict_returns (F : Element -> M bool) (tail : M bool) :
  (forall w, calm (st w) -> returns tail w fine) ->
  forall cs w,
    smooth F cs -> calm (st w) ->
    returns (format_children_strict K F cs tail) w fine.
Proof.
  intros Htail. induction cs as [| c cs IH]; intros w HF Hw; simpl.
  - apply Htail. exact Hw.
  - then_returns ltac:(apply (HF c (or_introl eq_refl) w Hw)) ok w1 H1.
    destruct H1 as [-> Hw1]. apply IH; [| exact Hw1].
    intros x Hx. apply HF. right. exact Hx.
Qed.

(** What the root overload does when nothing fails. *)
Definition swept_once (F : BlockBox -> Element -> M bool) (e : Element) (w w' : World)
  : Prop :=
  exists rb bcb w0 w1,
    trace w0 = trace w ++ [EvNewBlockBox rb; EvAddBlockElement rb e (Some bcb)] /\
    until_failure (F bcb) (children e) w0 true w1 /\
    trace w' = trace w1 ++ [EvClose bcb OK; EvCloseAbsoluteElements bcb; EvOnLayout e].

Lemma FormatElement_root_body_returns (k : nat) (F : BlockBox -> Element -> M bool)
  (e : Element) (cb : Vector2f K) (ob : option (Box K)) (wo : bool) (w : World) :
  (forall b, smooth (F b) (children e)) ->
  calm (st w) ->
  returns (FormatElement_root_body K k F e cb ob wo) w
    (fun _ w' => swept_once F e w w' /\ calm (st w')).
Proof.
  intros HF Hw. unfold FormatElement_root_body.
  apply returns_bind, returns_call.
  pose proof (calm_new _ HC cb (st w) Hw) as H0.
  apply returns_bind, returns_call. cbn [st trace].
  match goal with
  | |- context [AddBlockElement K ?b ?e' ?bx ?h ?s] =>
      destruct (calm_open _ HC b e' bx h s H0) as [Hsome H1];
      destruct (AddBlockElement K b e' bx h s) as [[bcb |] s1]
  end; cbn [fst snd] in *; [| congruence].
  clear Hsome. cbn [layout_iterations].
  apply returns_bind.
  then_returns ltac:(apply format_children_returns; [apply HF | exact H1]) u w1 Hrun.
  destruct Hrun as [Hrun Hw1].
  apply returns_bind, returns_call.
  destruct (calm_close _ HC bcb (st w1) Hw1) as [Hok H2].
  rewrite Hok. cbn [is_OK]. apply returns_ret.
  apply returns_bind, returns_call_.
  pose proof (calm_close_absolute _ HC bcb _ H2) as H3.
  pose proof (calm_on_layout _ HC e _ H3) as H4.
  assert (Hend : forall res : option (Vector2f K),
    returns (bind (call_ (EvOnLayout e) (OnLayout K e)) (fun _ => ret res))
      (mkWorld (CloseAbsoluteElements K bcb (snd (Close K bcb (st w1))))
               ((trace w1 ++ [EvClose bcb OK]) ++ [EvCloseAbsoluteElements bcb]))
      (fun _ w' => swept_once F e w w' /\ calm (st w'))).
  { intros res. apply returns_bind, returns_call_, returns_ret.
    split; [| exact H4].
    eexists _, bcb, _, w1. split; [| split; [exact Hrun |]].
    - cbn [trace]. rewrite <- app_assoc. reflexivity.
    - cbn [trace]. rewrite <- !app_assoc. reflexivity. }
  destruct wo; apply returns_bind.
  - apply returns_bind, returns_read, returns_ret. apply Hend.
  - apply returns_ret. apply Hend.
Qed.

Lemma FormatElementBlock_body_returns (k : nat) (F : BlockBox -> Element -> M bool)
  (b : BlockBox) (e : Element) (w : World) :
  (forall b', smooth (F b') (children e)) ->
  calm (st w) ->
  returns (FormatElementBlock_body K k F b e) w fine.
Proof.
  intros HF Hw. unfold FormatElementBlock_body.
  apply returns_bind, returns_read, returns_bind, returns_call. cbn [st trace].
  match goal with
  | |- context [AddBlockElement K ?b0 ?e' ?bx ?h ?s] =>
      destruct (calm_open _ HC b0 e' bx h s Hw) as [Hsome H1];
      destruct (AddBlockElement K b0 e' bx h s) as [[nb |] s1]
  end; cbn [fst snd] in *; [| congruence].
  then_returns ltac:(apply format_children_returns; [apply HF | exact H1]) u w1 Hrun.
  destruct Hrun as [_ Hw1].
  apply returns_bind, returns_call.
  destruct (calm_close _ HC nb (st w1) Hw1) as [Hok H2].
  rewrite Hok. apply returns_bind, returns_call_, returns_ret.
  split; [reflexivity |]. apply (calm_on_layout _ HC). exact H2.
Qed.

Lemma FormatElementInline_body_returns (F : BlockBox -> Element -> M bool)
  (b : BlockBox) (e : Element) (w : World) :
  (forall b', smooth (F b') (children e)) ->
  calm (st w) ->
  returns (FormatElementInline_body K F b e) w fine.
Proof.
  intros HF Hw. unfold FormatElementInline_body.
  apply returns_bind, returns_read, returns_bind, returns_call. cbn [st trace].
  apply format_children_strict_returns.
  - intros w' Hw'. apply returns_bind, returns_call_, returns_ret.
    split; [reflexivity |]. apply (calm_inline_close _ HC). exact Hw'.
  - apply HF.
  - apply (calm_inline _ HC). exact Hw.
Qed.

Lemma FormatElementInlineBlock_body_returns (k : nat) (F : BlockBox -> Element -> M bool)
  (b : BlockBox) (e : Element) (w : World) :
  (forall b', smooth (F b') (children e)) ->
  calm (st w) ->
  returns (FormatElementInlineBlock_body K k F b e) w fine.
Proof.
  intros HF Hw. unfold FormatElementInlineBlock_body.
  apply returns_bind, returns_read.
  then_returns ltac:(apply FormatElement_root_body_returns; [exact HF | exact Hw])
    u w1 H1.
  destruct H1 as [_ Hw1].
  apply returns_bind, returns_read, returns_bind, returns_call,
    returns_bind, returns_call_, returns_ret.
  split; [reflexivity |].
  apply (calm_inline_close _ HC), (calm_inline _ HC). exact Hw1.
Qed.

Lemma FormatElementTable_returns (b : BlockBox) (e : Element) (w : World) :
  calm (st w) -> returns (FormatElementTable K b e) w fine.
Proof.
  intros Hw. unfold FormatElementTable.
  apply returns_bind, returns_read, returns_bind, returns_call. cbn [st trace].
  match goal with
  | |- context [AddBlockElement K ?b0 ?e' ?bx ?h ?s] =>
      destruct (calm_open _ HC b0 e' bx h s Hw) as [Hsome H1];
      destruct (AddBlockElement K b0 e' bx h s) as [[tb |] s1]
  end; cbn [fst snd] in *; [| congruence].
  clear Hsome.
  assert (Hattempts : forall i w', calm (st w') ->
    returns (table_attempts K i (call (EvFormatTable tb e) (FormatTable K tb e))) w' fine).
  { induction i as [| i IH]; intros w' Hw'; simpl.
    - apply returns_ret. split; [reflexivity | exact Hw'].
    - apply returns_bind, returns_call.
      destruct (calm_table _ HC tb e (st w') Hw') as [Hr Hs].
      destruct (fst (FormatTable K tb e (st w'))); [| apply IH; exact Hs | congruence].
      apply returns_ret. split; [reflexivity | exact Hs]. }
  apply Hattempts. exact H1.
Qed.

Lemma FormatElement_body_returns (k : nat) (F : BlockBox -> Element -> M bool)
  (b : BlockBox) (e : Element) (w : World) :
  (forall b', smooth (F b') (children e)) ->
  calm (st w) ->
  returns (FormatElement_body K k F b e) w fine.
Proof.
  intros HF Hw. unfold FormatElement_body, FormatElementSpecial.
  apply returns_bind.
  destruct (String.eqb (GetTagName e) "br").
  { apply returns_bind, returns_call_, returns_bind, returns_call_, returns_ret, returns_ret.
    split; [reflexivity |]. apply (calm_on_layout _ HC), (calm_break _ HC). exact Hw. }
  apply returns_ret.
  assert (Hskip : returns (ret (K := K) true) w fine)
    by (apply returns_ret; split; [reflexivity | exact Hw]).
  assert (Hwarn : returns (bind (emit (EvLogWarning (table_warning e)))
                                (fun _ => ret (K := K) true)) w fine).
  { apply returns_bind, returns_emit, returns_ret. split; [reflexivity | exact Hw]. }
  destruct (display (GetComputedValues e)); try exact Hskip;
    (destruct (is_absolute_or_fixed (position (GetComputedValues e)));
     [ apply returns_bind, returns_call_, returns_ret;
       split; [reflexivity | apply (calm_absolute _ HC); exact Hw]
     | destruct (is_floating (float_ (GetComputedValues e)));
       [ apply returns_bind, returns_read;
         then_returns
           ltac:(apply FormatElement_root_body_returns; [exact HF | exact Hw]) u w2 H2;
         destruct H2 as [_ H2]; apply returns_call;
         exact (calm_float _ HC b e (st w2) H2)
       | ] ]);
    try exact Hwarn.
  - apply FormatElementBlock_body_returns; assumption.
  - apply FormatElementInline_body_returns; assumption.
  - apply FormatElementInlineBlock_body_returns; assumption.
  - apply FormatElementTable_returns; assumption.
Qed.

Lemma FormatElement_returns (n : nat) :
  forall b e w,
    height e <= n -> calm (st w) -> returns (FormatElement K n b e) w fine.
Proof.
  induction n as [| n IH]; intros b e w Hn Hw.
  - pose proof (height_pos e). lia.
  - rewrite FormatElement_unfold. apply FormatElement_body_returns; [| exact Hw].
    intros b' c Hc w' Hw'. apply IH; [| exact Hw'].
    pose proof (height_child e c Hc). lia.
Qed.

End CalmRuns.

(** X9.  When no collaborator fails, [FormatElement] returns true, and fuel
    equal to the height of the element is enough: no sibling loop restarts,
    whatever the shape of the tree. *)
Theorem calm_format_returns_true
  (calm : State K -> Prop) (n : nat) (b : BlockBox) (e : Element) (w : World)
  (HC : Calm calm)
  (Hcalm : calm (st w))
  (Hfuel : height e <= n) :
  exists w', FormatElement K n b e w = Done true w' /\ calm (st w').
Proof.
  destruct (returns_Done _ _ _ (FormatElement_returns calm HC n b e w Hfuel Hcalm))
    as (ok & w' & E & -> & Hw').
  exists w'. split; [exact E | exact Hw'].
Qed.

(** X10.  When no collaborator fails, the root overload makes a single
    pass: it opens the root context, formats every child once, in order,
    each returning true, closes the context once with [OK], closes the
    absolute elements and notifies the element. *)
Theorem calm_root_makes_one_pass
  (calm : State K -> Prop) (n : nat) (e : Element) (cb : Vector2f K)
  (ob : option (Box K)) (wo : bool) (w : World)
  (HC : Calm calm)
  (Hcalm : calm (st w))
  (Hfuel : height e <= n) :
  exists res w',
    FormatElement_root K n e cb ob wo w = Done res w' /\
    swept_once (FormatElement K n) e w w'.
Proof.
  assert (Hroot : returns (FormatElement_root K n e cb ob wo) w
            (fun _ w' => swept_once (FormatElement K n) e w w' /\ calm (st w'))).
  { apply (FormatElement_root_body_returns calm HC); [| exact Hcalm].
    intros b c Hc w' Hw'. apply (FormatElement_returns calm HC); [| exact Hw'].
    pose proof (height_child e c Hc). lia. }
  destruct (returns_Done _ _ _ Hroot) as (res & w' & E & Hswept & _).
  exists res, w'. split; [exact E | exact Hswept].
Qed.

(** X11.  With a failure budget, the per-element [FormatElement] returns
    (or stops on a null root context) with fuel [height e + budget]; the
    budget does not grow during the call, and a false result has lowered
    it. *)
Theorem format_element_terminates_and_pays
  (budget : State K -> nat) (n : nat) (b : BlockBox) (e : Element) (w : World)
  (HB : FailureBudget K budget)
  (Hfuel : height e + budget (st w) <= n) :
  safe (FormatElement K n b e) w
    (fun ok w' =>
       budget (st w') <= budget (st w) /\
       (ok = false -> budget (st w') < budget (st w))).
Proof. exact (FormatElement_safe K budget HB n b e w Hfuel). Qed.

End Further.

Arguments returns {K A} m w Q.
Arguments post {K A} m w Q.
Arguments swept_once {K} F e w w'.

(** ** Further runs of the scripted collaborators *)

Section FurtherRuns.

Import Scripted.

(** A line break with a style and a child of its own. *)
Definition styled_br : Element := styled "br" Block Absolute Left [paragraph].

Lemma br_is_a_break_whatever_its_style_witness :
  GetTagName styled_br = "br" /\
  FormatElement (collaborators true) 1 0 styled_br (start true idle)
    = Done true (world true idle [EvAddBreak 0; EvOnLayout styled_br]).
Proof.
  split; [reflexivity |].
  exact (br_is_a_break_whatever_its_style
           (collaborators true) 0 0 styled_br (start true idle) eq_refl).
Defined.

Lemma inline_result_tells_children_witness :
  exists w',
    FormatElementInline (collaborators true) 2 0 span_three
      (start true (mkScript 0 [] [LAYOUT_PARENT] [] [])) = Done false w' /\
    exists ib w0 w1,
      call (EvAddInlineElement 0 span_three)
           (AddInlineElement (collaborators true) 0 span_three tt)
           (start true (mkScript 0 [] [LAYOUT_PARENT] [] []))
        = Done ib w0 /\
      until_failure (FormatElement (collaborators true) 2 0) (children span_three)
        w0 false w1 /\
      w' = w1.
Proof.
  eexists. split; [vm_compute; reflexivity |].
  apply (inline_result_tells_children
           (collaborators true) 2 0 span_three
           (start true (mkScript 0 [] [LAYOUT_PARENT] [] [])) false).
  vm_compute; reflexivity.
Defined.

(** A pass over two paragraphs in which the first one fails once. *)
Lemma sibling_loop_ends_with_clean_sweep_witness :
  exists w',
    format_children (collaborators true) 3 (FormatElement (collaborators true) 3 0)
      [paragraph; paragraph] [paragraph; paragraph]
      (start true (mkScript 0 [] [LAYOUT_PARENT] [] [])) = Done tt w' /\
    exists ws t,
      trace ws = trace (start true (mkScript 0 [] [LAYOUT_PARENT] [] [])) ++ t /\
      until_failure (FormatElement (collaborators true) 3 0)
        [paragraph; paragraph] ws true w'.
Proof.
  eexists. split; [vm_compute; reflexivity |].
  apply (sibling_loop_ends_with_clean_sweep
           (collaborators true) 3 3 0 [paragraph; paragraph]
           (start true (mkScript 0 [] [LAYOUT_PARENT] [] []))).
  vm_compute; reflexivity.
Defined.

(** A root run that never commits and still reports its overflow. *)
Lemma root_reports_overflow_after_absolutes_witness :
  exists w',
    FormatElement_root (collaborators true) 2 doc_two_blocks tt None true
      (start true (mkScript 0 [] [OK; OK; LAYOUT_SELF; OK; OK; LAYOUT_PARENT] [] []))
    = Done (Some tt) w' /\
    exists bcb r wl t,
      trace wl = t ++ [EvClose bcb r] /\
      trace w' = trace wl ++ [EvCloseAbsoluteElements bcb; EvOnLayout doc_two_blocks] /\
      st w' = st wl /\
      Some tt = Some tt.
Proof.
  eexists. split; [vm_compute; reflexivity |].
  apply (root_reports_overflow_after_absolutes
           (collaborators true) 2 doc_two_blocks tt None true
           (start true (mkScript 0 [] [OK; OK; LAYOUT_SELF; OK; OK; LAYOUT_PARENT] [] []))
           (Some tt)).
  vm_compute; reflexivity.
Defined.

Lemma sibling_restarts_within_budget_witness :
  FailureBudget (collaborators true) remaining /\
  remaining (mkScript 0 [] [LAYOUT_PARENT] [] []) <= 1 /\
  (forall c, In c [paragraph; paragraph] ->
     height c + remaining (mkScript 0 [] [LAYOUT_PARENT] [] []) <= 2) /\
  safe (format_children (collaborators true) 1 (FormatElement (collaborators true) 2 0)
          [paragraph; paragraph] [paragraph; paragraph])
       (start true (mkScript 0 [] [LAYOUT_PARENT] [] []))
       (fun _ w' => remaining (st w') <= 1).
Proof.
  assert (Hfuel : forall c, In c [paragraph; paragraph] ->
            height c + remaining (mkScript 0 [] [LAYOUT_PARENT] [] []) <= 2).
  { intros c [<- | [<- | []]]; vm_compute; lia. }
  split; [exact scripted_failure_budget |].
  split; [vm_compute; lia |].
  split; [exact Hfuel |].
  apply (sibling_restarts_within_budget
           (collaborators true) remaining 2 1 0 [paragraph; paragraph]
           (start true (mkScript 0 [] [LAYOUT_PARENT] [] []))).
  - exact scripted_failure_budget.
  - vm_compute; lia.
  - exact Hfuel.
Defined.

(** The rejected float: its false result comes with a failure. *)
Lemma false_comes_from_a_collaborator_witness :
  exists w',
    FormatElement (collaborators false) 2 0 float_left (start false idle)
      = Done false w' /\
    exists t,
      trace w' = trace (start false idle) ++ t /\ existsb is_failure t = true.
Proof.
  eexists. split; [vm_compute; reflexivity |].
  apply (false_comes_from_a_collaborator
           (collaborators false) 2 0 float_left (start false idle)).
  vm_compute; reflexivity.
Defined.

(** A scripted state with nothing left to answer. *)
Definition quiet (s : Script) : Prop :=
  opens s = [] /\ closes s = [] /\ floats s = [] /\ tables s = [].

Lemma scripted_calm : Calm (collaborators true) quiet.
Proof.
  split; cbn [collaborators NewBlockBox AddBlockElement Close CloseAbsoluteElements
              AddAbsoluteElement AddFloatElement AddInlineElement InlineClose
              AddBreak FormatTable OnLayout];
    intros; try assumption;
    repeat match goal with
           | s : State _ |- _ => destruct s as [next os cl fl tl]
           | H : quiet _ |- _ => destruct H as (Ho & Hc & Hf & Ht); cbn in Ho, Hc, Hf, Ht; subst
           end;
    cbn; unfold quiet; cbn; repeat split; congruence.
Qed.

Lemma calm_format_returns_true_witness :
  Calm (collaborators true) quiet /\
  quiet idle /\
  height doc_with_absolute <= 3 /\
  exists w',
    FormatElement (collaborators true) 3 0 doc_with_absolute (start true idle)
      = Done true w' /\
    quiet (st w').
Proof.
  assert (Hq : quiet idle) by (repeat split).
  split; [exact scripted_calm |]. split; [exact Hq |]. split; [vm_compute; lia |].
  apply (calm_format_returns_true
           (collaborators true) quiet 3 0 doc_with_absolute (start true idle)).
  - exact scripted_calm.
  - exact Hq.
  - vm_compute; lia.
Defined.

Lemma calm_root_makes_one_pass_witness :
  Calm (collaborators true) quiet /\
  quiet idle /\
  height doc_with_absolute <= 3 /\
  exists res w',
    FormatElement_root (collaborators true) 3 doc_with_absolute tt None false
      (start true idle) = Done res w' /\
    swept_once (FormatElement (collaborators true) 3) doc_with_absolute
      (start true idle) w'.
Proof.
  assert (Hq : quiet idle) by (repeat split).
  split; [exact scripted_calm |]. split; [exact Hq |]. split; [vm_compute; lia |].
  apply (calm_root_makes_one_pass
           (collaborators true) quiet 3 doc_with_absolute tt None false (start true idle)).
  - exact scripted_calm.
  - exact Hq.
  - vm_compute; lia.
Defined.

Lemma format_element_terminates_and_pays_witness :
  FailureBudget (collaborators true) remaining /\
  height section_one_block + remaining (mkScript 0 [] [LAYOUT_PARENT] [] []) <= 3 /\
  safe (FormatElement (collaborators true) 3 0 section_one_block)
       (start true (mkScript 0 [] [LAYOUT_PARENT] [] []))
       (fun ok w' =>
          remaining (st w') <= 1 /\ (ok = false -> remaining (st w') < 1)).
Proof.
  split; [exact scripted_failure_budget |].
  split; [vm_compute; lia |].
  apply (format_element_terminates_and_pays
           (collaborators true) remaining 3 0 section_one_block
           (start true (mkScript 0 [] [LAYOUT_PARENT] [] []))).
  - exact scripted_failure_budget.
  - vm_compute; lia.
Defined.

End FurtherRuns.

(** ** Which elements can fail, and how a block commits *)

Section Outcomes.

Variable K : Collaborators.

#[local] Abbreviation World := (World K).

Lemma FormatElementInlineBlock_not_false (n : nat) (b : BlockBox) (e : Element)
  (w w' : World) :
  FormatElementInlineBlock K n b e w <> Done false w'.
Proof.
  unfold FormatElementInlineBlock, FormatElementInlineBlock_body. intros H.
  rewrite bind_read in H.
  apply bind_Done in H. destruct H as (res & w1 & _ & H).
  rewrite bind_read in H.
  apply bind_Done in H. destruct H as (ib & w2 & _ & H).
  cbv [bind call_ ret] in H. discriminate.
Qed.

(** X13.  In [FormatElementBlock], when the first [Close] of the new context
    answers [OK], [OnLayout] is delivered and the call returns true; when it
    answers [LAYOUT_PARENT] the call returns false at once: the children are
    not formatted again, the context is not closed again and the element is
    not notified. *)
Theorem block_first_close_decides
  (n : nat) (b : BlockBox) (e : Element) (w : World)
  (nb : BlockBox) (w0 w1 : World) (r : CloseResult) (w2 : World)
  (Hopen : call (EvAddBlockElement b e)
             (AddBlockElement K b e (fst (BuildBoxIn K b e false (st w)))
                                    (snd (BuildBoxIn K b e false (st w)))) w
           = Done (Some nb) w0)
  (Hpass : format_children K n (FormatElement K n nb) (children e) (children e) w0
           = Done tt w1)
  (Hclose : call (EvClose nb) (Close K nb) w1 = Done r w2)
  (Hdecided : r <> LAYOUT_SELF) :
  FormatElementBlock K n b e w =
    match r with
    | OK => Done true (mkWorld (OnLayout K e (st w2)) (trace w2 ++ [EvOnLayout e]))
    | _ => Done false w2
    end.
Proof.
  unfold FormatElementBlock, FormatElementBlock_body.
  rewrite bind_read.
  rewrite (bind_of_Done K _ _ _ _ _ Hopen).
  rewrite (bind_of_Done K _ _ _ _ _ Hpass).
  rewrite (bind_of_Done K _ _ _ _ _ Hclose).
  destruct r; [reflexivity | congruence | reflexivity].
Qed.

End Outcomes.

Section OutcomeRuns.

Import Scripted.

(** A section whose first [Close] asks its parent to reformat. *)
Lemma block_first_close_decides_witness :
  exists w2,
    FormatElementBlock (collaborators true) 2 0 section_one_block
      (start true (mkScript 0 [] [OK; LAYOUT_PARENT] [] []))
    = Done false w2 /\
    trace w2 =
      [EvAddBlockElement 0 section_one_block (Some 0);
       EvAddBlockElement 0 paragraph (Some 1); EvClose 1 OK; EvOnLayout paragraph;
       EvClose 0 LAYOUT_PARENT].
Proof.
  eexists. split.
  - etransitivity.
    + eapply (block_first_close_decides
                (collaborators true) 2 0 section_one_block
                (start true (mkScript 0 [] [OK; LAYOUT_PARENT] [] []))).
      * vm_compute; reflexivity.
      * vm_compute; reflexivity.
      * vm_compute; reflexivity.
      * discriminate.
    + reflexivity.
  - reflexivity.
Defined.

End OutcomeRuns.

(** ** What a run may append to the trace

    Two facts about the events of a run are kept together.  [closes_own]:
    every [CloseAbsoluteElements] comes after the [AddBlockElement] that
    handed out its context in the same run (the dispatcher closes the
    absolute elements of a context only in the root run that opened it).
    [notifies_up_to]: [OnLayout] is delivered only to the element being
    formatted and to elements below it. *)

Fixpoint closes_own (opened : list BlockBox) (t : list Event) : bool :=
  match t with
  | [] => true
  | EvAddBlockElement _ _ (Some h) :: t' => closes_own (h :: opened) t'
  | EvCloseAbsoluteElements h :: t' =>
      existsb (Nat.eqb h) opened && closes_own opened t'
  | _ :: t' => closes_own opened t'
  end.

Definition notifies_up_to (H : nat) (ev : Event) : Prop :=
  match ev with
  | EvOnLayout c => height c <= H
  | _ => True
  end.

Definition tidy (H : nat) (t : list Event) : Prop :=
  closes_own [] t = true /\ Forall (notifies_up_to H) t.

(** An event the dispatcher may emit anywhere while it formats an element of
    height at most [H]. *)
Definition plain (H : nat) (ev : Event) : Prop :=
  match ev with
  | EvCloseAbsoluteElements _ => False
  | EvOnLayout c => height c <= H
  | _ => True
  end.

Lemma closes_own_mono (t : list Event) :
  forall o o', incl o o' -> closes_own o t = true -> closes_own o' t = true.
Proof.
  induction t as [| ev t IH]; intros o o' Hincl H; [reflexivity |].
  destruct ev as [| p e [h |] | | h | | | | | | | |]; cbn [closes_own] in *;
    try (eapply IH; eassumption).
  - eapply IH; [| exact H]. intros x [<- | Hx]; [left; reflexivity | right; auto].
  - apply andb_true_iff in H. destruct H as [Hin H].
    apply andb_true_iff. split; [| eapply IH; eassumption].
    apply existsb_exists in Hin. destruct Hin as (x & Hx & E).
    apply existsb_exists. exists x. split; [apply Hincl; exact Hx | exact E].
Qed.

Lemma closes_own_app (t1 t2 : list Event) :
  forall o, closes_own o t1 = true -> closes_own o t2 = true ->
    closes_own o (t1 ++ t2) = true.
Proof.
  induction t1 as [| ev t1 IH]; intros o H1 H2; [exact H2 |].
  destruct ev as [| p e [h |] | | h | | | | | | | |];
    cbn [closes_own app] in *; try (apply IH; assumption).
  - apply IH; [exact H1 |].
    apply (closes_own_mono t2 o); [intros x Hx; right; exact Hx | exact H2].
  - apply andb_true_iff in H1. destruct H1 as [Hin H1].
    apply andb_true_iff. split; [exact Hin | apply IH; assumption].
Qed.

(** Inside a run that closes only its own contexts, the absolute elements
    of [h] are closed only if [h] was handed out inside the run. *)
Lemma closes_own_In (t : list Event) (h : BlockBox) :
  forall o, closes_own o t = true ->
    In (EvCloseAbsoluteElements h) t ->
    In h o \/ exists p c, In (EvAddBlockElement p c (Some h)) t.
Proof.
  induction t as [| ev t IH]; intros o H Hin; [contradiction |].
  destruct Hin as [-> | Hin].
  - cbn [closes_own] in H. apply andb_true_iff in H. destruct H as [H _].
    apply existsb_exists in H. destruct H as (x & Hx & E).
    apply Nat.eqb_eq in E. subst x. left. exact Hx.
  - assert (Hlift : forall o', closes_own o' t = true ->
              (In h o' -> In h o \/ exists p c, In (EvAddBlockElement p c (Some h)) (ev :: t)) ->
              In h o \/ exists p c, In (EvAddBlockElement p c (Some h)) (ev :: t)).
    { intros o' H' Hback. destruct (IH o' H' Hin) as [Ho | (p & c & Hpc)];
        [apply Hback; exact Ho | right; exists p, c; right; exact Hpc]. }
    destruct ev as [| p e [h' |] | | h' | | | | | | | |]; cbn [closes_own] in H;
      try (apply (Hlift o H); intros Ho; left; exact Ho).
    + apply (Hlift (h' :: o) H). intros [-> | Ho]; [| left; exact Ho].
      right. exists p, e. left. reflexivity.
    + apply andb_true_iff in H. destruct H as [_ H].
      apply (Hlift o H). intros Ho; left; exact Ho.
Qed.

Lemma tidy_nil (H : nat) : tidy H [].
Proof. split; [reflexivity | constructor]. Qed.

Lemma tidy_app (H : nat) (t1 t2 : list Event) :
  tidy H t1 -> tidy H t2 -> tidy H (t1 ++ t2).
Proof.
  intros [C1 N1] [C2 N2]. split; [apply closes_own_app; assumption |].
  apply Forall_app. split; assumption.
Qed.

Lemma tidy_mono (H H' : nat) (t : list Event) : H <= H' -> tidy H t -> tidy H' t.
Proof.
  intros Hle [C N]. split; [exact C |].
  eapply Forall_impl; [| exact N]. intros ev. destruct ev; cbn; auto. lia.
Qed.

Lemma tidy_plain (H : nat) (ev : Event) : plain H ev -> tidy H [ev].
Proof.
  intros Hp. split.
  - destruct ev as [| p e [h |] | | h | | | | | | | |]; try reflexivity. contradiction.
  - constructor; [| constructor]. destruct ev; cbn in *; auto.
Qed.

(** The events of a root run around those of its retry loop. *)
Lemma tidy_root (H : nat) (rb bcb : BlockBox) (e : Element) (t : list Event) :
  height e <= H -> tidy H t ->
  tidy H ([EvNewBlockBox rb; EvAddBlockElement rb e (Some bcb)] ++ t
          ++ [EvCloseAbsoluteElements bcb; EvOnLayout e]).
Proof.
  intros He [C N]. split.
  - cbn [app closes_own]. apply closes_own_app.
    + apply (closes_own_mono t []); [intros x [] | exact C].
    + cbn [closes_own existsb]. rewrite Nat.eqb_refl. reflexivity.
  - cbn [app]. constructor; [exact I |]. constructor; [exact I |].
    apply Forall_app. split; [exact N |].
    constructor; [exact I |]. constructor; [exact He | constructor].
Qed.

Section Ordering.

Variable K : Collaborators.

#[local] Abbreviation World := (World K).
#[local] Abbreviation M := (M K).

(** [emits H m]: a returning run of [m] appends a tidy list of events. *)
Definition emits {A : Type} (H : nat) (m : M A) : Prop :=
  forall w a w', m w = Done a w' -> exists t, trace w' = trace w ++ t /\ tidy H t.

Lemma emits_mono {A : Type} (H H' : nat) (m : M A) :
  H <= H' -> emits H m -> emits H' m.
Proof.
  intros Hle Hm w a w' E. destruct (Hm w a w' E) as (t & Et & Ht).
  exists t. split; [exact Et | exact (tidy_mono H H' t Hle Ht)].
Qed.

Lemma emits_ret {A : Type} (H : nat) (a : A) : emits H (ret (K := K) a).
Proof.
  intros w a' w' E. injection E as _ <-. exists [].
  split; [symmetry; apply app_nil_r | apply tidy_nil].
Qed.

Lemma emits_bind {A B : Type} (H : nat) (m : M A) (f : A -> M B) :
  emits H m -> (forall a, emits H (f a)) -> emits H (bind m f).
Proof.
  intros Hm Hf w b w' E.
  apply bind_Done in E. destruct E as (a & w1 & E1 & E2).
  destruct (Hm _ _ _ E1) as (t1 & Et1 & T1). destruct (Hf a _ _ _ E2) as (t2 & Et2 & T2).
  exists (t1 ++ t2). split; [rewrite Et2, Et1; symmetry; apply app_assoc |].
  apply tidy_app; assumption.
Qed.

Lemma emits_call {A : Type} (H : nat) (ev : A -> Event) (op : State K -> A * State K) :
  (forall a, plain H (ev a)) -> emits H (call ev op).
Proof.
  intros Hev w a w' E. rewrite call_eq in E. injection E as <- <-.
  eexists. split; [reflexivity | apply tidy_plain, Hev].
Qed.

Lemma emits_call_ (H : nat) (ev : Event) (op : State K -> State K) :
  plain H ev -> emits H (call_ ev op).
Proof.
  intros Hev w a w' E. injection E as _ <-.
  eexists. split; [reflexivity | apply tidy_plain, Hev].
Qed.

Lemma emits_emit (H : nat) (ev : Event) : plain H ev -> emits H (emit (K := K) ev).
Proof.
  intros Hev w a w' E. injection E as _ <-.
  eexists. split; [reflexivity | apply tidy_plain, Hev].
Qed.

Lemma emits_read {A : Type} (H : nat) (f : State K -> A) : emits H (read f).
Proof.
  intros w a w' E. injection E as _ <-. exists [].
  split; [symmetry; apply app_nil_r | apply tidy_nil].
Qed.

Lemma emits_out_of_fuel {A : Type} (H : nat) : emits H (out_of_fuel K (A := A)).
Proof. intros w a w' E. discriminate. Qed.

Lemma emits_null_deref {A : Type} (H : nat) : emits H (null_deref K (A := A)).
Proof. intros w a w' E. discriminate. Qed.

Lemma emits_format_children (H : nat) (F : Element -> M bool) (all : list Element) :
  (forall c, In c all -> emits H (F c)) ->
  forall k rest, incl rest all -> emits H (format_children K k F all rest).
Proof.
  intros HF. induction k as [| k IHk]; induction rest as [| c rest IHrest]; intros Hincl;
    rewrite ?format_children_nil, ?format_children_cons; try apply emits_ret.
  - apply emits_bind; [apply HF, Hincl; left; reflexivity |].
    intros [|]; [| apply emits_out_of_fuel].
    apply IHrest. intros x Hx. apply Hincl. right. exact Hx.
  - apply emits_bind; [apply HF, Hincl; left; reflexivity |].
    intros [|]; [| apply IHk, incl_refl].
    apply IHrest. intros x Hx. apply Hincl. right. exact Hx.
Qed.

Lemma emits_format_children_once (H : nat) (F : Element -> M bool) :
  forall cs, (forall c, In c cs -> emits H (F c)) ->
    emits H (format_children_once K F cs).
Proof.
  induction cs as [| c cs IH]; intros HF; simpl.
  - apply emits_ret.
  - apply emits_bind; [apply HF; left; reflexivity | intros _].
    apply IH. intros x Hx. apply HF. right. exact Hx.
Qed.

Lemma emits_format_children_strict (H : nat) (F : Element -> M bool) (tail : M bool) :
  emits H tail ->
  forall cs, (forall c, In c cs -> emits H (F c)) ->
    emits H (format_children_strict K F cs tail).
Proof.
  intros Ht. induction cs as [| c cs IH]; intros HF; simpl.
  - exact Ht.
  - apply emits_bind; [apply HF; left; reflexivity |].
    intros [|]; [| apply emits_ret].
    apply IH. intros x Hx. apply HF. right. exact Hx.
Qed.

Lemma emits_layout_iterations (H : nat) (pass : M unit) (close : M CloseResult) :
  emits H pass -> emits H close ->
  forall i, emits H (layout_iterations K i pass close).
Proof.
  intros Hp Hc. induction i as [| i IH]; simpl.
  - apply emits_ret.
  - apply emits_bind; [exact Hp | intros _].
    apply emits_bind; [exact Hc | intros r].
    destruct (is_OK r); [apply emits_ret | exact IH].
Qed.

Lemma emits_table_attempts (H : nat) (format_table : M CloseResult) :
  emits H format_table -> forall i, emits H (table_attempts K i format_table).
Proof.
  intros Hf. induction i as [| i IH]; simpl.
  - apply emits_ret.
  - apply emits_bind; [exact Hf |].
    intros [| |]; [apply emits_ret | exact IH | apply emits_ret].
Qed.

(** The root overload closes the absolute elements of the context it opened
    itself, after its retry loop. *)
Lemma emits_FormatElement_root_body (H k : nat) (F : BlockBox -> Element -> M bool)
  (e : Element) (cb : Vector2f K) (ob : option (Box K)) (wo : bool) :
  height e <= H ->
  (forall b c, In c (children e) -> emits H (F b c)) ->
  emits H (FormatElement_root_body K k F e cb ob wo).
Proof.
  intros He HF w res w' E. unfold FormatElement_root_body in E.
  apply bind_Done in E. destruct E as (rb & wa & Enew & E).
  apply bind_Done in E. destruct E as (opened & w0 & Eopen & E).
  destruct opened as [bcb |]; [| discriminate].
  apply bind_Done in E. destruct E as (u & wl & Eloop & E).
  assert (Hloop : emits H (layout_iterations K 2
            (format_children K k (F bcb) (children e) (children e))
            (call (EvClose bcb) (Close K bcb)))).
  { apply emits_layout_iterations.
    - apply emits_format_children; [intros c Hc; apply HF, Hc | apply incl_refl].
    - apply emits_call. intros r. exact I. }
  destruct (Hloop _ _ _ Eloop) as (tl & Etl & Ttl).
  rewrite call_eq in Enew. injection Enew as Erb Ewa.
  rewrite call_eq in Eopen. injection Eopen as Esome Ew0.
  assert (E0 : trace w0 = trace w ++ [EvNewBlockBox rb; EvAddBlockElement rb e (Some bcb)]).
  { rewrite <- Ew0. cbn [trace]. rewrite Esome. rewrite <- Ewa. cbn [trace].
    rewrite Erb. rewrite <- app_assoc. reflexivity. }
  assert (Ew' : trace w' = trace wl ++ [EvCloseAbsoluteElements bcb; EvOnLayout e]).
  { destruct wo; cbv [bind call_ read ret] in E; injection E as _ <-;
      cbn [trace]; rewrite <- app_assoc; reflexivity. }
  exists ([EvNewBlockBox rb; EvAddBlockElement rb e (Some bcb)] ++ tl
          ++ [EvCloseAbsoluteElements bcb; EvOnLayout e]).
  split; [| apply tidy_root; assumption].
  rewrite Ew', Etl, E0. rewrite <- !app_assoc. reflexivity.
Qed.

Ltac emits_step :=
  first
    [ apply emits_bind; [| intro]
    | apply emits_ret
    | apply emits_read
    | apply emits_call; intro; exact I
    | apply emits_call_; solve [exact I | assumption]
    | apply emits_emit; exact I
    | apply emits_table_attempts
    | match goal with
      | |- emits _ (match ?x with _ => _ end) => destruct x
      | |- emits _ (let _ := _ in _) => cbv zeta
      end ].

Lemma emits_FormatElement_body (k : nat) (F : BlockBox -> Element -> M bool)
  (b : BlockBox) (e : Element) :
  (forall b' c, In c (children e) -> emits (height e) (F b' c)) ->
  emits (height e) (FormatElement_body K k F b e).
Proof.
  intros HF.
  assert (Hself : plain (height e) (EvOnLayout e)) by apply le_n.
  assert (Hroot : forall cb, emits (height e)
            (FormatElement_root_body K k F e cb None false))
    by (intros cb; apply emits_FormatElement_root_body; [apply le_n | exact HF]).
  assert (Hpass : forall b', emits (height e)
            (format_children K k (F b') (children e) (children e)))
    by (intros b'; apply emits_format_children;
        [intros c Hc; apply HF, Hc | apply incl_refl]).
  assert (Honce : forall b', emits (height e) (format_children_once K (F b') (children e)))
    by (intros b'; apply emits_format_children_once; intros c Hc; apply HF, Hc).
  unfold FormatElement_body, FormatElementSpecial, FormatElementBlock_body,
    FormatElementInline_body, FormatElementInlineBlock_body, FormatElementTable.
  repeat first
    [ apply Hroot | apply Hpass | apply Honce
    | apply emits_format_children_strict; [| intros c Hc; apply HF, Hc]
    | emits_step ].
Qed.

Lemma emits_FormatElement (n : nat) :
  forall b e, emits (height e) (FormatElement K n b e).
Proof.
  induction n as [| n IH]; intros b e.
  - apply emits_out_of_fuel.
  - rewrite FormatElement_unfold. apply emits_FormatElement_body.
    intros b' c Hc. apply (emits_mono (height c)); [| apply IH].
    pose proof (height_child e c Hc). lia.
Qed.

(** The children of [e] are notified, [e] itself is not. *)
Lemma emits_children (n k : nat) (b : BlockBox) (e : Element) :
  emits (pred (height e)) (format_children K k (FormatElement K n b) (children e) (children e))
  /\ emits (pred (height e)) (format_children_once K (FormatElement K n b) (children e)).
Proof.
  assert (HF : forall c, In c (children e) -> emits (pred (height e)) (FormatElement K n b c)).
  { intros c Hc. apply (emits_mono (height c)); [| apply emits_FormatElement].
    pose proof (height_child e c Hc). lia. }
  split.
  - apply emits_format_children; [exact HF | apply incl_refl].
  - apply emits_format_children_once. exact HF.
Qed.

Lemma tidy_below_not_notified (e : Element) (t : list Event) :
  tidy (pred (height e)) t -> ~ In (EvOnLayout e) t.
Proof.
  intros [_ N] Hin. rewrite Forall_forall in N. specialize (N _ Hin). cbn in N.
  pose proof (height_pos e). lia.
Qed.

End Ordering.

(** ** Deferred absolutes, notification and failure, revisited *)

Section Deferred.

Variable K : Collaborators.

#[local] Abbreviation World := (World K).
#[local] Abbreviation M := (M K).

(** The events of a retry loop up to its last [Close] are tidy. *)
Lemma retry_passes_tidy (H : nat) (pass : M unit) (b : BlockBox) (p : nat) (w : World)
  (r : CloseResult) (wl : World) :
  emits K H pass ->
  retry_passes pass (call (EvClose b) (Close K b)) p w r wl ->
  exists pre, trace wl = trace w ++ pre ++ [EvClose b r] /\ tidy H pre.
Proof.
  intros Hpass. induction 1 as [w w1 r w2 Hp Hc | p w r w2 w3 r' w4 _ IH _ Hp Hc].
  - destruct (Hpass _ _ _ Hp) as (t & Et & Tt).
    rewrite call_eq in Hc. injection Hc as <- <-. cbn [trace].
    exists t. split; [rewrite Et; symmetry; apply app_assoc | exact Tt].
  - destruct IH as (pre & Epre & Tpre). destruct (Hpass _ _ _ Hp) as (t & Et & Tt).
    rewrite call_eq in Hc. injection Hc as <- <-. cbn [trace].
    exists ((pre ++ [EvClose b r]) ++ t). split.
    + rewrite Et, Epre. rewrite <- !app_assoc. reflexivity.
    + apply tidy_app; [apply tidy_app; [exact Tpre | apply tidy_plain; exact I] | exact Tt].
Qed.


(** X5.  [FormatElementBlock] delivers [OnLayout] to its element exactly
    when it returns true.  When it returns true, the element is notified
    once, as the last action and directly after a [Close] that answered
    [OK].  When it returns false, the element is not notified at all, and
    the last action was a null [AddBlockElement] or a [Close] that did not
    answer [OK]. *)
Theorem block_notifies_exactly_when_committed
  (n : nat) (b : BlockBox) (e : Element) (w : World) (ok : bool) (w' : World)
  (Hrun : FormatElementBlock K n b e w = Done ok w') :
  exists t,
    trace w' = trace w ++ t /\
    if ok
    then exists nb t',
           t = [EvAddBlockElement b e (Some nb)] ++ t' ++ [EvClose nb OK; EvOnLayout e] /\
           ~ In (EvOnLayout e) t'
    else ~ In (EvOnLayout e) t /\
         (t = [EvAddBlockElement b e None] \/
          exists nb t' r,
            r <> OK /\ t = [EvAddBlockElement b e (Some nb)] ++ t' ++ [EvClose nb r]).
Proof.
  unfold FormatElementBlock, FormatElementBlock_body in Hrun.
  rewrite bind_read in Hrun.
  apply bind_Done in Hrun. destruct Hrun as (opened & w0 & Hopen & Hrun).
  rewrite call_eq in Hopen. injection Hopen as Hres Hw0.
  assert (E0 : trace w0 = trace w ++ [EvAddBlockElement b e opened]).
  { rewrite <- Hw0. cbn [trace]. rewrite Hres. reflexivity. }
  clear Hres Hw0.
  assert (Hnot : forall ev t', ev <> EvOnLayout e -> ~ In (EvOnLayout e) t' ->
            ~ In (EvOnLayout e) (ev :: t')).
  { intros ev t' Hev Ht' [E | Hin]; [exact (Hev E) | exact (Ht' Hin)]. }
  assert (Hsnoc : forall t' ev, ~ In (EvOnLayout e) t' -> ev <> EvOnLayout e ->
            ~ In (EvOnLayout e) (t' ++ [ev])).
  { intros t' ev Ht' Hev Hin. apply in_app_or in Hin.
    destruct Hin as [Hin | [E | []]]; [exact (Ht' Hin) | exact (Hev E)]. }
  destruct opened as [nb |].
  2: { injection Hrun as <- <-. exists [EvAddBlockElement b e None].
       split; [exact E0 |]. split; [| left; reflexivity].
       apply Hnot; [discriminate | intros []]. }
  destruct (emits_children K n n nb e) as [Hpass Honce].
  apply bind_Done in Hrun. destruct Hrun as ([] & w1 & Epass & Hrun).
  destruct (Hpass _ _ _ Epass) as (t1 & E1 & T1).
  apply tidy_below_not_notified in T1.
  apply bind_Done in Hrun. destruct Hrun as (r & w2 & Hclose & Hrun).
  rewrite call_eq in Hclose. injection Hclose as Hr Hw2.
  assert (E2 : trace w2 = trace w1 ++ [EvClose nb r]).
  { rewrite <- Hw2. cbn [trace]. rewrite Hr. reflexivity. }
  clear Hr Hw2.
  destruct r.
  - cbv [bind call_ ret] in Hrun. injection Hrun as <- <-.
    exists ([EvAddBlockElement b e (Some nb)] ++ t1 ++ [EvClose nb OK; EvOnLayout e]).
    split; [cbn [trace]; rewrite E2, E1, E0; rewrite <- !app_assoc; reflexivity |].
    exists nb, t1. split; [reflexivity | exact T1].
  - apply bind_Done in Hrun. destruct Hrun as ([] & w3 & Eonce & Hrun).
    destruct (Honce _ _ _ Eonce) as (t3 & E3 & T3).
    apply tidy_below_not_notified in T3.
    apply bind_Done in Hrun. destruct Hrun as (r2 & w4 & Hclose2 & Hrun).
    rewrite call_eq in Hclose2. injection Hclose2 as Hr2 Hw4.
    assert (E4 : trace w4 = trace w3 ++ [EvClose nb r2]).
    { rewrite <- Hw4. cbn [trace]. rewrite Hr2. reflexivity. }
    clear Hr2 Hw4.
    assert (Tmid : ~ In (EvOnLayout e) (t1 ++ [EvClose nb LAYOUT_SELF] ++ t3)).
    { intros Hin. apply in_app_or in Hin. destruct Hin as [Hin | [E | Hin]];
        [exact (T1 Hin) | discriminate | exact (T3 Hin)]. }
    destruct r2; cbv [is_OK bind call_ ret] in Hrun; injection Hrun as <- <-.
    + exists ([EvAddBlockElement b e (Some nb)] ++ (t1 ++ [EvClose nb LAYOUT_SELF] ++ t3)
              ++ [EvClose nb OK; EvOnLayout e]).
      split; [cbn [trace]; rewrite E4, E3, E2, E1, E0; rewrite <- !app_assoc; reflexivity |].
      exists nb, (t1 ++ [EvClose nb LAYOUT_SELF] ++ t3). split; [reflexivity | exact Tmid].
    + exists ([EvAddBlockElement b e (Some nb)] ++ (t1 ++ [EvClose nb LAYOUT_SELF] ++ t3)
              ++ [EvClose nb LAYOUT_SELF]).
      split; [rewrite E4, E3, E2, E1, E0; rewrite <- !app_assoc; reflexivity |].
      split.
      * apply Hnot; [discriminate |]. apply Hsnoc; [exact Tmid | discriminate].
      * right. exists nb, (t1 ++ [EvClose nb LAYOUT_SELF] ++ t3), LAYOUT_SELF.
        split; [discriminate | reflexivity].
    + exists ([EvAddBlockElement b e (Some nb)] ++ (t1 ++ [EvClose nb LAYOUT_SELF] ++ t3)
              ++ [EvClose nb LAYOUT_PARENT]).
      split; [rewrite E4, E3, E2, E1, E0; rewrite <- !app_assoc; reflexivity |].
      split.
      * apply Hnot; [discriminate |]. apply Hsnoc; [exact Tmid | discriminate].
      * right. exists nb, (t1 ++ [EvClose nb LAYOUT_SELF] ++ t3), LAYOUT_PARENT.
        split; [discriminate | reflexivity].
  - injection Hrun as <- <-.
    exists ([EvAddBlockElement b e (Some nb)] ++ t1 ++ [EvClose nb LAYOUT_PARENT]).
    split; [rewrite E2, E1, E0; rewrite <- !app_assoc; reflexivity |].
    split.
    + apply Hnot; [discriminate |]. apply Hsnoc; [exact T1 | discriminate].
    + right. exists nb, t1, LAYOUT_PARENT. split; [discriminate | reflexivity].
Qed.

(** X12.  [FormatElement] returns false only for an element that is not a
    [br], whose display is not none and that is neither absolutely
    positioned nor fixed.  If the element floats, the false result is the
    answer of [AddFloatElement], the last action of the call.  If it does
    not float, its display is block, inline or table: an inline-block or a
    stray table part that does not float never returns false. *)
Theorem false_only_from_flow_elements
  (n : nat) (b : BlockBox) (e : Element) (w w' : World)
  (Hrun : FormatElement K n b e w = Done false w') :
  GetTagName e <> "br" /\
  display (GetComputedValues e) <> DisplayNone /\
  position (GetComputedValues e) <> Absolute /\
  position (GetComputedValues e) <> Fixed /\
  ((float_ (GetComputedValues e) <> FloatNone /\
    exists t, trace w' = t ++ [EvAddFloatElement b e false]) \/
   (float_ (GetComputedValues e) = FloatNone /\
    (display (GetComputedValues e) = Block \/
     display (GetComputedValues e) = Inline \/
     display (GetComputedValues e) = Table))).
Proof.
  destruct n as [| n]; [discriminate |].
  destruct (String.eqb_spec (GetTagName e) "br") as [Hbr | Hbr].
  { rewrite FormatElement_unfold in Hrun.
    unfold FormatElement_body, FormatElementSpecial in Hrun.
    rewrite Hbr in Hrun. cbv [String.eqb Ascii.eqb Bool.eqb bind call_ ret] in Hrun.
    discriminate. }
  rewrite (FormatElement_not_special K n b e w Hbr) in Hrun.
  split; [exact Hbr |].
  assert (Hfloat : forall w0,
    bind (FormatElement_root K n e (GetContainingBlock K b (st w0)) None false)
         (fun _ => call (EvAddFloatElement b e) (AddFloatElement K b e)) w0
      = Done false w' ->
    exists t, trace w' = t ++ [EvAddFloatElement b e false]).
  { intros w0 H. apply bind_Done in H. destruct H as (res & w1 & _ & H).
    rewrite call_eq in H. injection H as Hans <-. cbn [trace]. rewrite Hans.
    eexists. reflexivity. }
  destruct (display (GetComputedValues e)) eqn:Ed; try discriminate;
    (split; [discriminate |]);
    destruct (position (GetComputedValues e)) eqn:Ep;
    cbn [is_absolute_or_fixed] in Hrun; try discriminate;
    (split; [discriminate |]); (split; [discriminate |]);
    destruct (float_ (GetComputedValues e)) eqn:Ef;
    cbn [is_floating] in Hrun;
    try (left; split; [discriminate | exact (Hfloat w Hrun)]);
    right; (split; [reflexivity |]);
    try (left; reflexivity);
    try (right; left; reflexivity);
    try (right; right; reflexivity);
    try discriminate;
    exfalso; exact (FormatElementInlineBlock_not_false K n b e w w' Hrun).
Qed.

End Deferred.

(** ** Termination of the root operation *)

Section RootTermination.

Variable K : Collaborators.

#[local] Abbreviation World := (World K).
#[local] Abbreviation M := (M K).

(** The element's context opens in a root box that was just created. *)
Definition RootOpens : Prop :=
  forall cb s e bx h,
    fst (AddBlockElement K (fst (NewBlockBox K cb s)) e bx h (snd (NewBlockBox K cb s)))
    <> None.

Section Contract.

(** [potential s b]: how many failures the context [b] can still be the
    cause of; [child_of s h b]: the context [h] was opened in [b];
    [settled s h]: [h] has asked for its local reformat. *)
Variable limit : nat.
Variable potential : State K -> BlockBox -> nat.
Variable child_of : State K -> BlockBox -> BlockBox -> Prop.
Variable settled : State K -> BlockBox -> Prop.

(** From [s] to [s'] no context gained potential, and what was settled or
    opened stays so. *)
Definition preserves (s s' : State K) : Prop :=
  (forall h, potential s' h <= potential s h) /\
  (forall h, settled s h -> settled s' h) /\
  (forall h b, child_of s h b -> child_of s' h b).

(** Modelled from the spec: the formatting contexts ([LayoutBlockBox]) and
    the table formatter are not under src/; the dispatcher only sees what
    they answer.  The spec bounds the sibling restart by their behaviour: a
    failure is reported to a context because that context has to change
    ("the parent must itself now show a scrollbar", "parent has no room",
    4.3), and "a restart is only triggered by state that the next attempt
    already accounts for" (9): the change stays, so a context is the cause
    of failures a bounded number of times.  This potential is that of the
    context, not of the element: a context that is opened, also for an
    element that was formatted before, comes with a potential of its own, of
    at most [limit].  A context asks for its local reformat once, "exactly
    one retry", a second failure being a "Parent-Reformat-Required" (4.3);
    and the root context has an unbounded extent (4.1), so the element's
    context always opens in it. *)
Record ReformatContract : Prop := {
  rc_root : RootOpens;
  rc_new : forall cb s, preserves s (snd (NewBlockBox K cb s));
  rc_open : forall b e bx h s, preserves s (snd (AddBlockElement K b e bx h s));
  rc_opened : forall b e bx h s nb,
    fst (AddBlockElement K b e bx h s) = Some nb ->
    potential (snd (AddBlockElement K b e bx h s)) nb <= limit /\
    child_of (snd (AddBlockElement K b e bx h s)) nb b;
  rc_open_null : forall b e bx h s,
    fst (AddBlockElement K b e bx h s) = None ->
    potential (snd (AddBlockElement K b e bx h s)) b < potential s b;
  rc_close : forall h s, preserves s (snd (Close K h s));
  rc_close_parent : forall h s b,
    fst (Close K h s) = LAYOUT_PARENT -> child_of s h b ->
    potential (snd (Close K h s)) b < potential s b;
  rc_close_self : forall h s,
    fst (Close K h s) = LAYOUT_SELF -> settled (snd (Close K h s)) h;
  rc_settled : forall h s, settled s h -> fst (Close K h s) <> LAYOUT_SELF;
  rc_close_absolute : forall h s, preserves s (CloseAbsoluteElements K h s);
  rc_absolute : forall b e s, preserves s (AddAbsoluteElement K b e s);
  rc_float : forall b e s, preserves s (snd (AddFloatElement K b e s));
  rc_float_rejected : forall b e s,
    fst (AddFloatElement K b e s) = false ->
    potential (snd (AddFloatElement K b e s)) b < potential s b;
  rc_inline : forall b e bx s, preserves s (snd (AddInlineElement K b e bx s));
  rc_inline_close : forall i s, preserves s (InlineClose K i s);
  rc_break : forall b s, preserves s (AddBreak K b s);
  rc_table : forall h e s, preserves s (snd (FormatTable K h e s));
  rc_table_parent : forall h e s b,
    fst (FormatTable K h e s) = LAYOUT_PARENT -> child_of s h b ->
    potential (snd (FormatTable K h e s)) b < potential s b;
  rc_on_layout : forall e s, preserves s (OnLayout K e s)
}.

Lemma preserves_refl (s : State K) : preserves s s.
Proof. repeat split; auto. Qed.

Lemma preserves_trans (s1 s2 s3 : State K) :
  preserves s1 s2 -> preserves s2 s3 -> preserves s1 s3.
Proof.
  intros (Hp & Hs & Hc) (Hp' & Hs' & Hc'). repeat split.
  - intros h. specialize (Hp h). specialize (Hp' h). lia.
  - intros h H. apply Hs', Hs, H.
  - intros h b H. apply Hc', Hc, H.
Qed.

(** The run went from [w] to a world that [preserves] it. *)
Definition within {A : Type} (w : World) : A -> World -> Prop :=
  fun _ w' => preserves (st w) (st w').

(** The same, and a false result was paid for by the context [b]. *)
Definition charged_to (b : BlockBox) (w : World) : bool -> World -> Prop :=
  fun ok w' =>
    preserves (st w) (st w') /\
    (ok = false -> potential (st w') b < potential (st w) b).

Lemma charged_after (b : BlockBox) (w w1 w2 : World) (ok : bool) :
  preserves (st w) (st w1) -> charged_to b w1 ok w2 -> charged_to b w ok w2.
Proof.
  intros H1 [H2 Hlt]. split; [exact (preserves_trans _ _ _ H1 H2) |].
  intros Hok. specialize (Hlt Hok). destruct H1 as [Hp _]. specialize (Hp b). lia.
Qed.

Lemma charged_true (b : BlockBox) (w w' : World) :
  preserves (st w) (st w') -> charged_to b w true w'.
Proof. intros H. split; [exact H | discriminate]. Qed.

(** [F] returns on the elements of [cs] from every world, and the context
    [b] pays for its failures. *)
Definition billed (F : Element -> M bool) (cs : list Element) (b : BlockBox) : Prop :=
  forall c, In c cs -> forall w, returns (F c) w (charged_to b w).

Ltac and_then t a w' H :=
  apply returns_bind; eapply returns_mono; [t | intros a w' H].

(** The sibling loop restarts at most as often as its context can pay. *)
Lemma format_children_billed (F : Element -> M bool) (all : list Element)
  (nb : BlockBox) :
  billed F all nb ->
  forall k rest w,
    incl rest all -> potential (st w) nb <= k ->
    returns (format_children K k F all rest) w (within w).
Proof.
  intros HF.
  induction k as [| k IHk]; induction rest as [| c rest IHrest]; intros w Hin Hk;
    rewrite ?format_children_nil, ?format_children_cons;
    try (apply returns_ret, preserves_refl).
  - and_then ltac:(apply (HF c (Hin c (or_introl eq_refl)) w)) ok w1 H1.
    destruct H1 as [Hp Hlt]. destruct ok.
    + eapply returns_mono.
      * apply IHrest; [intros x Hx; apply Hin; right; exact Hx |].
        destruct Hp as [Hp _]. specialize (Hp nb). lia.
      * intros a w2 H2. exact (preserves_trans _ _ _ Hp H2).
    + specialize (Hlt eq_refl). lia.
  - and_then ltac:(apply (HF c (Hin c (or_introl eq_refl)) w)) ok w1 H1.
    destruct H1 as [Hp Hlt]. destruct ok.
    + eapply returns_mono.
      * apply IHrest; [intros x Hx; apply Hin; right; exact Hx |].
        destruct Hp as [Hp _]. specialize (Hp nb). lia.
      * intros a w2 H2. exact (preserves_trans _ _ _ Hp H2).
    + specialize (Hlt eq_refl). eapply returns_mono.
      * apply IHk; [apply incl_refl | lia].
      * intros a w2 H2. exact (preserves_trans _ _ _ Hp H2).
Qed.

Lemma format_children_once_billed (F : Element -> M bool) (all : list Element)
  (nb : BlockBox) :
  billed F all nb ->
  forall cs w, incl cs all -> returns (format_children_once K F cs) w (within w).
Proof.
  intros HF. induction cs as [| c cs IH]; intros w Hin; simpl.
  - apply returns_ret, preserves_refl.
  - and_then ltac:(apply (HF c (Hin c (or_introl eq_refl)) w)) ok w1 H1.
    destruct H1 as [Hp _]. eapply returns_mono.
    + apply IH. intros x Hx. apply Hin. right. exact Hx.
    + intros a w2 H2. exact (preserves_trans _ _ _ Hp H2).
Qed.

Lemma format_children_strict_billed (F : Element -> M bool) (all : list Element)
  (b : BlockBox) (tail : M bool) :
  billed F all b ->
  (forall w, returns tail w (charged_to b w)) ->
  forall cs w,
    incl cs all -> returns (format_children_strict K F cs tail) w (charged_to b w).
Proof.
  intros HF Htail. induction cs as [| c cs IH]; intros w Hin; simpl.
  - apply Htail.
  - and_then ltac:(apply (HF c (Hin c (or_introl eq_refl)) w)) ok w1 H1.
    destruct ok.
    + destruct H1 as [Hp _]. eapply returns_mono.
      * apply IH. intros x Hx. apply Hin. right. exact Hx.
      * intros ok w2 H2. exact (charged_after _ _ _ _ _ Hp H2).
    + apply returns_ret. exact H1.
Qed.

(** The passes of the root overload, for a context that can pay for the
    restarts of each pass. *)
Lemma layout_iterations_billed (pass : M unit) (close : M CloseResult)
  (nb : BlockBox) (k : nat) :
  (forall w, potential (st w) nb <= k -> returns pass w (within w)) ->
  (forall w, returns close w (within w)) ->
  forall i w,
    potential (st w) nb <= k ->
    returns (layout_iterations K i pass close) w (within w).
Proof.
  intros Hpass Hclose. induction i as [| i IH]; intros w Hk; simpl.
  - apply returns_ret, preserves_refl.
  - and_then ltac:(apply (Hpass w Hk)) u w1 H1.
    and_then ltac:(apply (Hclose w1)) r w2 H2.
    pose proof (preserves_trans _ _ _ H1 H2) as H12.
    destruct (is_OK r).
    + apply returns_ret. exact H12.
    + eapply returns_mono.
      * apply IH. destruct H12 as [Hp _]. specialize (Hp nb). lia.
      * intros a w3 H3. exact (preserves_trans _ _ _ H12 H3).
Qed.

Hypothesis HC : ReformatContract.

Lemma call_within {A : Type} (ev : A -> Event) (op : State K -> A * State K)
  (w : World) :
  preserves (st w) (snd (op (st w))) -> returns (call ev op) w (within w).
Proof. intros H. apply returns_call. exact H. Qed.

Lemma call__within (ev : Event) (op : State K -> State K) (w : World) :
  preserves (st w) (op (st w)) -> returns (call_ ev op) w (within w).
Proof. intros H. apply returns_call_. exact H. Qed.

Lemma FormatElement_root_body_billed (k : nat) (F : BlockBox -> Element -> M bool)
  (e : Element) (cb : Vector2f K) (ob : option (Box K)) (wo : bool) (w : World) :
  (forall b, billed (F b) (children e) b) ->
  limit <= k ->
  returns (FormatElement_root_body K k F e cb ob wo) w (within w).
Proof.
  intros HF Hk. unfold FormatElement_root_body.
  apply returns_bind, returns_call. cbv zeta.
  apply returns_bind, returns_call. cbn [st trace].
  pose proof (rc_new HC cb (st w)) as H1.
  match goal with
  | |- context [AddBlockElement K ?b0 ?e' ?bx ?h ?s] =>
      pose proof (rc_root HC cb (st w) e' bx h) as Hsome;
      pose proof (rc_open HC b0 e' bx h s) as H2;
      pose proof (rc_opened HC b0 e' bx h s) as Hopened;
      destruct (AddBlockElement K b0 e' bx h s) as [[bcb |] s2]
  end; cbn [fst snd] in *; [| congruence].
  clear Hsome. destruct (Hopened bcb eq_refl) as [Hlimit _].
  pose proof (preserves_trans _ _ _ H1 H2) as H12.
  match goal with
  | |- returns _ ?w0 _ => set (w2 := w0)
  end.
  assert (Hw2 : preserves (st w) (st w2)) by exact H12.
  assert (Hpay : potential (st w2) bcb <= k) by (subst w2; cbn [st]; lia).
  clearbody w2.
  and_then
    ltac:(apply (layout_iterations_billed _ _ bcb k);
          [ intros w' Hw'; apply (format_children_billed _ _ bcb (HF bcb));
            [apply incl_refl | exact Hw']
          | intros w'; apply call_within, (rc_close HC)
          | exact Hpay ]) u w3 H3.
  and_then ltac:(apply call__within, (rc_close_absolute HC)) u' w4 H4.
  assert (Hend : forall res : option (Vector2f K),
    returns (bind (call_ (EvOnLayout e) (OnLayout K e)) (fun _ => ret res)) w4 (within w)).
  { intros res.
    and_then ltac:(apply call__within, (rc_on_layout HC)) u'' w5 H5.
    apply returns_ret. unfold within in *.
    eauto using preserves_trans. }
  destruct wo; apply returns_bind.
  - apply returns_bind, returns_read, returns_ret. apply Hend.
  - apply returns_ret. apply Hend.
Qed.

Lemma FormatElementBlock_body_billed (k : nat) (F : BlockBox -> Element -> M bool)
  (b : BlockBox) (e : Element) (w : World) :
  (forall b', billed (F b') (children e) b') ->
  limit <= k ->
  returns (FormatElementBlock_body K k F b e) w (charged_to b w).
Proof.
  intros HF Hk. unfold FormatElementBlock_body.
  apply returns_bind, returns_read, returns_bind, returns_call. cbn [st trace].
  match goal with
  | |- context [AddBlockElement K ?b0 ?e' ?bx ?h ?s] =>
      pose proof (rc_open HC b0 e' bx h s) as H1;
      pose proof (rc_opened HC b0 e' bx h s) as Hopened;
      pose proof (rc_open_null HC b0 e' bx h s) as Hnull;
      destruct (AddBlockElement K b0 e' bx h s) as [[nb |] s1]
  end; cbn [fst snd] in *.
  2: { apply returns_ret. split; [exact H1 | intros _; apply Hnull; reflexivity]. }
  clear Hnull. destruct (Hopened nb eq_refl) as [Hlimit Hchild]. clear Hopened.
  match goal with
  | |- returns _ ?w0 _ => set (w1 := w0)
  end.
  assert (Hw1 : preserves (st w) (st w1)) by exact H1.
  assert (Hpay : potential (st w1) nb <= k) by (subst w1; cbn [st]; lia).
  assert (Hc1 : child_of (st w1) nb b) by exact Hchild.
  clearbody w1. clear H1 Hlimit Hchild.
  and_then
    ltac:(apply (format_children_billed _ _ nb (HF nb)); [apply incl_refl | exact Hpay])
    u w2 H2.
  apply returns_bind, returns_call.
  pose proof (rc_close HC nb (st w2)) as H3.
  pose proof (rc_close_parent HC nb (st w2) b) as Hparent.
  pose proof (rc_close_self HC nb (st w2)) as Hself.
  assert (Hc2 : child_of (st w2) nb b) by (apply H2; exact Hc1).
  pose proof (preserves_trans _ _ _ Hw1 H2) as H02.
  assert (Hnotify : forall w', preserves (st w) (st w') ->
    returns (bind (call_ (EvOnLayout e) (OnLayout K e)) (fun _ => ret true)) w'
      (charged_to b w)).
  { intros w' Hw'.
    and_then ltac:(apply call__within, (rc_on_layout HC)) u' w'' H''.
    apply returns_ret, charged_true. exact (preserves_trans _ _ _ Hw' H''). }
  destruct (fst (Close K nb (st w2))) eqn:Er.
  - apply Hnotify. exact (preserves_trans _ _ _ H02 H3).
  - specialize (Hself eq_refl).
    match goal with
    | |- returns _ ?w0 _ => set (w3 := w0)
    end.
    assert (Hw3 : preserves (st w2) (st w3)) by exact H3.
    assert (Hs3 : settled (st w3) nb) by exact Hself.
    clearbody w3.
    and_then
      ltac:(apply (format_children_once_billed _ _ nb (HF nb)); apply incl_refl)
      u' w4 H4.
    apply returns_bind, returns_call.
    pose proof (rc_close HC nb (st w4)) as H5.
    pose proof (rc_close_parent HC nb (st w4) b) as Hparent'.
    assert (Hs4 : settled (st w4) nb) by (apply H4; exact Hs3).
    pose proof (rc_settled HC nb (st w4) Hs4) as Hagain.
    pose proof (preserves_trans _ _ _ H02 (preserves_trans _ _ _ Hw3 H4)) as H04.
    assert (Hc4 : child_of (st w4) nb b) by (apply H4, Hw3; exact Hc2).
    destruct (fst (Close K nb (st w4))) eqn:Er2; cbn [is_OK].
    + apply Hnotify. exact (preserves_trans _ _ _ H04 H5).
    + congruence.
    + apply returns_ret. split; [exact (preserves_trans _ _ _ H04 H5) |].
      intros _. specialize (Hparent' eq_refl Hc4).
      destruct H04 as [Hp _]. specialize (Hp b). cbn [st]. lia.
  - apply returns_ret. split; [exact (preserves_trans _ _ _ H02 H3) |].
    intros _. specialize (Hparent eq_refl Hc2).
    destruct H02 as [Hp _]. specialize (Hp b). cbn [st]. lia.
Qed.

Lemma FormatElementInline_body_billed (F : BlockBox -> Element -> M bool)
  (b : BlockBox) (e : Element) (w : World) :
  (forall b', billed (F b') (children e) b') ->
  returns (FormatElementInline_body K F b e) w (charged_to b w).
Proof.
  intros HF. unfold FormatElementInline_body.
  apply returns_bind, returns_read. cbv zeta.
  and_then ltac:(apply call_within, (rc_inline HC)) i w1 H1.
  eapply returns_mono.
  - apply (format_children_strict_billed _ (children e) b); [apply HF | | apply incl_refl].
    intros w'.
    and_then ltac:(apply call__within, (rc_inline_close HC)) u w'' H''.
    apply returns_ret, charged_true. exact H''.
  - intros ok w2 H2. exact (charged_after _ _ _ _ _ H1 H2).
Qed.

Lemma FormatElementInlineBlock_body_billed (k : nat) (F : BlockBox -> Element -> M bool)
  (b : BlockBox) (e : Element) (w : World) :
  (forall b', billed (F b') (children e) b') ->
  limit <= k ->
  returns (FormatElementInlineBlock_body K k F b e) w (charged_to b w).
Proof.
  intros HF Hk. unfold FormatElementInlineBlock_body.
  apply returns_bind, returns_read.
  and_then ltac:(apply FormatElement_root_body_billed; [exact HF | exact Hk]) u w1 H1.
  apply returns_bind, returns_read.
  and_then ltac:(apply call_within, (rc_inline HC)) i w2 H2.
  and_then ltac:(apply call__within, (rc_inline_close HC)) u' w3 H3.
  apply returns_ret, charged_true.
  exact (preserves_trans _ _ _ H1 (preserves_trans _ _ _ H2 H3)).
Qed.

Lemma FormatElementTable_billed (b : BlockBox) (e : Element) (w : World) :
  returns (FormatElementTable K b e) w (charged_to b w).
Proof.
  unfold FormatElementTable.
  apply returns_bind, returns_read, returns_bind, returns_call. cbn [st trace].
  match goal with
  | |- context [AddBlockElement K ?b0 ?e' ?bx ?h ?s] =>
      pose proof (rc_open HC b0 e' bx h s) as H1;
      pose proof (rc_opened HC b0 e' bx h s) as Hopened;
      pose proof (rc_open_null HC b0 e' bx h s) as Hnull;
      destruct (AddBlockElement K b0 e' bx h s) as [[tb |] s1]
  end; cbn [fst snd] in *.
  2: { apply returns_ret. split; [exact H1 | intros _; apply Hnull; reflexivity]. }
  clear Hnull. destruct (Hopened tb eq_refl) as [_ Hchild]. clear Hopened.
  match goal with
  | |- returns _ ?w0 _ => set (w1 := w0)
  end.
  assert (Hw1 : preserves (st w) (st w1)) by exact H1.
  assert (Hc1 : child_of (st w1) tb b) by exact Hchild.
  clearbody w1. clear H1 Hchild.
  eapply returns_mono; [| intros ok w2 H2; exact (charged_after _ _ _ _ _ Hw1 H2)].
  clear Hw1. revert w1 Hc1.
  generalize 2 as i.
  induction i as [| i IH]; intros w1 Hc1; simpl.
  - apply returns_ret, charged_true, preserves_refl.
  - apply returns_bind, returns_call.
    pose proof (rc_table HC tb e (st w1)) as H2.
    pose proof (rc_table_parent HC tb e (st w1) b) as Hparent.
    destruct (fst (FormatTable K tb e (st w1))) eqn:Er.
    + apply returns_ret, charged_true. exact H2.
    + eapply returns_mono.
      * apply IH. apply H2. exact Hc1.
      * intros ok w3 H3. cbv beta in H3.
        eapply charged_after; [| exact H3]. exact H2.
    + apply returns_ret. split; [exact H2 |]. intros _. exact (Hparent eq_refl Hc1).
Qed.

Lemma FormatElement_body_billed (k : nat) (F : BlockBox -> Element -> M bool)
  (b : BlockBox) (e : Element) (w : World) :
  (forall b', billed (F b') (children e) b') ->
  limit <= k ->
  returns (FormatElement_body K k F b e) w (charged_to b w).
Proof.
  intros HF Hk. unfold FormatElement_body, FormatElementSpecial. cbv zeta.
  apply returns_bind.
  destruct (String.eqb (GetTagName e) "br").
  { and_then ltac:(apply call__within, (rc_break HC)) u w1 H1.
    and_then ltac:(apply call__within, (rc_on_layout HC)) u' w2 H2.
    apply returns_ret, returns_ret, charged_true.
    exact (preserves_trans _ _ _ H1 H2). }
  apply returns_ret.
  assert (Hskip : returns (ret (K := K) true) w (charged_to b w))
    by (apply returns_ret, charged_true, preserves_refl).
  assert (Hwarn : returns (bind (emit (EvLogWarning (table_warning e)))
                                (fun _ => ret (K := K) true)) w (charged_to b w)).
  { apply returns_bind, returns_emit, returns_ret, charged_true, preserves_refl. }
  destruct (display (GetComputedValues e)); try exact Hskip;
    (destruct (is_absolute_or_fixed (position (GetComputedValues e)));
     [ and_then ltac:(apply call__within, (rc_absolute HC)) u w1 H1;
       apply returns_ret, charged_true; exact H1
     | destruct (is_floating (float_ (GetComputedValues e)));
       [ apply returns_bind, returns_read;
         and_then ltac:(apply FormatElement_root_body_billed; [exact HF | exact Hk])
           u w2 H2;
         apply returns_call;
         apply (charged_after _ _ _ _ _ H2);
         split; [apply (rc_float HC) | apply (rc_float_rejected HC)]
       | ] ]);
    try exact Hwarn.
  - apply FormatElementBlock_body_billed; assumption.
  - apply FormatElementInline_body_billed; assumption.
  - apply FormatElementInlineBlock_body_billed; assumption.
  - apply FormatElementTable_billed.
Qed.

(** Fuel [height e + limit] is enough for [FormatElement]: the height for
    the nesting, the limit for the restarts of a sibling loop, whose context
    was just opened. *)
Lemma FormatElement_billed (n : nat) :
  forall b e w,
    height e + limit <= n -> returns (FormatElement K n b e) w (charged_to b w).
Proof.
  induction n as [| n IH]; intros b e w Hn.
  - pose proof (height_pos e). lia.
  - rewrite FormatElement_unfold. pose proof (height_pos e).
    apply FormatElement_body_billed; [| lia].
    intros b' c Hc w'. apply IH.
    pose proof (height_child e c Hc). lia.
Qed.

Lemma FormatElement_root_billed (n : nat) (e : Element) (cb : Vector2f K)
  (ob : option (Box K)) (wo : bool) (w : World) :
  height e + limit <= n ->
  returns (FormatElement_root K n e cb ob wo) w (within w).
Proof.
  intros Hn. apply FormatElement_root_body_billed; [| lia].
  intros b c Hc w'. apply FormatElement_billed.
  pose proof (height_child e c Hc). lia.
Qed.

End Contract.


End RootTermination.

Arguments emits {K A} H m.

(** ** Contexts with scrollbars

    Formatting contexts in which the failures are those of the scrollbar
    protocol.  A scrollbar belongs to a context: a context is opened without
    one, also when its element was formatted before, and a scrollbar that has
    appeared stays for as long as the context is there.  [Close] of the
    context of an element answers [LAYOUT_PARENT] when the element pushes on
    the element of the parent context and that context has no scrollbar yet,
    which then appears; it answers [LAYOUT_SELF] when the content of the
    element overflows and its own context has no scrollbar yet, which then
    appears; otherwise it answers [OK].  Which elements overflow or push is
    given by the configuration, as the geometry is not modelled; elements
    are known by their address. *)

Module Scrollbars.

Record Config : Type := mkConfig {
  overflows : string -> bool;
  pushes : string -> bool
}.

(** A context: the address of its element and the context it was opened
    in; the root box has neither. *)
Record Context : Type := mkContext {
  element_of : option string;
  parent_of : option BlockBox
}.

(** The contexts in the order they were opened, the handle of a context
    being its position; the contexts that show a scrollbar; the number of
    inline boxes. *)
Record Layout : Type := mkLayout {
  contexts : list Context;
  scrolled : list BlockBox;
  inline_boxes : nat
}.

Definition has_scrollbar (s : Layout) (h : BlockBox) : bool :=
  existsb (Nat.eqb h) (scrolled s).

Definition show_scrollbar (h : BlockBox) (s : Layout) : Layout :=
  mkLayout (contexts s) (h :: scrolled s) (inline_boxes s).

Definition open (ctx : Context) (s : Layout) : BlockBox * Layout :=
  (List.length (contexts s),
   mkLayout (contexts s ++ [ctx]) (scrolled s) (inline_boxes s)).

Definition new_block_box (s : Layout) : BlockBox * Layout :=
  open (mkContext None None) s.

Definition add_block_element (parent : BlockBox) (e : Element) (s : Layout)
  : option BlockBox * Layout :=
  (Some (fst (open (mkContext (Some (GetAddress e)) (Some parent)) s)),
   snd (open (mkContext (Some (GetAddress e)) (Some parent)) s)).

Definition add_inline_element (s : Layout) : InlineBox * Layout :=
  (inline_boxes s, mkLayout (contexts s) (scrolled s) (S (inline_boxes s))).

Definition has_element (s : Layout) (h : BlockBox) : bool :=
  match nth_error (contexts s) h with
  | Some (mkContext (Some _) _) => true
  | _ => false
  end.

(** The parent context that gains a scrollbar, when there is one. *)
Definition pushed_parent (c : Config) (s : Layout) (ctx : Context) : option BlockBox :=
  match element_of ctx, parent_of ctx with
  | Some a, Some q =>
      if pushes c a && has_element s q && negb (has_scrollbar s q)
      then Some q else None
  | _, _ => None
  end.

Definition overflowing (c : Config) (s : Layout) (h : BlockBox) (ctx : Context) : bool :=
  match element_of ctx with
  | Some a => overflows c a && negb (has_scrollbar s h)
  | None => false
  end.

Definition close (c : Config) (h : BlockBox) (s : Layout) : CloseResult * Layout :=
  match nth_error (contexts s) h with
  | None => (OK, s)
  | Some ctx =>
      match pushed_parent c s ctx with
      | Some q => (LAYOUT_PARENT, show_scrollbar q s)
      | None =>
          if overflowing c s h ctx
          then (LAYOUT_SELF, show_scrollbar h s)
          else (OK, s)
      end
  end.

Definition collaborators (c : Config) : Collaborators :=
  {| State := Layout;
     Box := unit;
     Vector2f := unit;
     Heights := unit;
     NewBlockBox := fun _ s => new_block_box s;
     AddBlockElement := fun parent e _ _ s => add_block_element parent e s;
     Close := fun h s => close c h s;
     CloseAbsoluteElements := fun _ s => s;
     GetVisibleOverflowSize := fun _ _ => tt;
     AddAbsoluteElement := fun _ _ s => s;
     AddFloatElement := fun _ _ s => (true, s);
     AddInlineElement := fun _ _ _ s => add_inline_element s;
     InlineClose := fun _ s => s;
     AddBreak := fun _ s => s;
     FormatTable := fun _ _ s => (OK, s);
     OnLayout := fun _ s => s;
     GetBox := fun _ _ => tt;
     GetContainingBlock := fun _ _ => tt;
     BuildBox := fun _ _ _ => tt;
     BuildBoxIn := fun _ _ _ _ => (tt, tt);
     GetMinMaxHeight := fun _ _ _ => tt |}.

(** A context can be the cause of a failure as long as it has no
    scrollbar. *)
Definition potential (s : Layout) (h : BlockBox) : nat :=
  if has_scrollbar s h then 0 else 1.

Definition child_of (s : Layout) (h b : BlockBox) : Prop :=
  option_map parent_of (nth_error (contexts s) h) = Some (Some b).

Definition settled (s : Layout) (h : BlockBox) : Prop := has_scrollbar s h = true.

Definition empty : Layout := mkLayout [] [] 0.

Definition start (c : Config) : World (collaborators c) :=
  mkWorld (empty : State (collaborators c)) [].

#[local] Abbreviation kept c := (preserves (collaborators c) potential child_of settled).

Lemma kept_refl (c : Config) (s : Layout) : kept c s s.
Proof. apply preserves_refl. Qed.

Lemma open_kept (c : Config) (ctx : Context) (s : Layout) : kept c s (snd (open ctx s)).
Proof.
  repeat split.
  - intros h. apply le_n.
  - intros h H. exact H.
  - intros h b. unfold child_of. cbn [open snd contexts].
    destruct (nth_error (contexts s) h) as [x |] eqn:E; [| discriminate].
    rewrite nth_error_app1; [rewrite E; trivial |].
    apply nth_error_Some. congruence.
Qed.

Lemma open_child (ctx : Context) (s : Layout) :
  nth_error (contexts (snd (open ctx s))) (fst (open ctx s)) = Some ctx.
Proof.
  cbn [open fst snd contexts].
  rewrite nth_error_app2, Nat.sub_diag; [reflexivity | apply le_n].
Qed.

Lemma show_scrollbar_kept (c : Config) (q : BlockBox) (s : Layout) :
  kept c s (show_scrollbar q s).
Proof.
  repeat split.
  - intros h. unfold potential, has_scrollbar. cbn [show_scrollbar scrolled existsb].
    destruct (Nat.eqb h q); cbn [orb]; [| apply le_n].
    destruct (existsb (Nat.eqb h) (scrolled s)); auto.
  - intros h. unfold settled, has_scrollbar. cbn [show_scrollbar scrolled existsb].
    intros ->. apply orb_true_r.
  - intros h b H. exact H.
Qed.

Lemma show_scrollbar_settled (q : BlockBox) (s : Layout) :
  has_scrollbar (show_scrollbar q s) q = true.
Proof.
  unfold has_scrollbar. cbn [show_scrollbar scrolled existsb].
  rewrite Nat.eqb_refl. reflexivity.
Qed.

Lemma close_kept (c : Config) (h : BlockBox) (s : Layout) : kept c s (snd (close c h s)).
Proof.
  unfold close. destruct (nth_error (contexts s) h) as [ctx |]; [| apply kept_refl].
  destruct (pushed_parent c s ctx) as [q |]; [apply show_scrollbar_kept |].
  destruct (overflowing c s h ctx); [apply show_scrollbar_kept | apply kept_refl].
Qed.

(** [LAYOUT_PARENT] is answered when the parent context gains its
    scrollbar. *)
Lemma close_parent (c : Config) (h : BlockBox) (s : Layout) (b : BlockBox) :
  fst (close c h s) = LAYOUT_PARENT -> child_of s h b ->
  potential (snd (close c h s)) b < potential s b.
Proof.
  unfold close, child_of.
  destruct (nth_error (contexts s) h) as [ctx |]; [| discriminate].
  cbn [option_map]. intros Hr Hb. injection Hb as Hb.
  destruct (pushed_parent c s ctx) as [q |] eqn:Ep.
  - unfold pushed_parent in Ep. rewrite Hb in Ep.
    destruct (element_of ctx) as [a |]; [| discriminate].
    destruct (pushes c a && has_element s b && negb (has_scrollbar s b)) eqn:Ec;
      [| discriminate].
    injection Ep as <-. apply andb_true_iff in Ec. destruct Ec as [_ Ec].
    apply negb_true_iff in Ec. cbn [snd]. unfold potential.
    rewrite show_scrollbar_settled, Ec. apply le_n.
  - destruct (overflowing c s h ctx); discriminate.
Qed.

(** [LAYOUT_SELF] is answered when the context gains its own scrollbar,
    and not after that. *)
Lemma close_self (c : Config) (h : BlockBox) (s : Layout) :
  fst (close c h s) = LAYOUT_SELF -> settled (snd (close c h s)) h.
Proof.
  unfold close. destruct (nth_error (contexts s) h) as [ctx |]; [| discriminate].
  destruct (pushed_parent c s ctx) as [q |]; [discriminate |].
  destruct (overflowing c s h ctx); [| discriminate].
  intros _. apply show_scrollbar_settled.
Qed.

Lemma close_settled (c : Config) (h : BlockBox) (s : Layout) :
  settled s h -> fst (close c h s) <> LAYOUT_SELF.
Proof.
  unfold close, settled. intros Hs.
  destruct (nth_error (contexts s) h) as [ctx |]; [| discriminate].
  destruct (pushed_parent c s ctx) as [q |]; [discriminate |].
  unfold overflowing. rewrite Hs.
  destruct (element_of ctx) as [a |]; [rewrite andb_false_r |]; discriminate.
Qed.

(** The scrollbar protocol keeps the contract of the dispatcher: a context
    pays at most once. *)
Lemma reformat_contract (c : Config) :
  ReformatContract (collaborators c) 1 potential child_of settled.
Proof.
  split;
    cbn [collaborators NewBlockBox AddBlockElement Close CloseAbsoluteElements
         AddAbsoluteElement AddFloatElement AddInlineElement InlineClose
         AddBreak FormatTable OnLayout State].
  - intros cb s e bx h. discriminate.
  - intros cb s. apply open_kept.
  - intros b e bx h s. apply open_kept.
  - intros b e bx h s nb Hnb. cbn [add_block_element fst snd] in *.
    injection Hnb as <-. split.
    + unfold potential. destruct (has_scrollbar _ _); auto.
    + unfold child_of. rewrite open_child. reflexivity.
  - intros b e bx h s. discriminate.
  - intros h s. apply close_kept.
  - intros h s b. apply close_parent.
  - intros h s. apply close_self.
  - intros h s. apply close_settled.
  - intros h s. apply kept_refl.
  - intros b e s. apply kept_refl.
  - intros b e s. apply kept_refl.
  - intros b e s. discriminate.
  - intros b e bx s. repeat split; auto.
  - intros i s. apply kept_refl.
  - intros b s. apply kept_refl.
  - intros h e s. apply kept_refl.
  - intros h e s b. discriminate.
  - intros e s. apply kept_refl.
Qed.

End Scrollbars.

(** ** Runs for the revised theorems *)

Section RevisedRuns.

(** A page whose body overflows and whose paragraph pushes on the section
    around it. *)
Definition page : Element := styled "body" Block Static FloatNone [section_one_block].

Definition page_config : Scrollbars.Config :=
  Scrollbars.mkConfig (String.eqb "body") (String.eqb "p").

(** The paragraph makes the context of the section show a scrollbar and the
    loop of the section restarts; the body then shows its own scrollbar and
    the root runs its second pass, in which the section gets a context
    without a scrollbar and its loop restarts once more. *)
Example page_run_restarts_and_retries :
  exists w',
    FormatElement_root (Scrollbars.collaborators page_config) 4 page tt None false
      (Scrollbars.start page_config) = Done None w' /\
    Scrollbars.scrolled (st w') = [5; 1; 2] /\
    trace w' =
      [EvNewBlockBox 0; EvAddBlockElement 0 page (Some 1);
       EvAddBlockElement 1 section_one_block (Some 2);
       EvAddBlockElement 2 paragraph (Some 3); EvClose 3 LAYOUT_PARENT;
       EvAddBlockElement 2 paragraph (Some 4); EvClose 4 OK; EvOnLayout paragraph;
       EvClose 2 OK; EvOnLayout section_one_block;
       EvClose 1 LAYOUT_SELF;
       EvAddBlockElement 1 section_one_block (Some 5);
       EvAddBlockElement 5 paragraph (Some 6); EvClose 6 LAYOUT_PARENT;
       EvAddBlockElement 5 paragraph (Some 7); EvClose 7 OK; EvOnLayout paragraph;
       EvClose 5 OK; EvOnLayout section_one_block;
       EvClose 1 OK; EvCloseAbsoluteElements 1; EvOnLayout page].
Proof. eexists. split; [vm_compute; reflexivity | split; reflexivity]. Qed.


Import Scripted.

(** Three events at the end of a list determine what comes before them. *)
Lemma app_three_inv {A : Type} (l l' : list A) (a b c a' b' c' : A) :
  l ++ [a; b; c] = l' ++ [a'; b'; c'] -> l = l' /\ a = a'.
Proof.
  intros E.
  change (l ++ [a; b; c]) with (l ++ [a] ++ [b] ++ [c]) in E.
  change (l' ++ [a'; b'; c']) with (l' ++ [a'] ++ [b'] ++ [c']) in E.
  rewrite !app_assoc in E.
  apply app_inj_tail in E. destruct E as [E _].
  apply app_inj_tail in E. destruct E as [E _].
  apply app_inj_tail in E. exact E.
Qed.


(** The section of the local-reformat run, seen from its result. *)
Lemma block_notifies_exactly_when_committed_witness :
  exists w',
    FormatElementBlock (collaborators true) 2 0 section_one_block
      (start true (mkScript 0 [] [OK; LAYOUT_SELF; LAYOUT_PARENT; OK] [] []))
    = Done true w' /\
    exists t,
      trace w' = [] ++ t /\
      exists nb t',
        t = [EvAddBlockElement 0 section_one_block (Some nb)] ++ t'
              ++ [EvClose nb OK; EvOnLayout section_one_block] /\
        ~ In (EvOnLayout section_one_block) t'.
Proof.
  eexists. split; [vm_compute; reflexivity |].
  apply (block_notifies_exactly_when_committed
           (collaborators true) 2 0 section_one_block
           (start true (mkScript 0 [] [OK; LAYOUT_SELF; LAYOUT_PARENT; OK] [] [])) true).
  vm_compute; reflexivity.
Defined.

(** A floated inline-block that its context rejects. *)
Definition floated_button : Element := styled "button" InlineBlock Static Left [].

Lemma false_only_from_flow_elements_witness :
  exists w',
    FormatElement (collaborators false) 2 0 floated_button (start false idle)
      = Done false w' /\
    GetTagName floated_button <> "br" /\
    display (GetComputedValues floated_button) <> DisplayNone /\
    position (GetComputedValues floated_button) <> Absolute /\
    position (GetComputedValues floated_button) <> Fixed /\
    ((float_ (GetComputedValues floated_button) <> FloatNone /\
      exists t, trace w' = t ++ [EvAddFloatElement 0 floated_button false]) \/
     (float_ (GetComputedValues floated_button) = FloatNone /\
      (display (GetComputedValues floated_button) = Block \/
       display (GetComputedValues floated_button) = Inline \/
       display (GetComputedValues floated_button) = Table))).
Proof.
  eexists. split; [vm_compute; reflexivity |].
  apply (false_only_from_flow_elements
           (collaborators false) 2 0 floated_button (start false idle)).
  vm_compute; reflexivity.
Defined.

End RevisedRuns.
